(** * Proxy synchronisation core of [handlers/proxy_sync.py]

    A shallow embedding of the multi-protocol link parser
    ([MultiProtocolParser]), the source registry ([ProxySourceManager])
    and the deduplicating merger ([ProxyMerger]), together with the
    properties of the specification that concern them.

    Python values are modelled as follows.
    - [str] is a sequence of Unicode code points, [bytes] a sequence of
      octets; both are lists of [N].
    - A [dict] is an association list in insertion order.
    - An exception that the source catches is the [None] of an [option].
    - Objects that the source mutates in place ([ProxyInfo] instances and
      their [data] dictionaries) live in an explicit store, and lists hold
      references into it. *)

From Stdlib Require Import List NArith ZArith Bool Ascii String Lia Arith.
From Stdlib Require Import DecimalString.
From Stdlib Require DecimalZ.
Import ListNotations.

Set Implicit Arguments.
Set Warnings "-register-all".

(* ------------------------------------------------------------------ *)
(** ** Python strings *)

Module PyStr.

Local Open Scope N_scope.

Definition str := list N.
Definition bytes := list N.

(** An ASCII literal of the source, as code points. *)
Definition lit (x : string) : str :=
  List.map N_of_ascii (list_ascii_of_string x).

Fixpoint eqb (a b : str) : bool :=
  match a, b with
  | [], [] => true
  | x :: a', y :: b' => (x =? y) && eqb a' b'
  | _, _ => false
  end.

(** [bool(s)] for a string: non-empty. *)
Definition nonempty (a : str) : bool :=
  match a with [] => false | _ :: _ => true end.

(** [t.startswith(p)] *)
Fixpoint startswith (t p : str) : bool :=
  match p, t with
  | [], _ => true
  | x :: p', y :: t' => (x =? y) && startswith t' p'
  | _ :: _, [] => false
  end.

(** [p in t] *)
Fixpoint contains (p t : str) : bool :=
  startswith t p ||
  match t with
  | [] => false
  | _ :: t' => contains p t'
  end.

(** [t.split(sep, 1)] when [sep in t]: the text before and after the first
    occurrence; [None] when [sep] does not occur (the source always tests
    [sep in t] first). *)
Fixpoint split_once (sep t : str) : option (str * str) :=
  if startswith t sep then Some ([], skipn (List.length sep) t)
  else match t with
       | [] => None
       | c :: t' =>
           match split_once sep t' with
           | Some (a, b) => Some (c :: a, b)
           | None => None
           end
       end.

(** [t.rsplit(sep, 1)] when [sep in t]: split at the last occurrence. *)
Fixpoint rsplit_once (sep t : str) : option (str * str) :=
  match t with
  | [] => None
  | c :: t' =>
      match rsplit_once sep t' with
      | Some (a, b) => Some (c :: a, b)
      | None =>
          if startswith t sep then Some ([], skipn (List.length sep) t) else None
      end
  end.

(** [t.split(sep)] for a non-empty separator: [skip] counts the characters
    of a separator occurrence still to be passed over, [cur] is the current
    field in reverse. *)
Fixpoint split_go (sep : str) (skip : nat) (cur t : str) : list str :=
  match t with
  | [] => [rev cur]
  | c :: t' =>
      match skip with
      | S k => split_go sep k cur t'
      | O =>
          if startswith t sep
          then rev cur :: split_go sep (pred (List.length sep)) [] t'
          else split_go sep O (c :: cur) t'
      end
  end.

Definition split (sep t : str) : list str := split_go sep O [] t.

(** [t.replace(old, new)] for a non-empty [old]: the non-overlapping
    occurrences, leftmost first. *)
Fixpoint replace_go (old new : str) (skip : nat) (t : str) : str :=
  match t with
  | [] => []
  | c :: t' =>
      match skip with
      | S k => replace_go old new k t'
      | O =>
          if startswith t old
          then new ++ replace_go old new (pred (List.length old)) t'
          else c :: replace_go old new O t'
      end
  end.

Definition replace (old new t : str) : str := replace_go old new O t.

Fixpoint dropwhile (f : N -> bool) (t : str) : str :=
  match t with
  | [] => []
  | c :: t' => if f c then dropwhile f t' else t
  end.

(** [t.strip(chars)] with the membership test of [chars] given as [f]. *)
Definition strip_with (f : N -> bool) (t : str) : str :=
  rev (dropwhile f (rev (dropwhile f t))).

Definition mem (c : N) (chars : str) : bool := existsb (N.eqb c) chars.

Definition strip_chars (chars t : str) : str :=
  strip_with (fun c => mem c chars) t.

(** [str.isspace] on one code point: the characters [str.strip()] removes. *)
Definition isspace (c : N) : bool :=
  ((9 <=? c) && (c <=? 13)) || ((28 <=? c) && (c <=? 32)) ||
  (c =? 133) || (c =? 160) || (c =? 5760) ||
  ((8192 <=? c) && (c <=? 8202)) || (c =? 8232) || (c =? 8233) ||
  (c =? 8239) || (c =? 8287) || (c =? 12288).

(** [t.strip()] *)
Definition strip (t : str) : str := strip_with isspace t.

Definition is_ascii (t : str) : bool := forallb (fun c => c <? 128) t.

Definition is_upper_ascii (c : N) : bool := (65 <=? c) && (c <=? 90).
Definition is_lower_ascii (c : N) : bool := (97 <=? c) && (c <=? 122).
Definition is_digit_ascii (c : N) : bool := (48 <=? c) && (c <=? 57).

(** Decimal rendering of an integer, as [str(n)] and the f-string
    [f"{n}"] produce it. *)
Definition of_Z (z : Z) : str := lit (NilEmpty.string_of_int (Z.to_int z)).

End PyStr.

(* ------------------------------------------------------------------ *)
(** ** The parts of the Python runtime that are tables of the Unicode
    database or library code outside the repository.  The definitions
    below consult the tables for code points above the ASCII range only
    (and [rt_unquote_escaped] only for a text that holds a percent sign),
    so every evaluation of the detector and of the SS and SSR decoders on
    ASCII text without a percent sign is independent of them. *)

(** The attributes of the result of [urllib.parse.urlparse] that the
    decoders read.  Reading [port] raises [ValueError] for a port that is
    not a number in range: [pu_port] is [None] then. *)
Record ParsedUrl := {
  pu_fragment : PyStr.str;
  pu_query : PyStr.str;
  pu_hostname : option PyStr.str;
  pu_port : option (option Z);
  pu_username : option PyStr.str
}.

Record PyRuntime := {
  (** [str.isalnum] on one code point: the [\w] class of [re]. *)
  rt_isalnum : N -> bool;
  (** the simple lower-case mapping, which [re.IGNORECASE] applies. *)
  rt_tolower : N -> N;
  (** [str.lower] on a text that is not pure ASCII. *)
  rt_lower : PyStr.str -> PyStr.str;
  (** the decimal digit value of a code point, which [int] accepts. *)
  rt_decimal : N -> option N;
  (** [urllib.parse.unquote] on a text that holds a [%]. *)
  rt_unquote_escaped : PyStr.str -> PyStr.str;
  (** [urllib.parse.urlparse]; [None] is [ValueError]. *)
  rt_urlparse : PyStr.str -> option ParsedUrl;
  (** [urllib.parse.parse_qs]: every key comes with a non-empty list of
      values, given as its first value and the other ones. *)
  rt_parse_qs : PyStr.str -> list (PyStr.str * (PyStr.str * list PyStr.str))
}.

(** A runtime for the examples, which are ASCII texts given to the
    detector and to the SS and SSR decoders. *)
Definition ascii_runtime : PyRuntime :=
  {| rt_isalnum := fun _ => false;
     rt_tolower := fun c => c;
     rt_lower := fun t => t;
     rt_decimal := fun _ => None;
     rt_unquote_escaped := fun t => t;
     rt_urlparse := fun _ => None;
     rt_parse_qs := fun _ => [] |}.

(* ------------------------------------------------------------------ *)
(** ** Dictionaries and the values they hold *)

Module PyDict.

Import PyStr.

(** A [dict] with string keys, in insertion order. *)
Definition dict (V : Type) := list (str * V).

(** [d.get(k)] *)
Fixpoint get {V : Type} (k : str) (d : dict V) : option V :=
  match d with
  | [] => None
  | (k', v) :: d' => if eqb k k' then Some v else get k d'
  end.

(** [k in d] *)
Definition has {V : Type} (k : str) (d : dict V) : bool :=
  match get k d with Some _ => true | None => false end.

(** [d[k] = v]: an existing key keeps its position, a new key goes last. *)
Fixpoint set {V : Type} (k : str) (v : V) (d : dict V) : dict V :=
  match d with
  | [] => [(k, v)]
  | (k', v') :: d' =>
      if eqb k k' then (k', v) :: d' else (k', v') :: set k v d'
  end.

Definition keys {V : Type} (d : dict V) : list str := List.map fst d.

(** [list(d.values())] *)
Definition values {V : Type} (d : dict V) : list V := List.map snd d.

(** [d.get(k, default)] *)
Definition get_default {V : Type} (k : str) (default : V) (d : dict V) : V :=
  match get k d with Some v => v | None => default end.

(** The values of a parsed proxy configuration. *)
Inductive Value : Type :=
| VNone
| VBool (b : bool)
| VInt (z : Z)
| VStr (s : str)
| VList (l : list Value)
| VDict (d : list (str * Value)).

(** An optional string as a value: [None] or the string. *)
Definition value_of_name (n : option str) : Value :=
  match n with Some s => VStr s | None => VNone end.

End PyDict.

(* ------------------------------------------------------------------ *)
(** ** [base64] and UTF-8 decoding of the standard library *)

Module Codec.

Import PyStr.
Local Open Scope N_scope.

(** [table_a2b_base64] of [binascii]: the value of a base64 digit. *)
Definition b64_value (c : N) : option N :=
  if is_upper_ascii c then Some (c - 65)
  else if is_lower_ascii c then Some (c - 97 + 26)
  else if is_digit_ascii c then Some (c - 48 + 52)
  else if c =? 43 then Some 62
  else if c =? 47 then Some 63
  else None.

(** The loop of [binascii.a2b_base64] without strict mode.  [quad] is the
    position in the current group of four digits, [leftchar] the bits not
    yet written, [pads] the padding characters seen since the last digit,
    [acc] the output in reverse.  A character outside the alphabet is
    skipped; a complete padding sequence ends the decoding and whatever
    follows is ignored; input that ends inside a group is an error. *)
Fixpoint a2b_loop (quad leftchar pads : N) (acc : bytes) (data : bytes)
  : option bytes :=
  match data with
  | [] => if quad =? 0 then Some (rev acc) else None
  | c :: rest =>
      if c =? 61 then
        if (2 <=? quad) && (4 <=? quad + (pads + 1)) then Some (rev acc)
        else a2b_loop quad leftchar
                      (if 2 <=? quad then pads + 1 else pads) acc rest
      else
        match b64_value c with
        | None => a2b_loop quad leftchar pads acc rest
        | Some v =>
            if quad =? 0 then a2b_loop 1 v 0 acc rest
            else if quad =? 1 then
              a2b_loop 2 (N.land v 15) 0
                       (N.lor (N.shiftl leftchar 2) (N.shiftr v 4) :: acc) rest
            else if quad =? 2 then
              a2b_loop 3 (N.land v 3) 0
                       (N.lor (N.shiftl leftchar 4) (N.shiftr v 2) :: acc) rest
            else
              a2b_loop 0 0 0 (N.lor (N.shiftl leftchar 6) v :: acc) rest
        end
  end.

Definition a2b_base64 (data : bytes) : option bytes := a2b_loop 0 0 0 [] data.

(** [base64.b64decode(s)] on a [str]: a character outside ASCII raises
    [ValueError], a malformed input raises [binascii.Error]. *)
Definition b64decode (s : str) : option bytes :=
  if is_ascii s then a2b_base64 s else None.

(** [base64.urlsafe_b64decode(s)]: [-] and [_] stand for [+] and [/]. *)
Definition urlsafe_translate (c : N) : N :=
  if c =? 45 then 43 else if c =? 95 then 47 else c.

Definition urlsafe_b64decode (s : str) : option bytes :=
  if is_ascii s then a2b_base64 (List.map urlsafe_translate s) else None.

Definition is_cont (b : N) : bool := (128 <=? b) && (b <=? 191).

(** [b.decode('utf-8')], strict: [None] is [UnicodeDecodeError].  Overlong
    forms, surrogates and code points above U+10FFFF are rejected. *)
Fixpoint utf8_decode (b : bytes) : option str :=
  match b with
  | [] => Some []
  | b0 :: r0 =>
      if b0 <? 128 then option_map (cons b0) (utf8_decode r0)
      else if (194 <=? b0) && (b0 <=? 223) then
        match r0 with
        | b1 :: r1 =>
            if is_cont b1
            then option_map (cons ((b0 - 192) * 64 + (b1 - 128)))
                            (utf8_decode r1)
            else None
        | _ => None
        end
      else if (224 <=? b0) && (b0 <=? 239) then
        match r0 with
        | b1 :: b2 :: r2 =>
            if is_cont b1 && is_cont b2 &&
               (if b0 =? 224 then 160 <=? b1
                else if b0 =? 237 then b1 <=? 159 else true)
            then option_map
                   (cons ((b0 - 224) * 4096 + (b1 - 128) * 64 + (b2 - 128)))
                   (utf8_decode r2)
            else None
        | _ => None
        end
      else if (240 <=? b0) && (b0 <=? 244) then
        match r0 with
        | b1 :: b2 :: b3 :: r3 =>
            if is_cont b1 && is_cont b2 && is_cont b3 &&
               (if b0 =? 240 then 144 <=? b1
                else if b0 =? 244 then b1 <=? 143 else true)
            then option_map
                   (cons ((b0 - 240) * 262144 + (b1 - 128) * 4096
                          + (b2 - 128) * 64 + (b3 - 128)))
                   (utf8_decode r3)
            else None
        | _ => None
        end
      else None
  end.

(** [decode(x).decode('utf-8')] for a decoder [decode]. *)
Definition decode_text (decoded : option bytes) : option str :=
  match decoded with
  | Some b => utf8_decode b
  | None => None
  end.

End Codec.

(* ------------------------------------------------------------------ *)
(** ** [MultiProtocolParser]

    [print] and [logger] calls are not modelled, except for what their
    arguments raise: they change no value the functions return. *)

Module Parser.

Import PyStr PyDict Codec.

(** [ProtocolType] *)
Inductive ProtocolType : Type :=
| SS | SSR | VMESS | TROJAN | VLESS | HY2 | YAML | UNKNOWN.

Definition protocol_eqb (a b : ProtocolType) : bool :=
  match a, b with
  | SS, SS | SSR, SSR | VMESS, VMESS | TROJAN, TROJAN
  | VLESS, VLESS | HY2, HY2 | YAML, YAML | UNKNOWN, UNKNOWN => true
  | _, _ => false
  end.

(** [protocol.value] *)
Definition protocol_value (p : ProtocolType) : str :=
  match p with
  | SS => lit "ss" | SSR => lit "ssr" | VMESS => lit "vmess"
  | TROJAN => lit "trojan" | VLESS => lit "vless" | HY2 => lit "hy2"
  | YAML => lit "yaml" | UNKNOWN => lit "unknown"
  end.

(** The default node names: ["SS节点"], ["SSR节点"], ["VLESS节点"],
    ["Trojan节点"] and ["Hysteria2节点"]. *)
Definition default_ss_name : str := lit "SS" ++ [33410%N; 28857%N].
Definition default_ssr_name : str := lit "SSR" ++ [33410%N; 28857%N].
Definition default_vless_name : str := lit "VLESS" ++ [33410%N; 28857%N].
Definition default_trojan_name : str := lit "Trojan" ++ [33410%N; 28857%N].
Definition default_hy2_name : str := lit "Hysteria2" ++ [33410%N; 28857%N].

(** *** [_clean_vip_chars] *)

Definition vip_patterns : list str :=
  [lit "VIP"; lit "vip"; lit "Vip"; lit "ViP";
   lit "vIp"; lit "viP"; lit "vIP"; lit "VIp"].

(** The loop over [vip_patterns]: each pattern is deleted in turn from the
    result of the previous deletions. *)
Definition remove_vip_patterns (name : str) : str :=
  fold_left (fun cleaned pattern => replace pattern [] cleaned)
            vip_patterns name.

Definition _clean_vip_chars (name : str) : str :=
  if negb (nonempty name) then name
  else
    let cleaned_name := remove_vip_patterns name in
    let cleaned_name := strip_chars (lit " -_|") cleaned_name in
    if nonempty cleaned_name then cleaned_name else name.

Section WithRuntime.

Variable rt : PyRuntime.

Local Open Scope N_scope.

Definition ascii_tolower (c : N) : N :=
  if is_upper_ascii c then c + 32 else c.

(** [t.lower()] *)
Definition lower (t : str) : str :=
  if is_ascii t then List.map ascii_tolower t else rt_lower rt t.

(** [urllib.parse.unquote(t, encoding='utf-8')]: a text without [%] is
    returned as it is. *)
Definition unquote (t : str) : str :=
  if contains (lit "%") t then rt_unquote_escaped rt t else t.

(** *** [int(text)] for a [str]

    Characters outside ASCII are first mapped to a space (white space) or
    to an ASCII digit (decimal digits); any other one makes [int] fail. *)
Definition int_transform_char (c : N) : option N :=
  if c <? 128 then Some c
  else if isspace c then Some 32
  else option_map (N.add 48) (rt_decimal rt c).

Fixpoint int_transform (t : str) : option str :=
  match t with
  | [] => Some []
  | c :: t' =>
      match int_transform_char c, int_transform t' with
      | Some a, Some r => Some (a :: r)
      | _, _ => None
      end
  end.

Definition int_space (c : N) : bool := (c =? 32) || ((9 <=? c) && (c <=? 13)).

(** The digits of a literal, single underscores allowed between digits:
    the value read, the number of digits and the rest of the text. *)
Fixpoint int_digits (acc : N) (n : nat) (t : str) : option (N * nat * str) :=
  match t with
  | [] => Some (acc, n, [])
  | c :: t' =>
      if is_digit_ascii c then int_digits (acc * 10 + (c - 48)) (S n) t'
      else if c =? 95 then
        match t' with
        | d :: _ => if is_digit_ascii d then int_digits acc n t' else None
        | [] => None
        end
      else Some (acc, n, t)
  end.

(** [sys.get_int_max_str_digits()] by default. *)
Definition int_max_str_digits : nat := 4300.

(** [int(t)]; [None] is [ValueError]. *)
Definition int (t : str) : option Z :=
  match int_transform t with
  | None => None
  | Some a =>
      let a := dropwhile int_space a in
      let '(negative, a) :=
        match a with
        | 43 :: r => (false, r)
        | 45 :: r => (true, r)
        | _ => (false, a)
        end in
      match a with
      | c :: _ =>
          if is_digit_ascii c then
            match int_digits 0 O a with
            | Some (v, n, rest) =>
                if Nat.leb n int_max_str_digits then
                  match dropwhile int_space rest with
                  | [] => Some (if negative then (- Z.of_N v)%Z else Z.of_N v)
                  | _ :: _ => None
                  end
                else None
            | None => None
            end
          else None
      | [] => None
      end
  end.

(** *** [try_base64_decode] *)

Definition protocol_patterns : list str :=
  [lit "ss://"; lit "ssr://"; lit "vmess://"; lit "vless://";
   lit "trojan://"; lit "hy2://"; lit "hysteria2://"; lit "proxies:"].

Definition contains_protocol_identifier (decoded_str : str) : bool :=
  existsb (fun proto => contains proto (lower decoded_str)) protocol_patterns.

(** The four decoding methods, in the order of the source. *)
Definition decode_methods : list (str -> option bytes) :=
  [ (fun data => b64decode data);
    (fun data => urlsafe_b64decode (data ++ lit "=="));
    (fun data => b64decode (data ++ lit "=="));
    (fun data => b64decode (replace [13] [] (replace [10] [] data))) ].

(** One turn of the loop: the decoded text when the method and the UTF-8
    decoding both succeed. *)
Definition decode_attempt (decode_method : str -> option bytes)
  (original_content : str) : option str :=
  decode_text (decode_method original_content).

Fixpoint try_decode_methods (methods : list (str -> option bytes))
  (original_content : str) : str :=
  match methods with
  | [] => original_content
  | decode_method :: methods' =>
      match decode_attempt decode_method original_content with
      | Some decoded_str =>
          if contains_protocol_identifier decoded_str
          then strip decoded_str
          else try_decode_methods methods' original_content
      | None => try_decode_methods methods' original_content
      end
  end.

Definition try_base64_decode (content : str) : str :=
  let original_content := strip content in
  try_decode_methods decode_methods original_content.

(** No turn of the loop accepts its decoded text. *)
Definition no_attempt_qualifies (original_content : str) : Prop :=
  forall decode_method decoded_str,
    In decode_method decode_methods ->
    decode_attempt decode_method original_content = Some decoded_str ->
    contains_protocol_identifier decoded_str = false.

(** *** [detect_protocol] *)

(** The class [\w] of a Unicode pattern. *)
Definition is_word (c : N) : bool :=
  (c =? 95) ||
  (if c <? 128
   then is_upper_ascii c || is_lower_ascii c || is_digit_ascii c
   else rt_isalnum rt c).

Definition re_tolower (c : N) : N :=
  if c <? 128 then ascii_tolower c else rt_tolower rt c.

(** A literal [p] of a pattern compiled with [re.IGNORECASE] against the
    character [c].  A lower-case letter matches every character whose
    lower-case form it is; [s] and [i] also match the long s (U+017F) and
    the dotless i (U+0131). *)
Definition match_char_ignorecase (p c : N) : bool :=
  if is_lower_ascii p then
    let l := re_tolower c in
    (l =? p) || ((p =? 115) && (l =? 383)) || ((p =? 105) && (l =? 305))
  else c =? p.

Fixpoint match_literal_ignorecase (p t : str) : bool :=
  match p, t with
  | [], _ => true
  | x :: p', y :: t' => match_char_ignorecase x y && match_literal_ignorecase p' t'
  | _ :: _, [] => false
  end.

(** The length of the first alternative that matches at the start of [t]. *)
Fixpoint match_alternatives (alts : list str) (t : str) : option nat :=
  match alts with
  | [] => None
  | p :: alts' =>
      if match_literal_ignorecase p t then Some (List.length p)
      else match_alternatives alts' t
  end.

(** [len([m for m in re.finditer(r'\b(?:a1|a2|...)', t, re.IGNORECASE)])]:
    the matches are searched from left to right and do not overlap.
    [prev] is the character before the current position, [skip] the number
    of characters of the last match still to be passed over. *)
Fixpoint count_matches (alts : list str) (prev : option N) (skip : nat)
  (t : str) : Z :=
  match t with
  | [] => 0%Z
  | c :: t' =>
      match skip with
      | S k => count_matches alts (Some c) k t'
      | O =>
          let before := match prev with Some b => is_word b | None => false end in
          if negb (Bool.eqb before (is_word c)) then
            match match_alternatives alts t with
            | Some n => (1 + count_matches alts (Some c) (pred n) t')%Z
            | None => count_matches alts (Some c) O t'
            end
          else count_matches alts (Some c) O t'
      end
  end.

Definition count_scheme (alts : list str) (t : str) : Z :=
  count_matches alts None O t.

(** The dictionary [protocol_counts], in the order of the source. *)
Definition protocol_counts (content_to_check : str) : list (ProtocolType * Z) :=
  [ (VLESS, count_scheme [lit "vless://"] content_to_check);
    (VMESS, count_scheme [lit "vmess://"] content_to_check);
    (TROJAN, count_scheme [lit "trojan://"] content_to_check);
    (SSR, count_scheme [lit "ssr://"] content_to_check);
    (SS, (count_scheme [lit "ss://"] content_to_check
          - count_scheme [lit "vless://"; lit "vmess://"; lit "ssr://"]
                         content_to_check)%Z);
    (HY2, count_scheme [lit "hy2://"; lit "hysteria2://"] content_to_check) ].

(** [protocol_counts.get(protocol, 0)] *)
Fixpoint counts_get (counts : list (ProtocolType * Z)) (p : ProtocolType) : Z :=
  match counts with
  | [] => 0%Z
  | (q, n) :: counts' => if protocol_eqb p q then n else counts_get counts' p
  end.

(** [max(protocol_counts.values())] for the non-empty dictionary. *)
Definition max_count (counts : list (ProtocolType * Z)) : Z :=
  match counts with
  | [] => 0%Z
  | (_, n) :: counts' => fold_left (fun m qn => Z.max m (snd qn)) counts' n
  end.

Definition priority_order : list ProtocolType :=
  [VLESS; VMESS; TROJAN; SSR; SS; HY2].

(** The loop over [priority_order]: the first protocol whose count is
    positive is returned. *)
Fixpoint first_positive (counts : list (ProtocolType * Z))
  (order : list ProtocolType) : option ProtocolType :=
  match order with
  | [] => None
  | protocol :: order' =>
      if (0 <? counts_get counts protocol)%Z then Some protocol
      else first_positive counts order'
  end.

(** The test of the YAML branch. *)
Definition looks_like_yaml (content_to_check : str) : bool :=
  contains (lit "proxies:") content_to_check ||
  (startswith content_to_check (lit "-") &&
   contains (lit "server:") content_to_check) ||
  (contains (lit "name:") content_to_check &&
   contains (lit "server:") content_to_check &&
   contains (lit "port:") content_to_check).

(** The part of [detect_protocol] after the prefix and YAML tests. *)
Definition frequency_scan (content_to_check : str) : ProtocolType :=
  let counts := protocol_counts content_to_check in
  if (0 <? max_count counts)%Z then
    match first_positive counts priority_order with
    | Some protocol => protocol
    | None => UNKNOWN
    end
  else UNKNOWN.

(** The prefix test of [detect_protocol]. *)
Definition prefix_match (content_to_check : str) : option ProtocolType :=
  if startswith content_to_check (lit "vless://") then Some VLESS
  else if startswith content_to_check (lit "vmess://") then Some VMESS
  else if startswith content_to_check (lit "trojan://") then Some TROJAN
  else if startswith content_to_check (lit "hy2://")
          || startswith content_to_check (lit "hysteria2://") then Some HY2
  else if startswith content_to_check (lit "ssr://") then Some SSR
  else if startswith content_to_check (lit "ss://") then Some SS
  else None.

(** The classification of the decoded and trimmed text. *)
Definition classify (content_to_check : str) : ProtocolType :=
  match prefix_match content_to_check with
  | Some protocol => protocol
  | None =>
      if looks_like_yaml content_to_check then YAML
      else frequency_scan content_to_check
  end.

Definition detect_protocol (content : str) : ProtocolType :=
  let decoded_content := try_base64_decode content in
  let content_to_check := strip decoded_content in
  classify content_to_check.

(** The text reaches the frequency scan of [detect_protocol]. *)
Definition reaches_frequency_scan (content : str) : bool :=
  let content_to_check := strip (try_base64_decode content) in
  match prefix_match content_to_check with
  | Some _ => false
  | None => negb (looks_like_yaml content_to_check)
  end.

End WithRuntime.

Section Decoders.

Variable rt : PyRuntime.

(** The two nested [try] blocks of the decoders: the first decoding whose
    UTF-8 text exists, [None] when both raise. *)
Definition decode_first (first second : str -> option bytes) (body : str)
  : option str :=
  match decode_text (first body) with
  | Some decoded => Some decoded
  | None => decode_text (second body)
  end.

(** *** [parse_ss_url] *)
Definition parse_ss_url (ss_url : str) : option (dict Value) :=
  if negb (startswith ss_url (lit "ss://")) then None
  else
    let ss_content := skipn 5 ss_url in
    let '(ss_content, name) :=
      match split_once (lit "#") ss_content with
      | Some (body, fragment) => (body, _clean_vip_chars (unquote rt fragment))
      | None => (ss_content, default_ss_name)
      end in
    match decode_first b64decode urlsafe_b64decode (ss_content ++ lit "==") with
    | None => None
    | Some decoded =>
        match split_once (lit "@") decoded with
        | None => None
        | Some (method_password, server_port) =>
            match split_once (lit ":") method_password with
            | None => None
            | Some (method, password) =>
                match rsplit_once (lit ":") server_port with
                | None => None
                | Some (server, port_str) =>
                    match int rt port_str with
                    | None => None
                    | Some port =>
                        Some [ (lit "name", VStr name);
                               (lit "type", VStr (lit "ss"));
                               (lit "server", VStr server);
                               (lit "port", VInt port);
                               (lit "cipher", VStr method);
                               (lit "password", VStr password) ]
                    end
                end
            end
        end
    end.

(** *** [parse_ssr_url] *)

(** The loop over [param_pairs]: a pair without [=] is skipped, a value
    that does not decode is kept as it is. *)
Definition ssr_params (params_part : str) : dict str :=
  if nonempty params_part then
    fold_left
      (fun params pair =>
         match split_once (lit "=") pair with
         | Some (key, value) =>
             match decode_text (urlsafe_b64decode (value ++ lit "==")) with
             | Some decoded_value => set key decoded_value params
             | None => set key value params
             end
         | None => params
         end)
      (split (lit "&") params_part) []
  else [].

Definition parse_ssr_url (ssr_url : str) : option (dict Value) :=
  if negb (startswith ssr_url (lit "ssr://")) then None
  else
    let ssr_content := skipn 6 ssr_url in
    match decode_first urlsafe_b64decode b64decode (ssr_content ++ lit "==") with
    | None => None
    | Some decoded =>
        let '(main_part, params_part) :=
          match split_once (lit "/?") decoded with
          | Some (main_part, params_part) => (main_part, params_part)
          | None => (decoded, [])
          end in
        match split (lit ":") main_part with
        | server :: port_str :: protocol :: method :: obfs
            :: password_base64 :: _ =>
            match int rt port_str with
            | None => None
            | Some port =>
                match decode_text
                        (urlsafe_b64decode (password_base64 ++ lit "==")) with
                | None => None
                | Some password =>
                    let params := ssr_params params_part in
                    Some [ (lit "name",
                            VStr (_clean_vip_chars
                                    (get_default (lit "remarks")
                                                 default_ssr_name params)));
                           (lit "type", VStr (lit "ssr"));
                           (lit "server", VStr server);
                           (lit "port", VInt port);
                           (lit "cipher", VStr method);
                           (lit "password", VStr password);
                           (lit "protocol", VStr protocol);
                           (lit "obfs", VStr obfs);
                           (lit "protocol-param",
                            VStr (get_default (lit "protoparam") [] params));
                           (lit "obfs-param",
                            VStr (get_default (lit "obfsparam") [] params));
                           (lit "group",
                            VStr (get_default (lit "group") [] params)) ]
                end
            end
        | _ => None
        end
    end.

(** *** [parse_vless_url] *)

(** The parameters of a query: [params[k][0]] and
    [params.get(k, [default])[0]]. *)
Definition qs := dict (str * list str).

Definition qs_first (k : str) (params : qs) : option str :=
  option_map fst (get k params).

Definition qs_first_default (k default : str) (params : qs) : str :=
  match get k params with Some (v, _) => v | None => default end.

Definition value_is_str (v : option Value) (s : str) : bool :=
  match v with Some (VStr x) => eqb x s | _ => false end.

Definition value_is_true (v : option Value) : bool :=
  match v with Some (VBool b) => b | _ => false end.

(** [_parse_vless_standard]: [uuid@server:port]. *)
Definition _parse_vless_standard (auth_server_port : str)
  : option (str * Z * str) :=
  match split_once (lit "@") auth_server_port with
  | None => None
  | Some (uuid_part, server_port) =>
      let final_uuid :=
        match split_once (lit ":") uuid_part with
        | Some (_, rest) => rest
        | None => uuid_part
        end in
      let server_and_port :=
        if startswith server_port (lit "[") && contains (lit "]:") server_port
        then
          match rsplit_once (lit "]:") server_port with
          | Some (server, port_str) => Some (skipn 1 server, port_str)
          | None => None
          end
        else rsplit_once (lit ":") server_port in
      match server_and_port with
      | None => None
      | Some (server, port_str) =>
          match int rt port_str with
          | Some port => Some (server, port, final_uuid)
          | None => None
          end
      end
  end.

Definition vless_decode_methods : list (str -> option str) :=
  [ (fun x => decode_text (b64decode x));
    (fun x => decode_text (b64decode (x ++ lit "=")));
    (fun x => decode_text (b64decode (x ++ lit "==")));
    (fun x => decode_text (urlsafe_b64decode x));
    (fun x => decode_text (urlsafe_b64decode (x ++ lit "=")));
    (fun x => decode_text (urlsafe_b64decode (x ++ lit "=="))) ].

(** The loop over the decoding methods: it stops at the first decoded
    text with an [@]; [decoded] is the last text decoded so far. *)
Fixpoint vless_try_decode (methods : list (str -> option str)) (x : str)
  (decoded : option str) : option str :=
  match methods with
  | [] => decoded
  | method :: methods' =>
      match method x with
      | Some d =>
          if contains (lit "@") d then Some d
          else vless_try_decode methods' x (Some d)
      | None => vless_try_decode methods' x decoded
      end
  end.

(** [_parse_vless_base64] *)
Definition _parse_vless_base64 (auth_server_port : str)
  : option (str * Z * str) :=
  if negb (nonempty auth_server_port) || contains (lit "@") auth_server_port
  then None
  else
    match vless_try_decode vless_decode_methods auth_server_port None with
    | Some decoded =>
        if negb (nonempty decoded) || negb (contains (lit "@") decoded)
        then None
        else _parse_vless_standard decoded
    | None => None
    end.

(** [_process_vless_params]: the assignments to [result], in the order
    of the source. *)
Definition _process_vless_params (result : dict Value) (params : qs)
  : dict Value :=
  let tls_enabled :=
    match qs_first (lit "security") params with
    | Some v => eqb v (lit "tls") || eqb v (lit "xtls")
    | None =>
        match qs_first (lit "tls") params with
        | Some v => eqb v (lit "1")
        | None => false
        end
    end in
  let result := set (lit "tls") (VBool tls_enabled) result in
  let result :=
    match qs_first (lit "type") params with
    | Some v => set (lit "network") (VStr v) result
    | None => result
    end in
  let network :=
    match get (lit "network") result with
    | Some v => Some v
    | None => Some (VStr (lit "tcp"))
    end in
  let result :=
    if value_is_str network (lit "ws")
       || eqb (qs_first_default (lit "obfs") [] params) (lit "websocket")
    then
      let result := set (lit "network") (VStr (lit "ws")) result in
      let path := (lit "path", VStr (qs_first_default (lit "path") (lit "/") params)) in
      let host :=
        match qs_first (lit "host") params with
        | Some v => Some v
        | None => qs_first (lit "obfsParam") params
        end in
      match host with
      | Some h =>
          if nonempty h
          then set (lit "ws-opts")
                   (VDict [path; (lit "headers", VDict [(lit "Host", VStr h)])])
                   result
          else set (lit "ws-opts") (VDict [path]) result
      | None => set (lit "ws-opts") (VDict [path]) result
      end
    else if value_is_str network (lit "grpc") then
      set (lit "grpc-opts")
          (VDict [(lit "grpc-service-name",
                   VStr (qs_first_default (lit "serviceName") [] params))])
          result
    else result in
  let result :=
    if value_is_true (get (lit "tls") result) then
      let sni :=
        match qs_first (lit "sni") params with
        | Some v => VStr v
        | None =>
            match qs_first (lit "peer") params with
            | Some v => VStr v
            | None => match get (lit "server") result with
                      | Some v => v
                      | None => VNone
                      end
            end
        end in
      let result := set (lit "sni") sni result in
      let result :=
        set (lit "skip-cert-verify")
            (VBool (eqb (qs_first_default (lit "allowInsecure") (lit "0") params)
                        (lit "1")))
            result in
      match qs_first (lit "alpn") params with
      | Some v => set (lit "alpn") (VList (List.map VStr (split (lit ",") v))) result
      | None => result
      end
    else result in
  let result :=
    match qs_first (lit "flow") params with
    | Some v => set (lit "flow") (VStr v) result
    | None => result
    end in
  match qs_first (lit "encryption") params with
  | Some v => set (lit "cipher") (VStr v) result
  | None => result
  end.

(** The [remark] parameter that replaces the name: present, not empty,
    and not empty once unquoted. *)
Definition vless_remark (params : qs) : option str :=
  match qs_first (lit "remark") params with
  | Some v =>
      if nonempty v && nonempty (unquote rt v) then Some (unquote rt v)
      else None
  | None => None
  end.

Definition parse_vless_url (vless_url : str) : option (dict Value) :=
  if negb (startswith vless_url (lit "vless://")) then None
  else
    let vless_content := skipn 8 vless_url in
    let '(vless_content, name) :=
      match split_once (lit "#") vless_content with
      | Some (body, fragment) => (body, _clean_vip_chars (unquote rt fragment))
      | None => (vless_content, default_vless_name)
      end in
    let '(auth_server_port, params) :=
      match split_once (lit "?") vless_content with
      | Some (auth, query_string) => (auth, rt_parse_qs rt query_string)
      | None => (vless_content, [])
      end in
    let parsed_result :=
      if contains (lit "@") auth_server_port
      then _parse_vless_standard auth_server_port
      else None in
    let parsed_result :=
      match parsed_result with
      | Some r => Some r
      | None => _parse_vless_base64 auth_server_port
      end in
    match parsed_result with
    | None => None
    | Some (server, port, uuid) =>
        let result :=
          [ (lit "name", VStr name);
            (lit "type", VStr (lit "vless"));
            (lit "server", VStr server);
            (lit "port", VInt port);
            (lit "uuid", VStr uuid);
            (lit "cipher", VStr (lit "none"));
            (lit "tls", VBool false);
            (lit "network", VStr (lit "tcp")) ] in
        let result := _process_vless_params result params in
        match vless_remark params with
        | Some decoded_remark =>
            Some (set (lit "name") (VStr (_clean_vip_chars decoded_remark)) result)
        | None => Some result
        end
    end.

(** *** [parse_trojan_url] and [parse_hy2_url] *)

(** The name both decoders take from the parsed link. *)
Definition name_from_fragment (parsed_url : ParsedUrl) (default : str) : str :=
  _clean_vip_chars
    (if nonempty (pu_fragment parsed_url)
     then unquote rt (pu_fragment parsed_url)
     else default).

(** [all([hostname, port, username])]: the three are there and neither
    empty nor zero. *)
Definition required_parts (parsed_url : ParsedUrl) (port : option Z)
  : option (str * Z * str) :=
  match pu_hostname parsed_url, port, pu_username parsed_url with
  | Some hostname, Some port, Some username =>
      if nonempty hostname && negb (Z.eqb port 0) && nonempty username
      then Some (hostname, port, username)
      else None
  | _, _, _ => None
  end.

Definition parse_trojan_url (trojan_url : str) : option (dict Value) :=
  if negb (startswith trojan_url (lit "trojan://")) then None
  else
    match rt_urlparse rt trojan_url with
    | None => None
    | Some parsed_url =>
        match pu_port parsed_url with
        | None => None
        | Some port =>
            let name := name_from_fragment parsed_url default_trojan_name in
            let params := rt_parse_qs rt (pu_query parsed_url) in
            match required_parts parsed_url port with
            | None => None
            | Some (hostname, port, username) =>
                let result :=
                  [ (lit "name", VStr name);
                    (lit "type", VStr (lit "trojan"));
                    (lit "server", VStr hostname);
                    (lit "port", VInt port);
                    (lit "password", VStr username);
                    (lit "sni", VStr (qs_first_default (lit "sni") hostname params));
                    (lit "skip-cert-verify",
                     VBool (eqb (qs_first_default (lit "allowInsecure") (lit "0")
                                                  params) (lit "1"))) ] in
                let transport_type := qs_first_default (lit "type") [] params in
                if eqb transport_type (lit "ws") then
                  Some (set (lit "ws-opts")
                          (VDict [ (lit "path",
                                    VStr (qs_first_default (lit "path") (lit "/")
                                                           params));
                                   (lit "headers",
                                    VDict [(lit "Host",
                                            VStr (qs_first_default (lit "host")
                                                    hostname params))]) ])
                          (set (lit "network") (VStr (lit "ws")) result))
                else if eqb transport_type (lit "grpc") then
                  Some (set (lit "grpc-opts")
                          (VDict [ (lit "grpc-service-name",
                                    VStr (qs_first_default (lit "serviceName") []
                                                           params)) ])
                          (set (lit "network") (VStr (lit "grpc")) result))
                else Some result
            end
        end
    end.

Definition parse_hy2_url (hy2_url : str) : option (dict Value) :=
  let scheme :=
    if startswith hy2_url (lit "hysteria2://")
    then lit "hysteria2://" else lit "hy2://" in
  if negb (startswith hy2_url scheme) then None
  else
    match rt_urlparse rt hy2_url with
    | None => None
    | Some parsed_url =>
        match pu_port parsed_url with
        | None => None
        | Some port =>
            let name := name_from_fragment parsed_url default_hy2_name in
            let params := rt_parse_qs rt (pu_query parsed_url) in
            match required_parts parsed_url port with
            | None => None
            | Some (hostname, port, username) =>
                let result :=
                  [ (lit "name", VStr name);
                    (lit "type", VStr (lit "hysteria2"));
                    (lit "server", VStr hostname);
                    (lit "port", VInt port);
                    (lit "password", VStr username);
                    (lit "sni", VStr (qs_first_default (lit "sni") hostname params));
                    (lit "skip-cert-verify",
                     VBool (eqb (qs_first_default (lit "insecure") (lit "0")
                                                  params) (lit "1"))) ] in
                match qs_first (lit "obfs") params with
                | Some obfs =>
                    let result := set (lit "obfs") (VStr obfs) result in
                    match qs_first (lit "obfs-password") params with
                    | Some pw => Some (set (lit "obfs-password") (VStr pw) result)
                    | None => Some result
                    end
                | None => Some result
                end
            end
        end
    end.

(** The text after the first [#] of a link, when there is one: its
    fragment. *)
Definition fragment_of (url : str) : option str :=
  option_map snd (split_once (lit "#") url).




End Decoders.

End Parser.

(* ------------------------------------------------------------------ *)
(** ** [parse_vmess_url]

    The body of a VMess link is the base64 form of a JSON object.  The
    parser of the library, [json.loads], is a parameter, and so are the
    two operations on floats the decoder may meet in what it returns. *)

Module VMess.

Import PyStr PyDict Codec Parser.

Section WithJson.

Variable rt : PyRuntime.

Variable Float : Type.
(** [bool(x)] for a float: it is not zero. *)
Variable float_truthy : Float -> bool.
(** [int(x)] for a float; [None] is the [ValueError] of a NaN or the
    [OverflowError] of an infinity. *)
Variable float_to_int : Float -> option Z.

(** The values [json.loads] returns. *)
Inductive Json : Type :=
| JNull
| JBool (b : bool)
| JInt (n : Z)
| JFloat (x : Float)
| JStr (s : str)
| JList (l : list Json)
| JDict (d : list (str * Json)).

(** [json.loads(text)]; [None] is the exception it raises. *)
Variable json_loads : str -> option Json.

(** [bool(v)] *)
Definition json_truthy (v : Json) : bool :=
  match v with
  | JNull => false
  | JBool b => b
  | JInt n => negb (Z.eqb n 0)
  | JFloat x => float_truthy x
  | JStr s => nonempty s
  | JList l => match l with [] => false | _ :: _ => true end
  | JDict d => match d with [] => false | _ :: _ => true end
  end.

(** [int(v)]; [None] is the exception it raises. *)
Definition json_int (v : Json) : option Z :=
  match v with
  | JBool b => Some (if b then 1%Z else 0%Z)
  | JInt n => Some n
  | JFloat x => float_to_int x
  | JStr s => int rt s
  | JNull | JList _ | JDict _ => None
  end.

(** [v == s] for a string [s] *)
Definition json_is_str (v : Json) (s : str) : bool :=
  match v with JStr x => eqb x s | _ => false end.

(** [_clean_vip_chars(v)] on a value of the configuration: a value that is
    not true is returned as it is; only a string has [replace], and
    [None] is the [AttributeError] of any other value. *)
Definition clean_vip_value (v : Json) : option Json :=
  if negb (json_truthy v) then Some v
  else match v with
       | JStr s => Some (JStr (_clean_vip_chars s))
       | _ => None
       end.

(** ["VMess节点"] *)
Definition default_vmess_name : str := lit "VMess" ++ [33410%N; 28857%N].

Definition parse_vmess_url (vmess_url : str) : option (dict Json) :=
  if negb (startswith vmess_url (lit "vmess://")) then None
  else
    let vmess_content := skipn 8 vmess_url in
    match decode_first b64decode urlsafe_b64decode (vmess_content ++ lit "==") with
    | None => None
    | Some decoded =>
        match json_loads decoded with
        | Some (JDict config_data) =>
            let server := get_default (lit "add") JNull config_data in
            let port := get_default (lit "port") JNull config_data in
            let uuid := get_default (lit "id") JNull config_data in
            if negb (json_truthy server && json_truthy port && json_truthy uuid)
            then None
            else
              match json_int port with
              | None => None
              | Some port =>
                  match clean_vip_value
                          (get_default (lit "ps") (JStr default_vmess_name)
                                       config_data) with
                  | None => None
                  | Some name =>
                      match json_int (get_default (lit "aid") (JInt 0)
                                                  config_data) with
                      | None => None
                      | Some alter_id =>
                          let result :=
                            [ (lit "name", name);
                              (lit "type", JStr (lit "vmess"));
                              (lit "server", server);
                              (lit "port", JInt port);
                              (lit "uuid", uuid);
                              (lit "alterId", JInt alter_id);
                              (lit "cipher",
                               get_default (lit "scy") (JStr (lit "auto"))
                                           config_data);
                              (lit "network",
                               get_default (lit "net") (JStr (lit "tcp"))
                                           config_data);
                              (lit "tls",
                               JBool (json_truthy
                                        (get_default (lit "tls") JNull
                                                     config_data))) ] in
                          let net := get_default (lit "net") JNull config_data in
                          if json_is_str net (lit "ws") then
                            Some (set (lit "ws-opts")
                                    (JDict
                                       [ (lit "path",
                                          get_default (lit "path") (JStr (lit "/"))
                                                      config_data);
                                         (lit "headers",
                                          JDict [(lit "Host",
                                                  get_default (lit "host") (JStr [])
                                                              config_data)]) ])
                                    result)
                          else if json_is_str net (lit "grpc") then
                            Some (set (lit "grpc-opts")
                                    (JDict
                                       [ (lit "grpc-service-name",
                                          get_default (lit "path") (JStr [])
                                                      config_data) ])
                                    result)
                          else if json_is_str net (lit "http") then
                            Some (set (lit "http-opts")
                                    (JDict
                                       [ (lit "method", JStr (lit "GET"));
                                         (lit "path",
                                          JList [get_default (lit "path")
                                                   (JStr (lit "/")) config_data]);
                                         (lit "headers",
                                          JDict [(lit "Host",
                                                  JList [get_default (lit "host")
                                                           server config_data])]) ])
                                    result)
                          else Some result
                      end
                  end
              end
        | _ => None
        end
    end.


End WithJson.

Arguments JNull {Float}.
Arguments JBool {Float} b.
Arguments JInt {Float} n.
Arguments JFloat {Float} x.
Arguments JStr {Float} s.
Arguments JList {Float} l.
Arguments JDict {Float} d.

End VMess.

(* ------------------------------------------------------------------ *)
(** ** [ProxySourceManager]

    The time stamps are floats.  Their type, the sum of a float and an
    integer (which raises [OverflowError] when the integer has no float)
    and the successive readings of [time.time()] are parameters.  Writing
    the configuration file ([_save_sources]) changes no field of the
    registry and is not modelled. *)

Module Registry.

Import PyStr PyDict Parser.

Section WithClock.

Variable Float : Type.
(** [t + n] for a float [t] and an integer [n]; [None] is [OverflowError]. *)
Variable float_add_int : Float -> Z -> option Float.
(** The successive readings of [time.time()]. *)
Variable clock : nat -> Float.

(** [ProxySource] *)
Record ProxySource := {
  name : str;
  url : str;
  enabled : bool;
  protocol_hint : option ProtocolType;
  success_count : Z;
  fail_count : Z;
  last_sync : option Float;
  last_proxy_count : Z;
  sync_interval_minutes : Z;
  next_sync_timestamp : option Float
}.

(** The manager: [self.sources] and the number of clock readings so far. *)
Record Manager := {
  sources : dict ProxySource;
  ticks : nat
}.

Inductive Outcome : Type := Returned | Raised.

Definition record_attempt (success : bool) (proxy_count : Z)
  (source : ProxySource) : ProxySource :=
  if success then
    {| name := name source; url := url source; enabled := enabled source;
       protocol_hint := protocol_hint source;
       success_count := success_count source + 1;
       fail_count := fail_count source;
       last_sync := last_sync source;
       last_proxy_count := proxy_count;
       sync_interval_minutes := sync_interval_minutes source;
       next_sync_timestamp := next_sync_timestamp source |}
  else
    {| name := name source; url := url source; enabled := enabled source;
       protocol_hint := protocol_hint source;
       success_count := success_count source;
       fail_count := fail_count source + 1;
       last_sync := last_sync source;
       last_proxy_count := last_proxy_count source;
       sync_interval_minutes := sync_interval_minutes source;
       next_sync_timestamp := next_sync_timestamp source |}.

Definition set_last_sync (t : Float) (source : ProxySource) : ProxySource :=
  {| name := name source; url := url source; enabled := enabled source;
     protocol_hint := protocol_hint source;
     success_count := success_count source;
     fail_count := fail_count source;
     last_sync := Some t;
     last_proxy_count := last_proxy_count source;
     sync_interval_minutes := sync_interval_minutes source;
     next_sync_timestamp := next_sync_timestamp source |}.

Definition set_next_sync_timestamp (t : Float) (source : ProxySource)
  : ProxySource :=
  {| name := name source; url := url source; enabled := enabled source;
     protocol_hint := protocol_hint source;
     success_count := success_count source;
     fail_count := fail_count source;
     last_sync := last_sync source;
     last_proxy_count := last_proxy_count source;
     sync_interval_minutes := sync_interval_minutes source;
     next_sync_timestamp := Some t |}.

(** [update_source_stats(name, success, proxy_count)].  The clock is read
    twice, once for [last_sync] and once for [next_sync_timestamp]. *)
Definition update_source_stats (m : Manager) (source_name : str)
  (success : bool) (proxy_count : Z) : Manager * Outcome :=
  match get source_name (sources m) with
  | None => (m, Returned)
  | Some source =>
      let source := record_attempt success proxy_count source in
      let source := set_last_sync (clock (ticks m)) source in
      match float_add_int (clock (S (ticks m)))
                          (sync_interval_minutes source * 60) with
      | Some t =>
          ({| sources := set source_name (set_next_sync_timestamp t source)
                             (sources m);
              ticks := S (S (ticks m)) |}, Returned)
      | None =>
          ({| sources := set source_name source (sources m);
              ticks := S (S (ticks m)) |}, Raised)
      end
  end.

End WithClock.

End Registry.

(* ------------------------------------------------------------------ *)
(** ** [ProxyMerger]

    [ProxyInfo] objects and their [data] dictionaries are mutated in
    place, so they live in a store and the lists hold references.  The
    answers of the country service are a parameter: [api n ip] is the
    answer to the [n]-th request, made for [ip]. *)

Module Merger.

Import PyStr PyDict Parser.

Definition ref := nat.

(** [ProxyInfo]; [data] refers to a dictionary of the store. *)
Record ProxyInfo := {
  ip : str;
  port : Z;
  country_code : option str;
  name : option str;
  data : option ref;
  protocol : option ProtocolType;
  source : option str
}.

(** [unique_key]: [f"{self.ip}:{self.port}"] *)
Definition unique_key (p : ProxyInfo) : str :=
  ip p ++ lit ":" ++ of_Z (port p).

(** Truth value of an optional string: neither [None] nor empty. *)
Definition truthy (o : option str) : bool :=
  match o with Some s => nonempty s | None => false end.

(** The answer of the country service: a successful one carries the
    [countryCode] field, which may be missing. *)
Inductive ApiResponse : Type :=
| ApiSuccess (country : option str)
| ApiFailure.

(** [RateLimitedCountryProvider]: its cache and the requests made. *)
Record Provider := {
  cache : dict (option str);
  requests : nat
}.

Record Store := {
  objs : ref -> ProxyInfo;
  dicts : ref -> dict Value;
  provider : Provider
}.

Definition set_ip (v : str) (p : ProxyInfo) : ProxyInfo :=
  {| ip := v; port := port p; country_code := country_code p;
     name := name p; data := data p; protocol := protocol p;
     source := source p |}.
Definition set_port (v : Z) (p : ProxyInfo) : ProxyInfo :=
  {| ip := ip p; port := v; country_code := country_code p;
     name := name p; data := data p; protocol := protocol p;
     source := source p |}.
Definition set_country_code (v : option str) (p : ProxyInfo) : ProxyInfo :=
  {| ip := ip p; port := port p; country_code := v;
     name := name p; data := data p; protocol := protocol p;
     source := source p |}.
Definition set_name (v : option str) (p : ProxyInfo) : ProxyInfo :=
  {| ip := ip p; port := port p; country_code := country_code p;
     name := v; data := data p; protocol := protocol p;
     source := source p |}.
Definition set_data (v : option ref) (p : ProxyInfo) : ProxyInfo :=
  {| ip := ip p; port := port p; country_code := country_code p;
     name := name p; data := v; protocol := protocol p;
     source := source p |}.
Definition set_protocol (v : option ProtocolType) (p : ProxyInfo) : ProxyInfo :=
  {| ip := ip p; port := port p; country_code := country_code p;
     name := name p; data := data p; protocol := v;
     source := source p |}.
Definition set_source (v : option str) (p : ProxyInfo) : ProxyInfo :=
  {| ip := ip p; port := port p; country_code := country_code p;
     name := name p; data := data p; protocol := protocol p;
     source := v |}.

(** An attribute assignment on the object [r]. *)
Definition upd_obj (r : ref) (f : ProxyInfo -> ProxyInfo) (s : Store) : Store :=
  {| objs := fun r' => if Nat.eqb r' r then f (objs s r) else objs s r';
     dicts := dicts s;
     provider := provider s |}.

(** An item assignment on the dictionary [d]. *)
Definition upd_dict (d : ref) (f : dict Value -> dict Value) (s : Store) : Store :=
  {| objs := objs s;
     dicts := fun d' => if Nat.eqb d' d then f (dicts s d) else dicts s d';
     provider := provider s |}.

Definition set_provider (pv : Provider) (s : Store) : Store :=
  {| objs := objs s; dicts := dicts s; provider := pv |}.

(** [stats] *)
Record Stats := {
  added : Z;
  updated : Z;
  total_new_incoming : Z;
  by_protocol : dict Z;
  by_source : dict Z
}.

(** The state of the loop of [merge_proxies]. *)
Record MergeState := {
  store : Store;
  merged_proxies_map : dict ref;
  stats : Stats
}.

(** [counter[k] = counter.get(k, 0) + 1] *)
Definition bump (k : str) (counter : dict Z) : dict Z :=
  set k (get_default k 0%Z counter + 1)%Z counter.

Section WithApi.

Variable api : nat -> str -> ApiResponse.

(** [get_country_code]: a cached address is answered from the cache; a
    successful request is cached; a failed one answers [None]. *)
Definition get_country_code (pv : Provider) (address : str)
  : option str * Provider :=
  match get address (cache pv) with
  | Some cached => (cached, pv)
  | None =>
      match api (requests pv) address with
      | ApiSuccess country_code =>
          (country_code,
           {| cache := set address country_code (cache pv);
              requests := S (requests pv) |})
      | ApiFailure =>
          (None, {| cache := cache pv; requests := S (requests pv) |})
      end
  end.

(** ["未知"] *)
Definition unknown_country : str := [26410%N; 30693%N].

(** [generate_name]: fills in the country code of the object when it has
    none, and returns the generated name. *)
Definition generate_name (s : Store) (proxy_info : ref) : str * Store :=
  let s :=
    if negb (truthy (country_code (objs s proxy_info))) then
      let '(code, pv) := get_country_code (provider s) (ip (objs s proxy_info)) in
      upd_obj proxy_info (set_country_code code) (set_provider pv s)
    else s in
  let country :=
    if truthy (country_code (objs s proxy_info))
    then match country_code (objs s proxy_info) with Some c => c | None => [] end
    else unknown_country in
  (country ++ lit "|" ++ unique_key (objs s proxy_info), s).

(** The counters of the incoming protocols and sources. *)
Definition count_incoming (p : ProxyInfo) (st : Stats) : Stats :=
  let by_protocol' :=
    match protocol p with
    | Some proto => bump (protocol_value proto) (by_protocol st)
    | None => by_protocol st
    end in
  let by_source' :=
    match source p with
    | Some src => if nonempty src then bump src (by_source st) else by_source st
    | None => by_source st
    end in
  {| added := added st; updated := updated st;
     total_new_incoming := total_new_incoming st;
     by_protocol := by_protocol'; by_source := by_source' |}.

Definition incr_added (st : Stats) : Stats :=
  {| added := added st + 1; updated := updated st;
     total_new_incoming := total_new_incoming st;
     by_protocol := by_protocol st; by_source := by_source st |}.

Definition incr_updated (st : Stats) : Stats :=
  {| added := added st; updated := updated st + 1;
     total_new_incoming := total_new_incoming st;
     by_protocol := by_protocol st; by_source := by_source st |}.

(** [bool(p.data)]: the dictionary exists and is not empty. *)
Definition data_truthy (s : Store) (p : ProxyInfo) : bool :=
  match data p with
  | Some d => match dicts s d with [] => false | _ :: _ => true end
  | None => false
  end.

(** The attribute assignments of case 1, one after the other, from the
    candidate to the stored object. *)
Definition copy_attributes (s : Store) (existing_proxy_obj new_proxy_candidate : ref)
  : Store :=
  let s := upd_obj existing_proxy_obj (set_ip (ip (objs s new_proxy_candidate))) s in
  let s := upd_obj existing_proxy_obj (set_port (port (objs s new_proxy_candidate))) s in
  let s := upd_obj existing_proxy_obj
             (set_country_code (country_code (objs s new_proxy_candidate))) s in
  let s := upd_obj existing_proxy_obj
             (set_protocol (protocol (objs s new_proxy_candidate))) s in
  let s := upd_obj existing_proxy_obj
             (set_source (source (objs s new_proxy_candidate))) s in
  upd_obj existing_proxy_obj (set_data (data (objs s new_proxy_candidate))) s.

(** Case 1 of the loop: the key is in the map.  The stored object takes
    the attributes of the candidate; its name is restored when it was not
    empty, also in the dictionary it now shares with the candidate. *)
Definition update_existing (s : Store) (existing_proxy_obj new_proxy_candidate : ref)
  : Store :=
  let original_name := name (objs s existing_proxy_obj) in
  let s := snd (generate_name s new_proxy_candidate) in
  let s := copy_attributes s existing_proxy_obj new_proxy_candidate in
  if truthy original_name then
    let s := upd_obj existing_proxy_obj (set_name original_name) s in
    match data (objs s existing_proxy_obj) with
    | Some d =>
        if data_truthy s (objs s existing_proxy_obj) && has (lit "name") (dicts s d)
        then upd_dict d (set (lit "name") (value_of_name original_name)) s
        else s
    | None => s
    end
  else s.

(** Case 2 of the loop: a new key. *)
Definition add_new (s : Store) (new_proxy_candidate : ref) : Store :=
  let s := snd (generate_name s new_proxy_candidate) in
  match data (objs s new_proxy_candidate) with
  | Some d =>
      if data_truthy s (objs s new_proxy_candidate)
      then upd_dict d (set (lit "name")
                           (value_of_name (name (objs s new_proxy_candidate)))) s
      else s
  | None => s
  end.

(** The body of the loop over [new_proxies]. *)
Definition merge_step (ms : MergeState) (new_proxy_candidate : ref) : MergeState :=
  let st := count_incoming (objs (store ms) new_proxy_candidate) (stats ms) in
  let key := unique_key (objs (store ms) new_proxy_candidate) in
  match get key (merged_proxies_map ms) with
  | Some existing_proxy_obj =>
      {| store := update_existing (store ms) existing_proxy_obj new_proxy_candidate;
         merged_proxies_map := merged_proxies_map ms;
         stats := incr_updated st |}
  | None =>
      {| store := add_new (store ms) new_proxy_candidate;
         merged_proxies_map := set key new_proxy_candidate (merged_proxies_map ms);
         stats := incr_added st |}
  end.

(** [{p.unique_key: p for p in existing_proxies}] *)
Definition seed_map (s : Store) (existing_proxies : list ref) : dict ref :=
  fold_left (fun m p => set (unique_key (objs s p)) p m) existing_proxies [].

Definition initial_stats (new_proxies : list ref) : Stats :=
  {| added := 0; updated := 0;
     total_new_incoming := Z.of_nat (List.length new_proxies);
     by_protocol := []; by_source := [] |}.

(** The state in which the loop starts. *)
Definition merge_init (s : Store) (existing_proxies new_proxies : list ref)
  : MergeState :=
  {| store := s;
     merged_proxies_map := seed_map s existing_proxies;
     stats := initial_stats new_proxies |}.

(** The state of the loop once the records [done], the first ones of
    [new_proxies], have had their turn. *)
Definition loop_state_after (s : Store) (existing_proxies new_proxies : list ref)
  (done : list ref) : MergeState :=
  fold_left merge_step done (merge_init s existing_proxies new_proxies).

Definition merge_loop (s : Store) (existing_proxies new_proxies : list ref)
  : MergeState :=
  loop_state_after s existing_proxies new_proxies new_proxies.

(** [merge_proxies]: the merged list, the statistics and the store left
    behind. *)
Definition merge_proxies (s : Store) (existing_proxies new_proxies : list ref)
  : list ref * Stats * Store :=
  let ms := merge_loop s existing_proxies new_proxies in
  (values (merged_proxies_map ms), stats ms, store ms).

End WithApi.

(** The keys of the records of a list. *)
Definition keys_of (s : Store) (l : list ref) : list str :=
  List.map (fun r => unique_key (objs s r)) l.

(** The last record of a list that has the key [k]. *)
Definition last_with_key (s : Store) (k : str) (l : list ref) : option ref :=
  List.find (fun r => eqb (unique_key (objs s r)) k) (rev l).

(** The fields other than the name agree. *)
Definition same_payload (a b : ProxyInfo) : Prop :=
  protocol a = protocol b /\ source a = source b /\
  data a = data b /\ country_code a = country_code b.

(** The invariant of the loop, relative to the store [s0] in which
    [merge_proxies] was called: no object changes its key or its name, the
    map files every object under its own key, and no key twice. *)
Definition loop_invariant (s0 : Store) (ms : MergeState) : Prop :=
  (forall r, unique_key (objs (store ms) r) = unique_key (objs s0 r)) /\
  (forall r, name (objs (store ms) r) = name (objs s0 r)) /\
  (forall k r, get k (merged_proxies_map ms) = Some r ->
               unique_key (objs s0 r) = k) /\
  NoDup (keys (merged_proxies_map ms)).

End Merger.

(* ------------------------------------------------------------------ *)
(** ** The inputs of the scenarios *)

Module Scenarios.

Import PyStr PyDict Parser.

(** Scenario 6: a source with an interval of 60 minutes.  The time stamps
    are taken as integers and the clock reads 1000 at every call. *)
Definition scenario_6_source : Registry.ProxySource Z :=
  {| Registry.name := lit "main";
     Registry.url := lit "http://example.org/list";
     Registry.enabled := true; Registry.protocol_hint := None;
     Registry.success_count := 0; Registry.fail_count := 0;
     Registry.last_sync := None; Registry.last_proxy_count := 0;
     Registry.sync_interval_minutes := 60;
     Registry.next_sync_timestamp := None |}.

Definition scenario_6_manager : Registry.Manager Z :=
  {| Registry.sources := [(lit "main", scenario_6_source)];
     Registry.ticks := 0 |}.

Definition integer_sum (t n : Z) : option Z := Some (t + n)%Z.

Definition fixed_clock (_ : nat) : Z := 1000%Z.

(** Scenario 5: a record for 1.1.1.1:443 with a name. *)
Definition record_named (n : str) : Merger.ProxyInfo :=
  {| Merger.ip := lit "1.1.1.1"; Merger.port := 443;
     Merger.country_code := None; Merger.name := Some n;
     Merger.data := None; Merger.protocol := None; Merger.source := None |}.

(** A store in which object 0 is the record named "Old" and every other
    object a record with the empty name; the country service fails. *)
Definition scenario_5_store : Merger.Store :=
  {| Merger.objs := fun r => match r with
                             | O => record_named (lit "Old")
                             | S _ => record_named []
                             end;
     Merger.dicts := fun _ => [];
     Merger.provider := {| Merger.cache := []; Merger.requests := 0 |} |}.

Definition no_api (_ : nat) (_ : str) : Merger.ApiResponse := Merger.ApiFailure.

End Scenarios.

(* ------------------------------------------------------------------ *)
(** ** [ProxySourceManager]: the other operations

    [_save_sources] writes the configuration file and catches every
    error of doing so; it does not touch [self.sources] and is left
    out. *)

Module RegistryOps.

Import PyStr PyDict Parser Registry.

(** [del d[k]]: a dictionary holds a key once, so the entry of [k] is
    every pair filed under [k]. *)
Definition remove (V : Type) (k : str) (d : dict V) : dict V :=
  filter (fun kv => negb (eqb k (fst kv))) d.

Section WithClock.

Variable Float : Type.
(** [t + n] for a float [t] and an integer [n]; [None] is [OverflowError]. *)
Variable float_add_int : Float -> Z -> option Float.
(** [t <= u] on floats. *)
Variable float_le : Float -> Float -> bool.
(** The successive readings of [time.time()]. *)
Variable clock : nat -> Float.

(** [ProxySource(name, url, True, protocol_hint,
    sync_interval_minutes=..., next_sync_timestamp=now)]: the other
    fields take the defaults of the data class. *)
Definition new_source (name url : str) (protocol_hint : option ProtocolType)
  (sync_interval_minutes : Z) (now : Float) : ProxySource Float :=
  {| name := name; url := url; enabled := true;
     protocol_hint := protocol_hint;
     success_count := 0; fail_count := 0;
     last_sync := None; last_proxy_count := 0;
     sync_interval_minutes := sync_interval_minutes;
     next_sync_timestamp := Some now |}.

Definition set_enabled (b : bool) (source : ProxySource Float)
  : ProxySource Float :=
  {| name := name source; url := url source; enabled := b;
     protocol_hint := protocol_hint source;
     success_count := success_count source;
     fail_count := fail_count source;
     last_sync := last_sync source;
     last_proxy_count := last_proxy_count source;
     sync_interval_minutes := sync_interval_minutes source;
     next_sync_timestamp := next_sync_timestamp source |}.

Definition set_sync_interval_minutes (n : Z) (source : ProxySource Float)
  : ProxySource Float :=
  {| name := name source; url := url source; enabled := enabled source;
     protocol_hint := protocol_hint source;
     success_count := success_count source;
     fail_count := fail_count source;
     last_sync := last_sync source;
     last_proxy_count := last_proxy_count source;
     sync_interval_minutes := n;
     next_sync_timestamp := next_sync_timestamp source |}.

(** [add_source(name, url, protocol_hint, sync_interval_minutes)] *)
Definition add_source (m : Manager Float) (source_name url : str)
  (protocol_hint : option ProtocolType) (sync_interval_minutes : Z)
  : Manager Float * bool :=
  if has source_name (sources m) then (m, false)
  else
    let source := new_source source_name url protocol_hint
                    sync_interval_minutes (clock (ticks m)) in
    ({| sources := set source_name source (sources m);
        ticks := S (ticks m) |}, true).

(** [remove_source(name)] *)
Definition remove_source (m : Manager Float) (source_name : str)
  : Manager Float * bool :=
  if has source_name (sources m) then
    ({| sources := remove source_name (sources m); ticks := ticks m |}, true)
  else (m, false).

(** [enable_source(name, enabled)] *)
Definition enable_source (m : Manager Float) (source_name : str) (b : bool)
  : Manager Float * bool :=
  match get source_name (sources m) with
  | Some source =>
      let source := set_enabled b source in
      if b then
        ({| sources := set source_name
                         (set_next_sync_timestamp (clock (ticks m)) source)
                         (sources m);
            ticks := S (ticks m) |}, true)
      else
        ({| sources := set source_name source (sources m);
            ticks := ticks m |}, true)
  | None => (m, false)
  end.

(** [set_source_interval(name, interval_minutes)]; the answer [None] is
    the [OverflowError] of the addition, raised once the interval has
    been assigned. *)
Definition set_source_interval (m : Manager Float) (source_name : str)
  (interval_minutes : Z) : Manager Float * option bool :=
  match get source_name (sources m) with
  | Some source =>
      let source := set_sync_interval_minutes interval_minutes source in
      match float_add_int (clock (ticks m)) (interval_minutes * 60) with
      | Some t =>
          ({| sources := set source_name (set_next_sync_timestamp t source)
                             (sources m);
              ticks := S (ticks m) |}, Some true)
      | None =>
          ({| sources := set source_name source (sources m);
              ticks := S (ticks m) |}, None)
      end
  | None => (m, Some false)
  end.

(** [get_enabled_sources()] *)
Definition get_enabled_sources (m : Manager Float) : list (ProxySource Float) :=
  filter (fun source => enabled source) (values (sources m)).

(** [get_source_by_name(name)] *)
Definition get_source_by_name (m : Manager Float) (source_name : str)
  : option (ProxySource Float) :=
  get source_name (sources m).

(** The comprehension of [get_due_sources]: the clock is read for every
    enabled source that has a time stamp, at the turn of that source. *)
Fixpoint due_sources (l : list (ProxySource Float)) (t : nat)
  : list (ProxySource Float) * nat :=
  match l with
  | [] => ([], t)
  | s :: l' =>
      if enabled s then
        match next_sync_timestamp s with
        | None => let (r, t') := due_sources l' t in (s :: r, t')
        | Some stamp =>
            let (r, t') := due_sources l' (S t) in
            (if float_le stamp (clock t) then s :: r else r, t')
        end
      else due_sources l' t
  end.

(** [get_due_sources()] *)
Definition get_due_sources (m : Manager Float)
  : list (ProxySource Float) * Manager Float :=
  let (r, t) := due_sources (values (sources m)) (ticks m) in
  (r, {| sources := sources m; ticks := t |}).

End WithClock.

End RegistryOps.

(** Further data for the examples. *)

Module MoreScenarios.

Import PyStr PyDict Parser.

(** An addition that overflows on every input. *)
Definition no_sum (_ : Z) (_ : Z) : option Z := None.

(** A record for an address and a port, without a name. *)
Definition record_at (address : str) (p : Z) : Merger.ProxyInfo :=
  {| Merger.ip := address; Merger.port := p;
     Merger.country_code := None; Merger.name := None;
     Merger.data := None; Merger.protocol := None; Merger.source := None |}.

(** A store in which object 0 is a record for 1.1.1.1:443 and every other
    object a record for 2.2.2.2:80. *)
Definition two_hosts_store : Merger.Store :=
  {| Merger.objs := fun r => match r with
                             | O => record_at (lit "1.1.1.1") 443
                             | S _ => record_at (lit "2.2.2.2") 80
                             end;
     Merger.dicts := fun _ => [];
     Merger.provider := {| Merger.cache := []; Merger.requests := 0 |} |}.

(** Time stamps taken as integers: an integer from [2 ^ 1024] on has no
    float, and adding it to a float raises [OverflowError]. *)
Definition bounded_sum (t n : Z) : option Z :=
  if (Z.abs n <? 2 ^ 1024)%Z then Some (t + n)%Z else None.

(** The source of scenario 6 with an interval of [2 ^ 1024] minutes. *)
Definition huge_interval_source : Registry.ProxySource Z :=
  {| Registry.name := lit "main";
     Registry.url := lit "http://example.org/list";
     Registry.enabled := true; Registry.protocol_hint := None;
     Registry.success_count := 0; Registry.fail_count := 0;
     Registry.last_sync := None; Registry.last_proxy_count := 0;
     Registry.sync_interval_minutes := 2 ^ 1024;
     Registry.next_sync_timestamp := None |}.

Definition huge_interval_manager : Registry.Manager Z :=
  {| Registry.sources := [(lit "main", huge_interval_source)];
     Registry.ticks := 0 |}.

(** A text between double quotes. *)
Definition quoted (x : string) : str := [34%N] ++ lit x ++ [34%N].

(** The JSON text of a VMess configuration:
    an object with [add] "1.2.3.4", [port] 443, [id] "uuid" and
    [ps] "Remark1". *)
Definition vmess_json_text : str :=
  lit "{" ++ quoted "add" ++ lit ":" ++ quoted "1.2.3.4" ++ lit ","
  ++ quoted "port" ++ lit ":443,"
  ++ quoted "id" ++ lit ":" ++ quoted "uuid" ++ lit ","
  ++ quoted "ps" ++ lit ":" ++ quoted "Remark1" ++ lit "}".

(** Floats taken as integers, for configurations that hold none. *)
Definition integer_truthy (x : Z) : bool := negb (Z.eqb x 0).
Definition integer_to_int (x : Z) : option Z := Some x.

(** What [json.loads] returns on [vmess_json_text]; no other text is
    given to it in the examples. *)
Definition vmess_json_loads (text : str) : option (VMess.Json Z) :=
  if eqb text vmess_json_text then
    Some (VMess.JDict
            [ (lit "add", VMess.JStr (lit "1.2.3.4"));
              (lit "port", VMess.JInt 443);
              (lit "id", VMess.JStr (lit "uuid"));
              (lit "ps", VMess.JStr (lit "Remark1")) ])
  else None.

(** A country service that answers "GB" to every request. *)
Definition gb_api (_ : nat) (_ : str) : Merger.ApiResponse :=
  Merger.ApiSuccess (Some (lit "GB")).

End MoreScenarios.

(* ------------------------------------------------------------------ *)
(** ** Sequences of country look-ups *)

Module MergerMore.

Import PyStr PyDict Parser Merger.

Section WithApi.

Variable api : nat -> str -> ApiResponse.

(** The provider after the calls [get_country_code(a)] for the addresses
    of a list, one after the other. *)
Definition lookup_all (pv : Provider) (addresses : list str) : Provider :=
  fold_left (fun pv a => snd (get_country_code api pv a)) addresses pv.

End WithApi.

(** The incoming records that arrive with a key not seen before, in the
    order of their arrival: [seen] holds the keys of the existing records
    and of the incoming records that came earlier. *)
Fixpoint first_arrivals (s : Store) (seen : list str) (new_proxies : list ref)
  : list ref :=
  match new_proxies with
  | [] => []
  | new_proxy_candidate :: rest =>
      let key := unique_key (objs s new_proxy_candidate) in
      if existsb (eqb key) seen then first_arrivals s seen rest
      else new_proxy_candidate :: first_arrivals s (key :: seen) rest
  end.

(** The statistics before the first turn of a loop without incoming
    records. *)
Definition no_stats : Stats :=
  {| added := 0; updated := 0; total_new_incoming := 0;
     by_protocol := []; by_source := [] |}.

End MergerMore.

(* ------------------------------------------------------------------ *)
(** ** The schemes of a protocol *)

Module Schemes.

Import PyStr Parser.

(** The schemes [detect_protocol] looks for, per protocol it can answer
    from a scheme. *)
Definition scheme_patterns (protocol : ProtocolType) : list str :=
  match protocol with
  | VLESS => [lit "vless://"]
  | VMESS => [lit "vmess://"]
  | TROJAN => [lit "trojan://"]
  | SSR => [lit "ssr://"]
  | SS => [lit "ss://"]
  | HY2 => [lit "hy2://"; lit "hysteria2://"]
  | YAML | UNKNOWN => []
  end.

End Schemes.

(* ------------------------------------------------------------------ *)
(** ** The fields of a decoded record *)

Module Records.

Import PyStr PyDict Parser.

(** A record of the given type with a server and a port:
    [parse_mixed_content] reads [type], [server] and [port] of what a
    decoder returns. *)
Definition endpoint_of (type : str) (result : dict Value)
  (server : str) (port : Z) : Prop :=
  get (lit "type") result = Some (VStr type) /\
  get (lit "server") result = Some (VStr server) /\
  get (lit "port") result = Some (VInt port).

End Records.

(* ------------------------------------------------------------------ *)
(** ** [parse_mixed_content]: the lines it parses

    The decoder of YAML needs the [yaml] library, so the records
    [parse_mixed_content] builds are not modelled.  What is modelled is
    the part before them: how the decoded content is cut into lines and
    what is done to a line before it is classified and decoded. *)

Module Mixed.

Import PyStr PyDict Parser.

(** [t.find(p)]: the lowest index at which [p] occurs; [None] is [-1]. *)
Fixpoint find (p t : str) : option nat :=
  if startswith t p then Some O
  else match t with
       | [] => None
       | _ :: t' => option_map S (find p t')
       end.

(** *** [_smart_split_protocols] *)

(** [protocols] *)
Definition split_protocols : list str :=
  [lit "vless://"; lit "vmess://"; lit "ss://"; lit "ssr://";
   lit "trojan://"; lit "hy2://"; lit "hysteria2://"].

(** The look-ahead [(?=vless://|vmess://|...)] holds at the start of [t]. *)
Definition protocol_ahead (t : str) : bool :=
  existsb (fun p => startswith t p) split_protocols.

(** [re.split(pattern, t)] for the look-ahead pattern, which matches the
    empty string: the text is cut at every position where the look-ahead
    holds.  A cut at the start of the text leaves an empty first piece. *)
Fixpoint re_split (t : str) : list str :=
  match t with
  | [] => [[]]
  | c :: t' =>
      let pieces :=
        match re_split t' with
        | piece :: pieces => (c :: piece) :: pieces
        | [] => [[c]]
        end in
      if protocol_ahead t then [] :: pieces else pieces
  end.

(** [[part.strip() for part in parts if part.strip()]] *)
Definition _smart_split_protocols (content : str) : list str :=
  List.map strip (filter (fun part => nonempty (strip part)) (re_split content)).

(** *** The status prefix of a line *)

(** The list of the [any(...)] test. *)
Definition status_markers : list str :=
  [lit "://"; lit "vless://"; lit "vmess://"; lit "ss://"; lit "ssr://";
   lit "trojan://"].

(** The list of the loop that looks for the first protocol. *)
Definition status_protocols : list str :=
  [lit "vless://"; lit "vmess://"; lit "ss://"; lit "ssr://";
   lit "trojan://"; lit "hy2://"; lit "hysteria2://"].

(** The loop over [status_protocols]: [None] is [float('inf')]. *)
Definition proto_start (line : str) : option nat :=
  fold_left
    (fun start proto =>
       match find proto line with
       | Some pos =>
           Some (match start with Some s => Nat.min s pos | None => pos end)
       | None => start
       end)
    status_protocols None.

(** The block that removes the status prefix of a line. *)
Definition remove_status_prefix (line : str) : str :=
  if contains (lit "STATUS=") line
     && existsb (fun proto => contains proto line) status_markers
  then
    match proto_start line with
    | Some n => skipn n line
    | None => line
    end
  else line.

(** *** The lines of the loop *)

(** [lines] when the loop starts: the lines of the trimmed content, or
    the parts of its only line. *)
Definition content_lines (decoded_content : str) : list str :=
  let lines := split [10%N] (strip decoded_content) in
  match lines with
  | [line] => if nonempty line then _smart_split_protocols line else lines
  | _ => lines
  end.

(** The values of [line] at the call [detect_protocol(line)], in the
    order of the loop: empty lines and lines that start with [#] are
    passed over. *)
Definition lines_to_parse (decoded_content : str) : list str :=
  flat_map
    (fun line =>
       let line := strip line in
       if negb (nonempty line) || startswith line (lit "#") then []
       else [remove_status_prefix line])
    (content_lines decoded_content).

End Mixed.

(* ------------------------------------------------------------------ *)
(** * Properties *)

Unset Implicit Arguments.

(** ** Strings and dictionaries *)

Module PyStrFacts.

Import PyStr.

Lemma eqb_eq (a b : str) : eqb a b = true <-> a = b.
Proof.
  revert b; induction a as [|x a IH]; intros [|y b]; simpl;
    try (split; [discriminate | discriminate]); try tauto.
  rewrite andb_true_iff, N.eqb_eq, IH.
  split; [intros [-> ->]; reflexivity | intros H; inversion H; auto].
Qed.

Lemma eqb_refl (a : str) : eqb a a = true.
Proof. apply eqb_eq; reflexivity. Qed.

Lemma eqb_neq (a b : str) : eqb a b = false <-> a <> b.
Proof.
  split.
  - intros H E. apply eqb_eq in E. congruence.
  - intros H. destruct (eqb a b) eqn:E; [apply eqb_eq in E; contradiction | reflexivity].
Qed.

Lemma nonempty_true (a : str) : nonempty a = true <-> a <> [].
Proof. destruct a; simpl; split; congruence. Qed.

(** What [dropwhile] leaves does not start with a dropped character. *)
Lemma dropwhile_head (f : N -> bool) (t : str) :
  match dropwhile f t with [] => True | c :: _ => f c = false end.
Proof.
  induction t as [|c t IH]; simpl; [exact I|].
  destruct (f c) eqn:E; [exact IH | exact E].
Qed.

Lemma dropwhile_fixed (f : N -> bool) (t : str) :
  match t with [] => True | c :: _ => f c = false end -> dropwhile f t = t.
Proof. destruct t as [|c t]; simpl; [reflexivity | intros ->; reflexivity]. Qed.

(** [dropwhile] removes a prefix of dropped characters. *)
Lemma dropwhile_split (f : N -> bool) (t : str) :
  exists pre, t = pre ++ dropwhile f t.
Proof.
  induction t as [|c t [pre IH]]; simpl; [exists []; reflexivity|].
  destruct (f c); [exists (c :: pre); simpl; congruence | exists []; reflexivity].
Qed.

Lemma strip_with_idempotent (f : N -> bool) (t : str) :
  strip_with f (strip_with f t) = strip_with f t.
Proof.
  unfold strip_with.
  set (a := dropwhile f t).
  set (b := dropwhile f (rev a)).
  assert (Hb : match b with [] => True | c :: _ => f c = false end)
    by apply dropwhile_head.
  assert (Ha : match a with [] => True | c :: _ => f c = false end)
    by apply dropwhile_head.
  destruct (dropwhile_split f (rev a)) as [pre Hpre]. fold b in Hpre.
  assert (Hrb : dropwhile f (rev b) = rev b).
  { apply dropwhile_fixed.
    assert (Ea : a = rev b ++ rev pre).
    { rewrite <- rev_app_distr, <- Hpre, rev_involutive; reflexivity. }
    destruct (rev b) as [|c rb] eqn:Erb; [exact I|].
    rewrite Ea in Ha; simpl in Ha; exact Ha. }
  rewrite Hrb, rev_involutive.
  rewrite (dropwhile_fixed f b Hb). reflexivity.
Qed.

Lemma strip_idempotent (t : str) : strip (strip t) = strip t.
Proof. apply strip_with_idempotent. Qed.

End PyStrFacts.

Module PyDictFacts.

Import PyStr PyDict PyStrFacts.

Section Dict.

Variable V : Type.
Implicit Types (d : dict V) (k : str) (v : V).

Lemma get_set_same k v d : get k (set k v d) = Some v.
Proof.
  induction d as [|[k' v'] d IH]; simpl.
  - rewrite eqb_refl; reflexivity.
  - destruct (eqb k k') eqn:E; simpl; rewrite E; [reflexivity | exact IH].
Qed.

Lemma get_set_other k k' v d : k' <> k -> get k' (set k v d) = get k' d.
Proof.
  intros Hne. induction d as [|[k0 v0] d IH]; simpl.
  - apply eqb_neq in Hne. rewrite Hne. reflexivity.
  - destruct (eqb k k0) eqn:E; simpl.
    + apply eqb_eq in E; subst k0.
      apply eqb_neq in Hne. rewrite Hne. reflexivity.
    + rewrite IH. reflexivity.
Qed.

Lemma get_in k v d : get k d = Some v -> In (k, v) d.
Proof.
  induction d as [|[k0 v0] d IH]; simpl; [discriminate|].
  destruct (eqb k k0) eqn:E.
  - apply eqb_eq in E; subst. intros H; inversion H; auto.
  - auto.
Qed.

Lemma get_none_iff k d : get k d = None <-> ~ In k (keys d).
Proof.
  induction d as [|[k0 v0] d IH]; simpl; [tauto|].
  destruct (eqb k k0) eqn:E.
  - apply eqb_eq in E; subst. split; [discriminate | intros H; exfalso; auto].
  - apply eqb_neq in E. rewrite IH. split; [intros H [H'|H']; congruence | tauto].
Qed.

Lemma get_some_in_keys k v d : get k d = Some v -> In k (keys d).
Proof.
  intros H. destruct (in_dec (list_eq_dec N.eq_dec) k (keys d)) as [i|n]; [exact i|].
  apply get_none_iff in n. congruence.
Qed.

(** An assignment to a key the dictionary holds keeps the keys. *)
Lemma keys_set_present k v v0 d : get k d = Some v0 -> keys (set k v d) = keys d.
Proof.
  revert v0. induction d as [|[k0 v1] d IH]; simpl; [discriminate|].
  intros v0. destruct (eqb k k0) eqn:E; simpl; [reflexivity|].
  intros H. rewrite (IH _ H). reflexivity.
Qed.

(** An assignment to a new key appends it. *)
Lemma keys_set_absent k v d : get k d = None -> keys (set k v d) = keys d ++ [k].
Proof.
  induction d as [|[k0 v1] d IH]; simpl; [reflexivity|].
  destruct (eqb k k0) eqn:E; [discriminate|]. simpl.
  intros H. rewrite (IH H). reflexivity.
Qed.

Lemma in_keys_set k k' v d : In k' (keys (set k v d)) <-> k' = k \/ In k' (keys d).
Proof.
  destruct (get k d) eqn:E.
  - rewrite (keys_set_present _ v _ _ E). split; [auto|].
    intros [->|H]; [eapply get_some_in_keys; eauto | exact H].
  - rewrite (keys_set_absent _ v _ E), in_app_iff. simpl. intuition congruence.
Qed.

Lemma NoDup_keys_set k v d : NoDup (keys d) -> NoDup (keys (set k v d)).
Proof.
  intros H. destruct (get k d) eqn:E.
  - rewrite (keys_set_present _ v _ _ E). exact H.
  - rewrite (keys_set_absent _ v _ E).
    apply get_none_iff in E.
    apply NoDup_rev in H. rewrite <- (rev_involutive (keys d ++ [k])).
    apply NoDup_rev. rewrite rev_app_distr. simpl. constructor; [|exact H].
    rewrite <- in_rev. exact E.
Qed.

(** With distinct keys, the entries of the dictionary are what [get]
    finds. *)
Lemma in_get k v d : NoDup (keys d) -> In (k, v) d -> get k d = Some v.
Proof.
  induction d as [|[k0 v0] d IH]; simpl; [tauto|].
  intros Hnd [H|H].
  - inversion H; subst. rewrite eqb_refl. reflexivity.
  - inversion Hnd as [|? ? Hni Hnd']; subst.
    destruct (eqb k k0) eqn:E.
    + apply eqb_eq in E; subst. exfalso. apply Hni.
      change (In (fst (k0, v)) (List.map fst d)). apply in_map. exact H.
    + apply IH; assumption.
Qed.

Lemma in_values_get v d :
  In v (values d) -> NoDup (keys d) -> exists k, get k d = Some v.
Proof.
  intros H Hnd. unfold values in H. apply in_map_iff in H.
  destruct H as [[k v'] [E H]]. simpl in E; subst.
  exists k. apply in_get; assumption.
Qed.

Lemma get_in_values k v d : get k d = Some v -> In v (values d).
Proof.
  intros H. apply get_in in H. unfold values.
  change v with (snd (k, v)). apply in_map. exact H.
Qed.

End Dict.

End PyDictFacts.

(* ------------------------------------------------------------------ *)
(** ** The parser *)

Module ParserFacts.

Import PyStr PyDict Codec Parser PyStrFacts.

(** *** The clean-up of names *)

(** C10.  For a non-empty name, [_clean_vip_chars] returns a non-empty
    string: when deleting the variants of "VIP" and trimming the
    separators leaves nothing, the name is returned as it was; so the
    name "VIP" stays "VIP". *)
Theorem clean_vip_chars_nonempty (name : str) (H : name <> []) :
  _clean_vip_chars name <> [] /\
  (strip_chars (lit " -_|") (remove_vip_patterns name) = [] ->
   _clean_vip_chars name = name) /\
  _clean_vip_chars (lit "VIP") = lit "VIP".
Proof.
  unfold _clean_vip_chars.
  destruct name as [|c name]; [contradiction|]. simpl negb. cbv iota.
  split; [|split].
  - destruct (nonempty (strip_chars (lit " -_|") (remove_vip_patterns (c :: name))))
      eqn:E.
    + apply nonempty_true. exact E.
    + discriminate.
  - intros ->. reflexivity.
  - vm_compute. reflexivity.
Qed.

Lemma clean_vip_chars_nonempty_witness :
  lit "VIP" <> [] /\ _clean_vip_chars (lit "VIP") = lit "VIP".
Proof.
  assert (H : lit "VIP" <> []) by (vm_compute; discriminate).
  split; [exact H|].
  apply (proj1 (proj2 (clean_vip_chars_nonempty (lit "VIP") H))).
  vm_compute. reflexivity.
Defined.

(** *** [try_base64_decode] *)

Section Normalizer.

Variable rt : PyRuntime.

Lemma try_decode_methods_none (methods : list (str -> option bytes))
  (original : str) :
  (forall m d, In m methods -> decode_attempt m original = Some d ->
               contains_protocol_identifier rt d = false) ->
  try_decode_methods rt methods original = original.
Proof.
  induction methods as [|m methods IH]; simpl; intros H; [reflexivity|].
  destruct (decode_attempt m original) as [d|] eqn:E.
  - rewrite (H m d (or_introl eq_refl) E). apply IH.
    intros m' d' Hin. apply H. right. exact Hin.
  - apply IH. intros m' d' Hin. apply H. right. exact Hin.
Qed.

(** The loop falls through to the trimmed input when no attempt is
    accepted. *)
Lemma try_base64_decode_unaccepted (content : str) :
  no_attempt_qualifies rt (strip content) ->
  try_base64_decode rt content = strip content.
Proof.
  intros H. unfold try_base64_decode. apply try_decode_methods_none. exact H.
Qed.


(** A text that no attempt accepts is a fixed point of the normaliser, up
    to the trimming. *)
Lemma try_base64_decode_fixed (content : str) :
  no_attempt_qualifies rt (strip content) ->
  try_base64_decode rt (try_base64_decode rt content)
  = try_base64_decode rt content.
Proof.
  intros H.
  rewrite (try_base64_decode_unaccepted content H).
  unfold try_base64_decode. rewrite strip_idempotent.
  apply try_decode_methods_none. exact H.
Qed.

(** C7, as the code has it.  Detection gives the same protocol on a text
    and on its normalisation whenever a second normalisation leaves the
    normalised text as it is, and so whenever no decoding attempt on the
    text is accepted. *)
Theorem detect_protocol_normalised (content : str) :
  (try_base64_decode rt (try_base64_decode rt content)
   = try_base64_decode rt content ->
   detect_protocol rt content
   = detect_protocol rt (try_base64_decode rt content)) /\
  (no_attempt_qualifies rt (strip content) ->
   detect_protocol rt content
   = detect_protocol rt (try_base64_decode rt content)).
Proof.
  assert (Hfix : try_base64_decode rt (try_base64_decode rt content)
                 = try_base64_decode rt content ->
                 detect_protocol rt content
                 = detect_protocol rt (try_base64_decode rt content)).
  { intros H. unfold detect_protocol. rewrite H. reflexivity. }
  split; [exact Hfix|].
  intros H. apply Hfix. apply try_base64_decode_fixed. exact H.
Qed.

End Normalizer.




(** The base64 form of "vmess://abc": its normalisation, "vmess://abc",
    is not decodable again. *)
Lemma detect_protocol_normalised_witness :
  try_base64_decode ascii_runtime
    (try_base64_decode ascii_runtime (lit "dm1lc3M6Ly9hYmM="))
  = try_base64_decode ascii_runtime (lit "dm1lc3M6Ly9hYmM=") /\
  detect_protocol ascii_runtime (lit "dm1lc3M6Ly9hYmM=")
  = detect_protocol ascii_runtime
      (try_base64_decode ascii_runtime (lit "dm1lc3M6Ly9hYmM=")).
Proof.
  assert (H : try_base64_decode ascii_runtime
                (try_base64_decode ascii_runtime (lit "dm1lc3M6Ly9hYmM="))
              = try_base64_decode ascii_runtime (lit "dm1lc3M6Ly9hYmM="))
    by (vm_compute; reflexivity).
  split; [exact H|].
  exact (proj1 (detect_protocol_normalised ascii_runtime
                  (lit "dm1lc3M6Ly9hYmM=")) H).
Defined.

(** C7 as stated fails.  The input is the base64 form of the two lines
    "dm1lc3M6Ly9hYmM=" and "ss://x".  Its normalisation is these two
    lines, in which only "ss://" is found: SS.  The normalisation is
    itself decodable: the first line is the base64 form of "vmess://abc"
    and the decoder stops at its padding, so detection on the
    normalisation answers VMESS. *)
Lemma detect_protocol_not_idempotent :
  detect_protocol ascii_runtime (lit "ZG0xbGMzTTZMeTloWW1NPQpzczovL3g=") = SS /\
  detect_protocol ascii_runtime
    (try_base64_decode ascii_runtime (lit "ZG0xbGMzTTZMeTloWW1NPQpzczovL3g="))
  = VMESS /\
  detect_protocol ascii_runtime (lit "ZG0xbGMzTTZMeTloWW1NPQpzczovL3g=")
  <> detect_protocol ascii_runtime
       (try_base64_decode ascii_runtime (lit "ZG0xbGMzTTZMeTloWW1NPQpzczovL3g=")).
Proof.
  repeat split; try (vm_compute; reflexivity).
  vm_compute. discriminate.
Qed.

(** *** The names of the decoded records *)




Section Names.

Variable rt : PyRuntime.







Variable Float : Type.
Variable float_truthy : Float -> bool.
Variable float_to_int : Float -> option Z.
Variable json_loads : str -> option (VMess.Json Float).



End Names.



(** The same for the VMess decoder.  The body of the link is the base64
    form of the configuration [vmess_json_text], whose [ps] field is
    "Remark1", and the link ends in the fragment "MyNode".  The decoder
    stops at the padding of the body; the name is the [ps] field. *)
Lemma parse_vmess_url_reads_ps :
  fragment_of
    (lit "vmess://eyJhZGQiOiIxLjIuMy40IiwicG9ydCI6NDQzLCJpZCI6InV1aWQiLCJwcyI6IlJlbWFyazEifQ==#MyNode")
  = Some (lit "MyNode") /\
  decode_first b64decode urlsafe_b64decode
    (lit "eyJhZGQiOiIxLjIuMy40IiwicG9ydCI6NDQzLCJpZCI6InV1aWQiLCJwcyI6IlJlbWFyazEifQ==#MyNode"
     ++ lit "==")
  = Some MoreScenarios.vmess_json_text /\
  VMess.parse_vmess_url ascii_runtime MoreScenarios.integer_truthy
    MoreScenarios.integer_to_int MoreScenarios.vmess_json_loads
    (lit "vmess://eyJhZGQiOiIxLjIuMy40IiwicG9ydCI6NDQzLCJpZCI6InV1aWQiLCJwcyI6IlJlbWFyazEifQ==#MyNode")
  = Some [ (lit "name", VMess.JStr (lit "Remark1"));
           (lit "type", VMess.JStr (lit "vmess"));
           (lit "server", VMess.JStr (lit "1.2.3.4"));
           (lit "port", VMess.JInt 443);
           (lit "uuid", VMess.JStr (lit "uuid"));
           (lit "alterId", VMess.JInt 0);
           (lit "cipher", VMess.JStr (lit "auto"));
           (lit "network", VMess.JStr (lit "tcp"));
           (lit "tls", VMess.JBool false) ] /\
  lit "Remark1" <> lit "MyNode".
Proof.
  repeat split; try (vm_compute; reflexivity).
  vm_compute. discriminate.
Qed.

(** *** [detect_protocol] *)

(** C4, at an input where the code and the claim differ.  The text reaches
    the frequency scan with two occurrences of "trojan://" and one of
    "vmess://"; the loop over the priority order returns the first
    protocol with a positive count, VMESS, not the most frequent one. *)
Theorem detect_protocol_first_positive (rt : PyRuntime) :
  reaches_frequency_scan rt (lit "a trojan://x trojan://y vmess://z") = true /\
  protocol_counts rt (lit "a trojan://x trojan://y vmess://z")
  = [(VLESS, 0%Z); (VMESS, 1%Z); (TROJAN, 2%Z); (SSR, 0%Z); (SS, (-1)%Z);
     (HY2, 0%Z)] /\
  detect_protocol rt (lit "a trojan://x trojan://y vmess://z") = VMESS.
Proof.
  repeat split; vm_compute; reflexivity.
Qed.

(** *** [parse_ss_url] *)

(** C3, on the code.  The body of the link is decoded as a whole; the
    decoder stops at the padding of "YWVzLTI1Ni1nY206cGFzcw==", so the
    decoded text is "aes-256-gcm:pass", it holds no "@", and the link is
    rejected. *)
Theorem parse_ss_url_scenario_1 (rt : PyRuntime) :
  decode_first b64decode urlsafe_b64decode
    (lit "YWVzLTI1Ni1nY206cGFzcw==@1.2.3.4:8388" ++ lit "==")
  = Some (lit "aes-256-gcm:pass") /\
  parse_ss_url rt (lit "ss://YWVzLTI1Ni1nY206cGFzcw==@1.2.3.4:8388#MyNode")
  = None.
Proof.
  split; vm_compute; reflexivity.
Qed.

End ParserFacts.

(* ------------------------------------------------------------------ *)
(** ** The source registry *)

Module RegistryFacts.

Import PyStr PyDict Parser Registry PyDictFacts.

Section WithClock.

Variable Float : Type.
Variable float_add_int : Float -> Z -> option Float.
Variable clock : nat -> Float.

Lemma sync_interval_record_attempt (success : bool) (proxy_count : Z)
  (source : ProxySource Float) :
  sync_interval_minutes (record_attempt success proxy_count source)
  = sync_interval_minutes source.
Proof. destruct success; reflexivity. Qed.

(** C6.  For a registered source, [update_source_stats] sets
    [last_sync] to the reading of the clock and [next_sync_timestamp] to
    the (next) reading plus [sync_interval_minutes * 60], whenever that
    sum is a float; the two values do not depend on [success], so a
    failed attempt reschedules the source exactly as a successful one. *)
Theorem update_source_stats_reschedules (m : Manager Float)
  (source_name : str) (source : ProxySource Float) (due : Float)
  (Hreg : get source_name (sources m) = Some source)
  (Hsum : float_add_int (clock (S (ticks m)))
                        (sync_interval_minutes source * 60) = Some due) :
  forall (success : bool) (proxy_count : Z),
  exists m' source',
    update_source_stats float_add_int clock m source_name success proxy_count
    = (m', Returned) /\
    get source_name (sources m') = Some source' /\
    next_sync_timestamp source' = Some due /\
    last_sync source' = Some (clock (ticks m)).
Proof.
  intros success proxy_count.
  unfold update_source_stats. rewrite Hreg.
  cbn [sync_interval_minutes set_last_sync].
  rewrite sync_interval_record_attempt, Hsum.
  eexists. eexists. split; [reflexivity|].
  cbn [sources]. rewrite get_set_same.
  split; [reflexivity|]. split; reflexivity.
Qed.

End WithClock.

(** Scenario 6: a failed attempt on a source with an interval of 60
    minutes sets the next synchronisation to 1000 + 3600. *)
Lemma update_source_stats_reschedules_witness :
  exists m' source',
    update_source_stats Scenarios.integer_sum Scenarios.fixed_clock
                        Scenarios.scenario_6_manager (lit "main") false 0
    = (m', Returned) /\
    get (lit "main") (sources m') = Some source' /\
    next_sync_timestamp source' = Some 4600%Z /\
    last_sync source' = Some 1000%Z.
Proof.
  exact (update_source_stats_reschedules Z Scenarios.integer_sum
           Scenarios.fixed_clock Scenarios.scenario_6_manager (lit "main")
           Scenarios.scenario_6_source 4600%Z eq_refl eq_refl false 0%Z).
Defined.

(** C6 as stated fails when the interval is so long that the sum is no
    float.  The source "main" has an interval of [2 ^ 1024] minutes; the
    addition raises [OverflowError] after the counter and [last_sync] have
    been assigned, so the call raises and [next_sync_timestamp] is not
    set. *)
Lemma update_source_stats_overflow :
  get (lit "main") (sources MoreScenarios.huge_interval_manager)
  = Some MoreScenarios.huge_interval_source /\
  exists m' source',
    update_source_stats MoreScenarios.bounded_sum Scenarios.fixed_clock
                        MoreScenarios.huge_interval_manager (lit "main") false 0
    = (m', Raised) /\
    get (lit "main") (sources m') = Some source' /\
    next_sync_timestamp source' = None /\
    last_sync source' = Some 1000%Z /\
    fail_count source' = 1%Z.
Proof.
  split; [reflexivity|].
  eexists. eexists. split; [vm_compute; reflexivity|].
  split; [vm_compute; reflexivity|]. repeat split.
Qed.

End RegistryFacts.

(* ------------------------------------------------------------------ *)
(** ** The merger *)

Module MergerFacts.

Import PyStr PyDict Parser Merger PyStrFacts PyDictFacts.

Section WithApi.

Variable api : nat -> str -> ApiResponse.

(** *** What one call changes in the store *)

Lemma objs_upd_obj_same (r : ref) (f : ProxyInfo -> ProxyInfo) (s : Store) :
  objs (upd_obj r f s) r = f (objs s r).
Proof. simpl. rewrite Nat.eqb_refl. reflexivity. Qed.

Lemma objs_upd_obj_other (r r' : ref) (f : ProxyInfo -> ProxyInfo) (s : Store) :
  r' <> r -> objs (upd_obj r f s) r' = objs s r'.
Proof. intros H. simpl. apply Nat.eqb_neq in H. rewrite H. reflexivity. Qed.

(** [generate_name] assigns at most the country code of its argument, and
    nothing when the object has one. *)
Lemma generate_name_store (s : Store) (c : ref) :
  (truthy (country_code (objs s c)) = false /\
   exists code pv,
      snd (generate_name api s c)
      = upd_obj c (set_country_code code) (set_provider pv s)) \/
  (truthy (country_code (objs s c)) = true /\ snd (generate_name api s c) = s).
Proof.
  unfold generate_name.
  destruct (truthy (country_code (objs s c))) eqn:E; simpl negb; cbv iota.
  - right. split; reflexivity.
  - left. split; [reflexivity|].
    destruct (get_country_code api (provider s) (ip (objs s c))) as [code pv].
    exists code, pv. reflexivity.
Qed.

Lemma generate_name_other (s : Store) (c r : ref) :
  r <> c -> objs (snd (generate_name api s c)) r = objs s r.
Proof.
  intros H. destruct (generate_name_store s c) as [[_ [code [pv ->]]]|[_ ->]];
    [|reflexivity].
  rewrite objs_upd_obj_other by exact H. reflexivity.
Qed.

Lemma generate_name_fields (s : Store) (c r : ref) :
  let p' := objs (snd (generate_name api s c)) r in
  let p := objs s r in
  ip p' = ip p /\ port p' = port p /\ name p' = name p /\ data p' = data p /\
  protocol p' = protocol p /\ source p' = source p /\
  (truthy (country_code p) = true -> country_code p' = country_code p).
Proof.
  destruct (Nat.eq_dec r c) as [->|Hne].
  - destruct (generate_name_store s c) as [[Hf [code [pv E]]]|[Ht E]];
      cbv zeta; rewrite E.
    + rewrite objs_upd_obj_same. simpl.
      repeat split; try reflexivity.
      intros Ht. congruence.
    + repeat split; reflexivity.
  - cbv zeta. rewrite (generate_name_other s c r Hne).
    repeat split; reflexivity.
Qed.

Lemma copy_attributes_objs (s : Store) (e c : ref) :
  (forall r, r <> e -> objs (copy_attributes s e c) r = objs s r) /\
  objs (copy_attributes s e c) e
  = {| ip := ip (objs s c); port := port (objs s c);
       country_code := country_code (objs s c);
       name := name (objs s e);
       data := data (objs s c); protocol := protocol (objs s c);
       source := source (objs s c) |}.
Proof.
  unfold copy_attributes. split.
  - intros r Hr. rewrite !objs_upd_obj_other by exact Hr. reflexivity.
  - destruct (Nat.eq_dec c e) as [->|Hce].
    + rewrite !objs_upd_obj_same. reflexivity.
    + rewrite !objs_upd_obj_same.
      rewrite !(objs_upd_obj_other e c) by exact Hce. reflexivity.
Qed.

(** The attributes of the stored object after case 1: those of the
    candidate, the name apart; no other object is assigned. *)
Lemma update_existing_objs (s : Store) (e c : ref) :
  let s1 := snd (generate_name api s c) in
  let s' := update_existing api s e c in
  (forall r, r <> e -> objs s' r = objs s1 r) /\
  objs s' e
  = {| ip := ip (objs s1 c); port := port (objs s1 c);
       country_code := country_code (objs s1 c);
       name := name (objs s e);
       data := data (objs s1 c); protocol := protocol (objs s1 c);
       source := source (objs s1 c) |}.
Proof.
  cbv zeta. unfold update_existing.
  set (s1 := snd (generate_name api s c)).
  assert (Hname : name (objs s1 e) = name (objs s e))
    by apply (generate_name_fields s c e).
  destruct (copy_attributes_objs s1 e c) as [H1 H2].
  set (s6 := copy_attributes s1 e c) in *.
  assert (Hset :
    (forall r, r <> e ->
       objs (upd_obj e (set_name (name (objs s e))) s6) r = objs s1 r) /\
    objs (upd_obj e (set_name (name (objs s e))) s6) e
    = {| ip := ip (objs s1 c); port := port (objs s1 c);
         country_code := country_code (objs s1 c);
         name := name (objs s e);
         data := data (objs s1 c); protocol := protocol (objs s1 c);
         source := source (objs s1 c) |}).
  { split.
    - intros r Hr. rewrite objs_upd_obj_other by exact Hr. apply H1. exact Hr.
    - rewrite objs_upd_obj_same, H2. reflexivity. }
  destruct (truthy (name (objs s e))) eqn:Ht.
  - destruct (data (objs (upd_obj e (set_name (name (objs s e))) s6) e)) as [d|];
      [|exact Hset].
    match goal with
    | |- context [if ?b then _ else _] => destruct b
    end; exact Hset.
  - split; [exact H1|]. rewrite H2, Hname. reflexivity.
Qed.

Lemma add_new_objs (s : Store) (c r : ref) :
  objs (add_new api s c) r = objs (snd (generate_name api s c)) r.
Proof.
  unfold add_new.
  destruct (data (objs (snd (generate_name api s c)) c)) as [d|]; [|reflexivity].
  destruct (data_truthy _ _); reflexivity.
Qed.

(** *** One turn of the loop *)

Lemma unique_key_fields (p q : ProxyInfo) :
  ip p = ip q -> port p = port q -> unique_key p = unique_key q.
Proof. unfold unique_key. intros -> ->. reflexivity. Qed.

Lemma merge_step_update (ms : MergeState) (c e : ref) :
  get (unique_key (objs (store ms) c)) (merged_proxies_map ms) = Some e ->
  merge_step api ms c
  = {| store := update_existing api (store ms) e c;
       merged_proxies_map := merged_proxies_map ms;
       stats := incr_updated (count_incoming (objs (store ms) c) (stats ms)) |}.
Proof. intros H. unfold merge_step. rewrite H. reflexivity. Qed.

Lemma merge_step_add (ms : MergeState) (c : ref) :
  get (unique_key (objs (store ms) c)) (merged_proxies_map ms) = None ->
  merge_step api ms c
  = {| store := add_new api (store ms) c;
       merged_proxies_map :=
         set (unique_key (objs (store ms) c)) c (merged_proxies_map ms);
       stats := incr_added (count_incoming (objs (store ms) c) (stats ms)) |}.
Proof. intros H. unfold merge_step. rewrite H. reflexivity. Qed.

(** No turn changes the name of an object. *)
Lemma merge_step_name (ms : MergeState) (c r : ref) :
  name (objs (store (merge_step api ms c)) r) = name (objs (store ms) r).
Proof.
  destruct (get (unique_key (objs (store ms) c)) (merged_proxies_map ms))
    as [e|] eqn:E.
  - rewrite (merge_step_update ms c e E). cbn [store].
    destruct (update_existing_objs (store ms) e c) as [H1 H2].
    destruct (Nat.eq_dec r e) as [->|Hne].
    + rewrite H2. reflexivity.
    + rewrite (H1 r Hne). apply (generate_name_fields (store ms) c r).
  - rewrite (merge_step_add ms c E). cbn [store].
    rewrite add_new_objs. apply (generate_name_fields (store ms) c r).
Qed.

(** No turn changes the key of an object, when the map files the objects
    under their keys. *)
Lemma merge_step_key (ms : MergeState) (c r : ref) :
  (forall k e, get k (merged_proxies_map ms) = Some e ->
               unique_key (objs (store ms) e) = k) ->
  unique_key (objs (store (merge_step api ms c)) r)
  = unique_key (objs (store ms) r).
Proof.
  intros Hmap.
  assert (Hgen : forall x, unique_key (objs (snd (generate_name api (store ms) c)) x)
                           = unique_key (objs (store ms) x)).
  { intros x. apply unique_key_fields; apply (generate_name_fields (store ms) c x). }
  destruct (get (unique_key (objs (store ms) c)) (merged_proxies_map ms))
    as [e|] eqn:E.
  - rewrite (merge_step_update ms c e E). cbn [store].
    destruct (update_existing_objs (store ms) e c) as [H1 H2].
    destruct (Nat.eq_dec r e) as [->|Hne].
    + rewrite H2. rewrite (Hmap _ _ E). rewrite <- (Hgen c). reflexivity.
    + rewrite (H1 r Hne). apply Hgen.
  - rewrite (merge_step_add ms c E). cbn [store].
    rewrite add_new_objs. apply Hgen.
Qed.

Lemma invariant_current (s0 : Store) (ms : MergeState) :
  loop_invariant s0 ms ->
  forall k e, get k (merged_proxies_map ms) = Some e ->
              unique_key (objs (store ms) e) = k.
Proof.
  intros [Hk [_ [Hm _]]] k e H. rewrite Hk. apply (Hm k e H).
Qed.

Lemma merge_step_invariant (s0 : Store) (ms : MergeState) (c : ref) :
  loop_invariant s0 ms -> loop_invariant s0 (merge_step api ms c).
Proof.
  intros Hinv. pose proof (invariant_current s0 ms Hinv) as Hcur.
  destruct Hinv as [Hk [Hn [Hm Hnd]]].
  split; [|split; [|split]].
  - intros r. rewrite (merge_step_key ms c r Hcur). apply Hk.
  - intros r. rewrite merge_step_name. apply Hn.
  - intros k r.
    destruct (get (unique_key (objs (store ms) c)) (merged_proxies_map ms))
      as [e|] eqn:E.
    + rewrite (merge_step_update ms c e E). cbn [merged_proxies_map]. apply Hm.
    + rewrite (merge_step_add ms c E). cbn [merged_proxies_map].
      destruct (list_eq_dec N.eq_dec k (unique_key (objs (store ms) c)))
        as [->|Hne].
      * rewrite get_set_same. intros H. inversion H; subst. symmetry. apply Hk.
      * rewrite get_set_other by exact Hne. apply Hm.
  - destruct (get (unique_key (objs (store ms) c)) (merged_proxies_map ms))
      as [e|] eqn:E.
    + rewrite (merge_step_update ms c e E). exact Hnd.
    + rewrite (merge_step_add ms c E). cbn [merged_proxies_map].
      apply NoDup_keys_set. exact Hnd.
Qed.

Lemma fold_invariant (s0 : Store) (l : list ref) (ms : MergeState) :
  loop_invariant s0 ms -> loop_invariant s0 (fold_left (merge_step api) l ms).
Proof.
  revert ms. induction l as [|c l IH]; simpl; intros ms H; [exact H|].
  apply IH. apply merge_step_invariant. exact H.
Qed.

(** *** The map built from the existing list *)

Lemma seed_fold (s : Store) (l : list ref) (acc : dict ref) :
  (forall k r, get k acc = Some r -> unique_key (objs s r) = k) ->
  NoDup (keys acc) ->
  let m := fold_left (fun m p => set (unique_key (objs s p)) p m) l acc in
  (forall k r, get k m = Some r -> unique_key (objs s r) = k) /\
  NoDup (keys m) /\
  (forall k, In k (keys m) <-> In k (keys acc) \/ In k (keys_of s l)).
Proof.
  revert acc. induction l as [|p l IH]; simpl; intros acc Hm Hnd.
  - split; [exact Hm|]. split; [exact Hnd|]. intros k. tauto.
  - destruct (IH (set (unique_key (objs s p)) p acc)) as [H1 [H2 H3]].
    + intros k r.
      destruct (list_eq_dec N.eq_dec k (unique_key (objs s p))) as [->|Hne].
      * rewrite get_set_same. intros H; inversion H; subst; reflexivity.
      * rewrite get_set_other by exact Hne. apply Hm.
    + apply NoDup_keys_set. exact Hnd.
    + split; [exact H1|]. split; [exact H2|].
      intros k. rewrite H3, in_keys_set. intuition congruence.
Qed.

Lemma seed_map_spec (s : Store) (l : list ref) :
  (forall k r, get k (seed_map s l) = Some r -> unique_key (objs s r) = k) /\
  NoDup (keys (seed_map s l)) /\
  (forall k, In k (keys (seed_map s l)) <-> In k (keys_of s l)).
Proof.
  destruct (seed_fold s l []) as [H1 [H2 H3]].
  - intros k r H. discriminate H.
  - constructor.
  - split; [exact H1|]. split; [exact H2|].
    intros k. fold (seed_map s l) in H3. rewrite H3. simpl. tauto.
Qed.

Lemma merge_init_invariant (s : Store) (existing new : list ref) :
  loop_invariant s (merge_init s existing new).
Proof.
  destruct (seed_map_spec s existing) as [H1 [H2 _]].
  split; [|split; [|split]]; cbn [merge_init store merged_proxies_map];
    try reflexivity; assumption.
Qed.

Lemma loop_state_invariant (s : Store) (existing new done : list ref) :
  loop_invariant s (loop_state_after api s existing new done).
Proof. apply fold_invariant. apply merge_init_invariant. Qed.

(** *** The keys of the map *)

Lemma merge_step_keys (ms : MergeState) (c : ref) (k : str) :
  In k (keys (merged_proxies_map (merge_step api ms c)))
  <-> In k (keys (merged_proxies_map ms)) \/ k = unique_key (objs (store ms) c).
Proof.
  destruct (get (unique_key (objs (store ms) c)) (merged_proxies_map ms))
    as [e|] eqn:E.
  - rewrite (merge_step_update ms c e E). cbn [merged_proxies_map].
    split; [auto|]. intros [H| ->]; [exact H|].
    apply (get_some_in_keys _ _ _ _ E).
  - rewrite (merge_step_add ms c E). cbn [merged_proxies_map].
    rewrite in_keys_set. tauto.
Qed.

Lemma fold_keys (s0 : Store) (l : list ref) (ms : MergeState) (k : str) :
  loop_invariant s0 ms ->
  In k (keys (merged_proxies_map (fold_left (merge_step api) l ms)))
  <-> In k (keys (merged_proxies_map ms)) \/ In k (keys_of s0 l).
Proof.
  revert ms. induction l as [|c l IH]; simpl; intros ms Hinv; [tauto|].
  rewrite (IH _ (merge_step_invariant s0 ms c Hinv)), merge_step_keys.
  destruct Hinv as [Hk _]. rewrite Hk. intuition congruence.
Qed.

(** The keys of the merged list, read in the final store, are the keys
    of the map. *)
Lemma keys_of_values (s0 : Store) (ms : MergeState) :
  loop_invariant s0 ms ->
  keys_of (store ms) (values (merged_proxies_map ms))
  = keys (merged_proxies_map ms).
Proof.
  intros Hinv. pose proof (invariant_current s0 ms Hinv) as Hcur.
  destruct Hinv as [_ [_ [_ Hnd]]].
  assert (H : forall d : dict ref,
             (forall k r, In (k, r) d -> unique_key (objs (store ms) r) = k) ->
             keys_of (store ms) (values d) = keys d).
  { induction d as [|[k r] d IH]; simpl; intros Hd; [reflexivity|].
    rewrite (Hd k r (or_introl eq_refl)). f_equal.
    apply IH. intros k' r' Hin. apply Hd. right. exact Hin. }
  apply H. intros k r Hin. apply Hcur. apply in_get; assumption.
Qed.

(** *** The statistics *)

Lemma fold_stats (l : list ref) (ms : MergeState) :
  let ms' := fold_left (merge_step api) l ms in
  (added (stats ms') + updated (stats ms')
   = added (stats ms) + updated (stats ms) + Z.of_nat (List.length l))%Z /\
  total_new_incoming (stats ms') = total_new_incoming (stats ms).
Proof.
  revert ms. induction l as [|c l IH]; intros ms; cbv zeta.
  - simpl. split; [lia | reflexivity].
  - cbn [fold_left]. destruct (IH (merge_step api ms c)) as [H1 H2].
    cbv zeta in H1, H2. rewrite H1, H2.
    replace (Z.of_nat (List.length (c :: l)))
      with (1 + Z.of_nat (List.length l))%Z by (cbn [List.length]; lia).
    unfold merge_step.
    destruct (get (unique_key (objs (store ms) c)) (merged_proxies_map ms));
      cbn [stats incr_updated incr_added count_incoming added updated
           total_new_incoming]; split; try reflexivity; lia.
Qed.

(** C9.  The statistics of a merge count every incoming record once, as
    added or as updated: [added + updated = total_new_incoming], the
    length of the incoming list. *)
Theorem merge_counts_every_incoming (s : Store) (existing new : list ref) :
  let st := snd (fst (merge_proxies api s existing new)) in
  (added st + updated st = total_new_incoming st)%Z /\
  total_new_incoming st = Z.of_nat (List.length new).
Proof.
  cbv zeta. unfold merge_proxies, merge_loop, loop_state_after. cbn [fst snd].
  destruct (fold_stats new (merge_init s existing new)) as [H1 H2].
  cbv zeta in H1, H2. rewrite H1, H2.
  cbn [merge_init stats initial_stats added updated total_new_incoming].
  split; [lia | reflexivity].
Qed.

(** *** The keys of the merged list *)

Lemma merge_loop_keys (s : Store) (existing new : list ref) :
  let ms := merge_loop api s existing new in
  NoDup (keys_of (store ms) (values (merged_proxies_map ms))) /\
  (forall k, In k (keys_of (store ms) (values (merged_proxies_map ms)))
             <-> In k (keys_of s existing) \/ In k (keys_of s new)) /\
  (forall l, keys_of (store ms) l = keys_of s l).
Proof.
  cbv zeta.
  pose proof (loop_state_invariant s existing new new) as Hinv.
  fold (merge_loop api s existing new) in Hinv.
  rewrite (keys_of_values s _ Hinv).
  split; [apply Hinv|]. split.
  - intros k. unfold merge_loop, loop_state_after.
    rewrite (fold_keys s new _ k (merge_init_invariant s existing new)).
    cbn [merge_init merged_proxies_map].
    destruct (seed_map_spec s existing) as [_ [_ H]]. rewrite H. tauto.
  - intros l. unfold keys_of. apply map_ext. intros r. apply Hinv.
Qed.

(** C2.  Merging [A] into [S] and then [B] into the result gives a list
    with exactly one record for every key of [S], [A] or [B] and none for
    any other key; no key occurs twice in either merged list. *)
Theorem merge_key_stable (s : Store) (S A B : list ref) :
  let '(merged1, _, s1) := merge_proxies api s S A in
  let '(merged2, _, s2) := merge_proxies api s1 merged1 B in
  NoDup (keys_of s1 merged1) /\
  NoDup (keys_of s2 merged2) /\
  forall k, In k (keys_of s2 merged2)
            <-> In k (keys_of s S) \/ In k (keys_of s A) \/ In k (keys_of s B).
Proof.
  unfold merge_proxies.
  destruct (merge_loop_keys s S A) as [Hnd1 [Hk1 Hs1]]. cbv zeta in Hnd1, Hk1, Hs1.
  set (ms1 := merge_loop api s S A) in *.
  destruct (merge_loop_keys (store ms1) (values (merged_proxies_map ms1)) B)
    as [Hnd2 [Hk2 _]]. cbv zeta in Hnd2, Hk2.
  split; [exact Hnd1|]. split; [exact Hnd2|].
  intros k. rewrite Hk2, Hk1, Hs1. tauto.
Qed.

(** *** The record stored under a key *)

(** The map built from the existing list holds, for every key, the last
    record of the list that has it. *)
Lemma seed_map_last (s : Store) (k : str) (l : list ref) :
  get k (seed_map s l) = last_with_key s k l.
Proof.
  induction l as [|p l IH] using rev_ind; [reflexivity|].
  unfold seed_map, last_with_key in *.
  rewrite fold_left_app, rev_app_distr. cbn [fold_left rev app List.find].
  destruct (eqb (unique_key (objs s p)) k) eqn:E.
  - apply eqb_eq in E. subst k. apply get_set_same.
  - apply eqb_neq in E. rewrite get_set_other by congruence. exact IH.
Qed.

Lemma last_with_key_app (s : Store) (k : str) (l : list ref) (c : ref) :
  last_with_key s k (l ++ [c])
  = if eqb (unique_key (objs s c)) k then Some c else last_with_key s k l.
Proof.
  unfold last_with_key. rewrite rev_app_distr. reflexivity.
Qed.

Lemma last_with_key_key (s : Store) (k : str) (l : list ref) (n : ref) :
  last_with_key s k l = Some n -> unique_key (objs s n) = k /\ In n l.
Proof.
  unfold last_with_key. intros H. apply find_some in H.
  destruct H as [Hin E]. apply eqb_eq in E. split; [exact E|].
  apply in_rev. exact Hin.
Qed.

(** The object stored under a key stays there. *)
Lemma merge_step_get (ms : MergeState) (c : ref) (k : str) (e : ref) :
  get k (merged_proxies_map ms) = Some e ->
  get k (merged_proxies_map (merge_step api ms c)) = Some e.
Proof.
  intros H.
  destruct (get (unique_key (objs (store ms) c)) (merged_proxies_map ms))
    as [e'|] eqn:E.
  - rewrite (merge_step_update ms c e' E). exact H.
  - rewrite (merge_step_add ms c E). cbn [merged_proxies_map].
    rewrite get_set_other; [exact H|]. intros ->. congruence.
Qed.

Lemma fold_get (l : list ref) (ms : MergeState) (k : str) (e : ref) :
  get k (merged_proxies_map ms) = Some e ->
  get k (merged_proxies_map (fold_left (merge_step api) l ms)) = Some e.
Proof.
  revert ms. induction l as [|c l IH]; simpl; intros ms H; [exact H|].
  apply IH. apply merge_step_get. exact H.
Qed.

(** A turn leaves alone every object whose key is not that of the
    candidate. *)
Lemma merge_step_frame (s0 : Store) (ms : MergeState) (c r : ref) :
  loop_invariant s0 ms ->
  unique_key (objs s0 r) <> unique_key (objs s0 c) ->
  objs (store (merge_step api ms c)) r = objs (store ms) r.
Proof.
  intros Hinv Hne. destruct Hinv as [Hk [_ [Hm _]]].
  assert (Hrc : r <> c) by (intros ->; apply Hne; reflexivity).
  destruct (get (unique_key (objs (store ms) c)) (merged_proxies_map ms))
    as [e|] eqn:E.
  - rewrite (merge_step_update ms c e E). cbn [store].
    destruct (update_existing_objs (store ms) e c) as [H1 _].
    rewrite H1.
    + apply generate_name_other. exact Hrc.
    + intros ->. apply Hne. rewrite (Hm _ _ E). apply Hk.
  - rewrite (merge_step_add ms c E). cbn [store].
    rewrite add_new_objs. apply generate_name_other. exact Hrc.
Qed.

(** After the turn of a candidate whose key is in the map, the stored
    object agrees with the candidate on every field but the name. *)
Lemma merge_step_payload (ms : MergeState) (c e : ref) :
  get (unique_key (objs (store ms) c)) (merged_proxies_map ms) = Some e ->
  same_payload (objs (store (merge_step api ms c)) e)
               (objs (store (merge_step api ms c)) c).
Proof.
  intros E. rewrite (merge_step_update ms c e E). cbn [store].
  destruct (update_existing_objs (store ms) e c) as [H1 H2].
  destruct (Nat.eq_dec c e) as [->|Hce].
  - repeat split; reflexivity.
  - rewrite (H1 c Hce), H2. repeat split; reflexivity.
Qed.

(** An object that is not the one updated in a turn keeps its protocol,
    source and data, and its country code when it has one. *)
Lemma merge_step_untouched (ms : MergeState) (c r : ref) :
  (forall e, get (unique_key (objs (store ms) c)) (merged_proxies_map ms)
             = Some e -> e <> r) ->
  let p' := objs (store (merge_step api ms c)) r in
  let p := objs (store ms) r in
  protocol p' = protocol p /\ source p' = source p /\ data p' = data p /\
  (truthy (country_code p) = true -> country_code p' = country_code p).
Proof.
  intros Hother. cbv zeta.
  pose proof (generate_name_fields (store ms) c r) as Hg. cbv zeta in Hg.
  assert (E' : objs (store (merge_step api ms c)) r
               = objs (snd (generate_name api (store ms) c)) r).
  { destruct (get (unique_key (objs (store ms) c)) (merged_proxies_map ms))
      as [e|] eqn:E.
    - rewrite (merge_step_update ms c e E). cbn [store].
      destruct (update_existing_objs (store ms) e c) as [H1 _].
      apply H1. intros ->. exact (Hother e eq_refl eq_refl).
    - rewrite (merge_step_add ms c E). cbn [store]. apply add_new_objs. }
  rewrite E'. tauto.
Qed.

Lemma fold_untouched (s0 : Store) (k : str) (e r : ref) (l : list ref)
  (ms : MergeState) :
  loop_invariant s0 ms ->
  get k (merged_proxies_map ms) = Some e ->
  unique_key (objs s0 r) = k -> r <> e ->
  let p' := objs (store (fold_left (merge_step api) l ms)) r in
  let p := objs (store ms) r in
  protocol p' = protocol p /\ source p' = source p /\ data p' = data p /\
  (truthy (country_code p) = true -> country_code p' = country_code p).
Proof.
  revert ms. induction l as [|c l IH]; intros ms Hinv He Hr Hre; cbv zeta.
  - simpl. tauto.
  - cbn [fold_left].
    destruct (IH (merge_step api ms c) (merge_step_invariant s0 ms c Hinv)
                 (merge_step_get ms c k e He) Hr Hre) as [A1 [A2 [A3 A4]]].
    destruct (merge_step_untouched ms c r) as [B1 [B2 [B3 B4]]].
    { intros e' E' ->. destruct Hinv as [Hk [_ [Hm _]]].
      pose proof (Hm _ _ E') as Hkey. rewrite Hr in Hkey.
      rewrite <- Hkey in E'. congruence. }
    rewrite A1, A2, A3, B1, B2, B3. repeat split.
    intros Ht. rewrite A4; [apply B4; exact Ht|].
    rewrite (B4 Ht). exact Ht.
Qed.

(** After the loop, the stored object agrees with the last candidate
    that had its key. *)
Lemma fold_payload (s0 : Store) (k : str) (e n : ref) (l : list ref)
  (ms : MergeState) :
  loop_invariant s0 ms ->
  get k (merged_proxies_map ms) = Some e ->
  last_with_key s0 k l = Some n ->
  same_payload (objs (store (fold_left (merge_step api) l ms)) e)
               (objs (store (fold_left (merge_step api) l ms)) n).
Proof.
  intros Hinv He. revert n.
  induction l as [|c l IH] using rev_ind; intros n Hn; [discriminate Hn|].
  rewrite last_with_key_app in Hn. rewrite fold_left_app. cbn [fold_left].
  set (ms' := fold_left (merge_step api) l ms) in *.
  pose proof (fold_invariant s0 l ms Hinv) as Hinv'. fold ms' in Hinv'.
  pose proof (fold_get l ms k e He) as He'. fold ms' in He'.
  destruct (eqb (unique_key (objs s0 c)) k) eqn:E.
  - apply eqb_eq in E. inversion Hn; subst n.
    apply merge_step_payload.
    destruct Hinv' as [Hk _]. rewrite Hk, E. exact He'.
  - apply eqb_neq in E.
    destruct (last_with_key_key s0 k l n Hn) as [Hkn _].
    assert (Hke : unique_key (objs s0 e) = k).
    { destruct Hinv' as [_ [_ [Hm _]]]. apply (Hm _ _ He'). }
    rewrite (merge_step_frame s0 ms' c e Hinv') by congruence.
    rewrite (merge_step_frame s0 ms' c n Hinv') by congruence.
    apply IH. exact Hn.
Qed.

(** A candidate whose key is in the map is counted as updated. *)
Lemma merge_step_counts_update (ms : MergeState) (c e : ref) :
  get (unique_key (objs (store ms) c)) (merged_proxies_map ms) = Some e ->
  added (stats (merge_step api ms c)) = added (stats ms) /\
  updated (stats (merge_step api ms c)) = (updated (stats ms) + 1)%Z.
Proof.
  intros E. rewrite (merge_step_update ms c e E).
  split; reflexivity.
Qed.

(** C1, as the code has it.  Let [e] be the record that the existing
    list holds last for the key [k], with a non-empty name, and [n] the
    last incoming record with that key.  Then the merged list has exactly
    one record for [k], the object [e]; it keeps its name; its protocol,
    source, data and country code are those of [n] (as [n] stands after
    the merge, and, when [n] is another object than [e], as [n] came in;
    the country code as it came in when it had one); and the turn of
    every incoming record with the key [k] adds one to [updated] and
    nothing to [added]. *)
Theorem merge_keeps_stored_name (s : Store) (existing new : list ref)
  (k : str) (e n : ref)
  (He : last_with_key s k existing = Some e)
  (Hname : truthy (name (objs s e)) = true)
  (Hn : last_with_key s k new = Some n) :
  let '(merged, _, s') := merge_proxies api s existing new in
  (In e merged /\
   forall r, In r merged -> unique_key (objs s' r) = k -> r = e) /\
  unique_key (objs s' e) = k /\
  name (objs s' e) = name (objs s e) /\
  same_payload (objs s' e) (objs s' n) /\
  (n <> e ->
   protocol (objs s' e) = protocol (objs s n) /\
   source (objs s' e) = source (objs s n) /\
   data (objs s' e) = data (objs s n) /\
   (truthy (country_code (objs s n)) = true ->
    country_code (objs s' e) = country_code (objs s n))) /\
  (forall done c rest,
      new = done ++ c :: rest -> unique_key (objs s c) = k ->
      let before := loop_state_after api s existing new done in
      added (stats (merge_step api before c)) = added (stats before) /\
      updated (stats (merge_step api before c))
      = (updated (stats before) + 1)%Z).
Proof.
  unfold merge_proxies, merge_loop.
  rewrite <- seed_map_last in He.
  pose proof (loop_state_invariant s existing new new) as Hinv.
  assert (Hget : forall done,
             get k (merged_proxies_map (loop_state_after api s existing new done))
             = Some e).
  { intros done. unfold loop_state_after. apply fold_get. exact He. }
  set (ms := loop_state_after api s existing new new) in *.
  pose proof (Hget new) as Hgete. fold ms in Hgete.
  pose proof (invariant_current s ms Hinv) as Hcur.
  pose proof (fold_payload s k e n new (merge_init s existing new)
                (merge_init_invariant s existing new) He Hn) as Hpay.
  fold (loop_state_after api s existing new new) in Hpay. fold ms in Hpay.
  destruct Hinv as [Hk [Hnm [Hm Hnd]]].
  split; [split|split; [|split; [|split; [|split]]]].
  - apply (get_in_values _ k). exact Hgete.
  - intros r Hin Hr.
    destruct (in_values_get _ r _ Hin Hnd) as [k' Hk'].
    pose proof (Hcur _ _ Hk') as E. rewrite Hr in E. subst k'. congruence.
  - apply Hcur. exact Hgete.
  - apply Hnm.
  - exact Hpay.
  - intros Hne.
    destruct (last_with_key_key s k new n Hn) as [Hkn _].
    destruct (fold_untouched s k e n new (merge_init s existing new)
                (merge_init_invariant s existing new) He Hkn Hne)
      as [A1 [A2 [A3 A4]]].
    fold (loop_state_after api s existing new new) in A1, A2, A3, A4.
    fold ms in A1, A2, A3, A4.
    cbn [merge_init store] in A1, A2, A3, A4.
    destruct Hpay as [P1 [P2 [P3 P4]]].
    rewrite P1, P2, P3, P4. repeat split; try assumption.
  - intros done c rest _ Hc. cbv zeta.
    apply (merge_step_counts_update _ c e).
    destruct (loop_state_invariant s existing new done) as [Hk' _].
    rewrite Hk', Hc. apply Hget.
Qed.

End WithApi.

(** Scenario 5: the existing list is the record named "Old", the incoming
    list a record for the same key with the empty name. *)
Lemma merge_keeps_stored_name_witness :
  let '(merged, st, s') :=
    merge_proxies Scenarios.no_api Scenarios.scenario_5_store [0] [1] in
  merged = [0] /\ added st = 0%Z /\ updated st = 1%Z /\
  name (objs s' 0) = Some (lit "Old").
Proof.
  pose proof (merge_keeps_stored_name Scenarios.no_api
                Scenarios.scenario_5_store [0] [1] (lit "1.1.1.1:443") 0 1
                eq_refl eq_refl eq_refl) as H.
  unfold merge_proxies in *.
  destruct H as [_ [_ [Hname _]]].
  split; [vm_compute; reflexivity|].
  split; [vm_compute; reflexivity|].
  split; [vm_compute; reflexivity|].
  exact Hname.
Defined.

(** C1 as stated fails when the existing list has two records for the
    key.  Objects 0 (named "Old") and 1 (empty name) are the existing
    list, object 2 (empty name) is incoming, all for 1.1.1.1:443.  The
    map keeps the last existing record, object 1, so the merged record
    has the empty name although the existing list holds a record of that
    key named "Old". *)
Lemma merge_keeps_last_duplicate :
  In 0 [0; 1] /\
  unique_key (objs Scenarios.scenario_5_store 0)
  = unique_key (objs Scenarios.scenario_5_store 2) /\
  name (objs Scenarios.scenario_5_store 0) = Some (lit "Old") /\
  let '(merged, st, s') :=
    merge_proxies Scenarios.no_api Scenarios.scenario_5_store [0; 1] [2] in
  merged = [1] /\ name (objs s' 1) = Some [] /\
  name (objs s' 1) <> name (objs Scenarios.scenario_5_store 0).
Proof.
  split; [left; reflexivity|].
  split; [vm_compute; reflexivity|].
  split; [vm_compute; reflexivity|].
  unfold merge_proxies.
  split; [vm_compute; reflexivity|].
  split; [vm_compute; reflexivity|].
  vm_compute. discriminate.
Qed.

End MergerFacts.

(* ------------------------------------------------------------------ *)
(** ** More on the merger *)

Module MergerExtras.

Import PyStr PyDict Parser Merger MergerMore PyStrFacts PyDictFacts MergerFacts.

Section Dict.

Variable V : Type.

Lemma values_set_new (k : str) (v : V) (d : dict V) :
  get k d = None -> values (set k v d) = values d ++ [v].
Proof.
  induction d as [|[k0 v0] d IH]; simpl; [reflexivity|].
  destruct (eqb k k0); [discriminate|]. simpl.
  intros H. rewrite (IH H). reflexivity.
Qed.

End Dict.

Section WithApi.

Variable api : nat -> str -> ApiResponse.

(** *** No incoming record *)

Lemma seed_fold_values (s : Store) (l : list ref) (acc : dict ref) :
  NoDup (keys acc ++ keys_of s l) ->
  values (fold_left (fun m p => set (unique_key (objs s p)) p m) l acc)
  = values acc ++ l.
Proof.
  revert acc. induction l as [|p l IH]; simpl; intros acc Hnd.
  - rewrite app_nil_r. reflexivity.
  - assert (Hk : get (unique_key (objs s p)) acc = None).
    { apply get_none_iff. intros Hin.
      apply NoDup_remove_2 in Hnd. apply Hnd.
      apply in_or_app. left. exact Hin. }
    rewrite IH.
    + rewrite (values_set_new _ _ _ _ Hk), <- app_assoc. reflexivity.
    + rewrite (keys_set_absent _ _ _ _ Hk), <- app_assoc. exact Hnd.
Qed.

(** X1.  Merging no incoming record into a list without repeated keys
    returns the list itself, in its order, with all counters at zero, and
    leaves the store as it was. *)
Theorem merge_no_incoming (s : Store) (existing : list ref)
  (Hnd : NoDup (keys_of s existing)) :
  merge_proxies api s existing [] = (existing, no_stats, s).
Proof.
  unfold merge_proxies, merge_loop, loop_state_after, merge_init.
  cbn [fold_left store merged_proxies_map stats].
  unfold seed_map. rewrite seed_fold_values by exact Hnd. reflexivity.
Qed.

(** *** What a merge never changes *)

(** X2.  A merge never assigns the name of a record, nor changes its key:
    after it every object has the name and the key it had before. *)
Theorem merge_keeps_names_and_keys (s : Store) (existing new : list ref)
  (r : ref) :
  let s' := snd (merge_proxies api s existing new) in
  name (objs s' r) = name (objs s r) /\
  unique_key (objs s' r) = unique_key (objs s r).
Proof.
  cbv zeta. unfold merge_proxies, merge_loop. cbn [snd].
  destruct (loop_state_invariant api s existing new new) as [Hk [Hn _]].
  split; [apply Hn | apply Hk].
Qed.

Lemma fold_frame (s0 : Store) (r : ref) (l : list ref) (ms : MergeState) :
  loop_invariant s0 ms ->
  ~ In (unique_key (objs s0 r)) (keys_of s0 l) ->
  objs (store (fold_left (merge_step api) l ms)) r = objs (store ms) r.
Proof.
  revert ms. induction l as [|c l IH]; simpl; intros ms Hinv Hr; [reflexivity|].
  rewrite IH.
  - apply (merge_step_frame api s0 ms c r Hinv). intros E. apply Hr. left.
    symmetry. exact E.
  - apply merge_step_invariant. exact Hinv.
  - intros Hin. apply Hr. right. exact Hin.
Qed.

(** X3.  A record whose key is the key of no incoming record comes out of
    a merge with every attribute as it was. *)
Theorem merge_leaves_other_records (s : Store) (existing new : list ref)
  (r : ref) (Hr : ~ In (unique_key (objs s r)) (keys_of s new)) :
  objs (snd (merge_proxies api s existing new)) r = objs s r.
Proof.
  unfold merge_proxies, merge_loop, loop_state_after. cbn [snd].
  rewrite (fold_frame s r new _ (merge_init_invariant api s existing new) Hr).
  reflexivity.
Qed.

(** *** The order of the merged list *)

Lemma seen_spec (k : str) (seen : list str) :
  existsb (eqb k) seen = true <-> In k seen.
Proof.
  rewrite existsb_exists. split.
  - intros [x [Hin E]]. apply eqb_eq in E. subst x. exact Hin.
  - intros Hin. exists k. split; [exact Hin | apply eqb_refl].
Qed.

Lemma fold_arrivals (s0 : Store) (l : list ref) :
  forall (ms : MergeState) (seen : list str),
    loop_invariant s0 ms ->
    (forall k, In k seen <-> In k (keys (merged_proxies_map ms))) ->
    let ms' := fold_left (merge_step api) l ms in
    values (merged_proxies_map ms')
    = values (merged_proxies_map ms) ++ first_arrivals s0 seen l /\
    added (stats ms')
    = (added (stats ms) + Z.of_nat (List.length (first_arrivals s0 seen l)))%Z.
Proof.
  induction l as [|c l IH]; intros ms seen Hinv Hseen; cbv zeta.
  - cbn [fold_left first_arrivals List.length]. rewrite app_nil_r.
    split; [reflexivity | lia].
  - cbn [fold_left first_arrivals].
    assert (Hkey : unique_key (objs (store ms) c) = unique_key (objs s0 c))
      by (destruct Hinv as [Hk _]; apply Hk).
    destruct (get (unique_key (objs (store ms) c)) (merged_proxies_map ms))
      as [e|] eqn:E.
    + assert (Hin : existsb (eqb (unique_key (objs s0 c))) seen = true).
      { apply seen_spec, Hseen. rewrite <- Hkey.
        exact (get_some_in_keys _ _ _ _ E). }
      rewrite Hin.
      destruct (IH (merge_step api ms c) seen) as [H1 H2].
      * apply merge_step_invariant. exact Hinv.
      * rewrite (merge_step_update api ms c e E). cbn [merged_proxies_map].
        exact Hseen.
      * cbv zeta in H1, H2. rewrite H1, H2, (merge_step_update api ms c e E).
        cbn [merged_proxies_map stats incr_updated count_incoming added].
        split; reflexivity.
    + assert (Hout : existsb (eqb (unique_key (objs s0 c))) seen = false).
      { destruct (existsb (eqb (unique_key (objs s0 c))) seen) eqn:Es;
          [|reflexivity].
        apply seen_spec, Hseen in Es. rewrite <- Hkey in Es.
        apply get_none_iff in E. contradiction. }
      rewrite Hout.
      destruct (IH (merge_step api ms c) (unique_key (objs s0 c) :: seen))
        as [H1 H2].
      * apply merge_step_invariant. exact Hinv.
      * intros k. rewrite (merge_step_add api ms c E). cbn [merged_proxies_map].
        rewrite in_keys_set, Hkey. cbn [In].
        rewrite (Hseen k). split; intros [H|H]; auto.
      * cbv zeta in H1, H2. rewrite H1, H2, (merge_step_add api ms c E).
        cbn [merged_proxies_map stats incr_added count_incoming added].
        rewrite (values_set_new _ _ _ _ E), <- app_assoc.
        split; [reflexivity|]. cbn [app List.length]. lia.
Qed.

(** X4.  The merged list is the deduplicated existing list, in its order,
    followed by the incoming records that arrive with a key that neither
    an existing record nor an earlier incoming record has, in the order of
    their arrival; [added] is the number of records so appended. *)
Theorem merge_appends_new_records (s : Store) (existing new : list ref) :
  let '(merged, st, _) := merge_proxies api s existing new in
  merged = values (seed_map s existing)
           ++ first_arrivals s (keys_of s existing) new /\
  added st
  = Z.of_nat (List.length (first_arrivals s (keys_of s existing) new)).
Proof.
  unfold merge_proxies, merge_loop, loop_state_after.
  destruct (fold_arrivals s new (merge_init s existing new) (keys_of s existing))
    as [H1 H2].
  - apply (merge_init_invariant api).
  - intros k. cbn [merge_init merged_proxies_map]. symmetry.
    apply (proj2 (proj2 (seed_map_spec api s existing))).
  - cbv zeta in H1, H2. split; [exact H1 | exact H2].
Qed.

(** *** The country service *)

Lemma get_country_code_cached (pv : Provider) (a : str) (v : option str) :
  get a (cache pv) = Some v -> get_country_code api pv a = (v, pv).
Proof. intros H. unfold get_country_code. rewrite H. reflexivity. Qed.

(** A call never drops or changes an entry of the cache. *)
Lemma get_country_code_keeps (pv : Provider) (a b : str) (v : option str) :
  get a (cache pv) = Some v ->
  get a (cache (snd (get_country_code api pv b))) = Some v.
Proof.
  intros H. unfold get_country_code.
  destruct (get b (cache pv)) as [w|] eqn:E; [exact H|].
  destruct (api (requests pv) b) as [c|]; cbn [snd cache]; [|exact H].
  rewrite get_set_other; [exact H|]. intros ->. congruence.
Qed.

Lemma lookup_all_keeps (addresses : list str) (pv : Provider) (a : str)
  (v : option str) :
  get a (cache pv) = Some v ->
  get a (cache (lookup_all api pv addresses)) = Some v.
Proof.
  revert pv. unfold lookup_all.
  induction addresses as [|b l IH]; simpl; intros pv H; [exact H|].
  apply IH. apply get_country_code_keeps. exact H.
Qed.

(** X5.  The country of an address is asked once: after a successful
    request the answer is given again on every later call, whatever calls
    were made in between, without a new request.  A failed request is not
    remembered: it answers [None] and leaves the cache as it was. *)
Theorem country_answers_are_cached (pv : Provider) (a : str) :
  get a (cache pv) = None ->
  (forall c, api (requests pv) a = ApiSuccess c ->
     fst (get_country_code api pv a) = c /\
     forall addresses,
       let pv' := lookup_all api (snd (get_country_code api pv a)) addresses in
       get_country_code api pv' a = (c, pv')) /\
  (api (requests pv) a = ApiFailure ->
     fst (get_country_code api pv a) = None /\
     cache (snd (get_country_code api pv a)) = cache pv /\
     requests (snd (get_country_code api pv a)) = S (requests pv)).
Proof.
  intros Hnone. split.
  - intros c Hc.
    assert (E : get_country_code api pv a
                = (c, {| cache := set a c (cache pv);
                         requests := S (requests pv) |})).
    { unfold get_country_code. rewrite Hnone, Hc. reflexivity. }
    rewrite E. cbn [fst snd]. split; [reflexivity|].
    intros addresses. cbv zeta. apply get_country_code_cached.
    apply lookup_all_keeps. cbn [cache]. apply get_set_same.
  - intros Hf. unfold get_country_code. rewrite Hnone, Hf.
    repeat split.
Qed.

(** *** The requests of a merge *)

Lemma generate_name_requests (s : Store) (c : ref) :
  let s' := snd (generate_name api s c) in
  requests (provider s) <= requests (provider s') <= S (requests (provider s)) /\
  (truthy (country_code (objs s c)) = true -> provider s' = provider s).
Proof.
  cbv zeta. unfold generate_name.
  destruct (truthy (country_code (objs s c))) eqn:Ht; cbn [negb].
  - cbn [snd]. split; [lia | reflexivity].
  - split; [|discriminate].
    unfold get_country_code.
    destruct (get (ip (objs s c)) (cache (provider s))) as [w|].
    + cbn [snd provider upd_obj set_provider]. lia.
    + destruct (api (requests (provider s)) (ip (objs s c)));
        cbn [snd provider upd_obj set_provider requests]; lia.
Qed.

Lemma provider_update_existing (s : Store) (e c : ref) :
  provider (update_existing api s e c) = provider (snd (generate_name api s c)).
Proof.
  unfold update_existing.
  destruct (truthy (name (objs s e))); [|reflexivity].
  match goal with
  | |- context [match ?x with Some _ => _ | None => _ end] => destruct x
  end; [|reflexivity].
  match goal with
  | |- context [if ?b then _ else _] => destruct b
  end; reflexivity.
Qed.

Lemma provider_add_new (s : Store) (c : ref) :
  provider (add_new api s c) = provider (snd (generate_name api s c)).
Proof.
  unfold add_new.
  destruct (data (objs (snd (generate_name api s c)) c)); [|reflexivity].
  destruct (data_truthy _ _); reflexivity.
Qed.

Lemma provider_merge_step (ms : MergeState) (c : ref) :
  provider (store (merge_step api ms c))
  = provider (snd (generate_name api (store ms) c)).
Proof.
  unfold merge_step.
  destruct (get _ (merged_proxies_map ms)); cbn [store];
    [apply provider_update_existing | apply provider_add_new].
Qed.

Lemma fold_requests (l : list ref) (ms : MergeState) :
  requests (provider (store ms))
  <= requests (provider (store (fold_left (merge_step api) l ms)))
  <= requests (provider (store ms)) + List.length l.
Proof.
  revert ms. induction l as [|c l IH]; intros ms; cbn [fold_left List.length].
  - lia.
  - specialize (IH (merge_step api ms c)).
    rewrite provider_merge_step in IH.
    pose proof (proj1 (generate_name_requests (store ms) c)) as H.
    cbv zeta in H. lia.
Qed.

(** X6.  A merge asks the country service at most once for every incoming
    record, and never forgets a request it made. *)
Theorem merge_requests_bounded (s : Store) (existing new : list ref) :
  let s' := snd (merge_proxies api s existing new) in
  requests (provider s) <= requests (provider s')
  <= requests (provider s) + List.length new.
Proof.
  cbv zeta. unfold merge_proxies, merge_loop, loop_state_after. cbn [snd].
  apply (fold_requests new (merge_init s existing new)).
Qed.

(** *** Merging the same records again *)

Lemma fold_all_present (s0 : Store) (l : list ref) :
  forall ms,
    loop_invariant s0 ms ->
    (forall c, In c l ->
       In (unique_key (objs s0 c)) (keys (merged_proxies_map ms))) ->
    let ms' := fold_left (merge_step api) l ms in
    merged_proxies_map ms' = merged_proxies_map ms /\
    added (stats ms') = added (stats ms) /\
    updated (stats ms') = (updated (stats ms) + Z.of_nat (List.length l))%Z.
Proof.
  induction l as [|c l IH]; intros ms Hinv Hall; cbv zeta.
  - cbn [fold_left List.length]. repeat split. lia.
  - cbn [fold_left].
    destruct (get (unique_key (objs (store ms) c)) (merged_proxies_map ms))
      as [e|] eqn:E.
    + pose proof (merge_step_update api ms c e E) as Hstep.
      destruct (IH (merge_step api ms c)) as [H1 [H2 H3]].
      * apply merge_step_invariant. exact Hinv.
      * intros c' Hc'. rewrite Hstep. cbn [merged_proxies_map].
        apply Hall. right. exact Hc'.
      * cbv zeta in H1, H2, H3. rewrite H1, H2, H3, Hstep.
        cbn [merged_proxies_map stats incr_updated count_incoming added updated].
        repeat split. cbn [List.length]. lia.
    + exfalso. apply get_none_iff in E. apply E.
      destruct Hinv as [Hk _]. rewrite Hk. apply Hall. left. reflexivity.
Qed.

(** X7.  Merging the same incoming records a second time, into the list
    the first merge returned, adds nothing: every record is counted as
    updated and the list comes back as it was. *)
Theorem merge_again_adds_nothing (s : Store) (existing new : list ref) :
  let '(merged, _, s1) := merge_proxies api s existing new in
  let '(merged2, st2, _) := merge_proxies api s1 merged new in
  merged2 = merged /\
  added st2 = 0%Z /\
  updated st2 = Z.of_nat (List.length new).
Proof.
  unfold merge_proxies.
  destruct (merge_loop_keys api s existing new) as [Hnd [Hkeys Hsame]].
  cbv zeta in Hnd, Hkeys, Hsame.
  set (ms1 := merge_loop api s existing new) in *.
  set (merged := values (merged_proxies_map ms1)) in *.
  unfold merge_loop at 1 2 3, loop_state_after.
  destruct (fold_all_present (store ms1) new (merge_init (store ms1) merged new))
    as [H1 [H2 H3]].
  - apply (merge_init_invariant api).
  - intros c Hc. cbn [merge_init merged_proxies_map].
    apply (proj2 (proj2 (seed_map_spec api (store ms1) merged))).
    apply Hkeys. right.
    rewrite <- (Hsame new). unfold keys_of. apply in_map_iff.
    exists c. split; [reflexivity | exact Hc].
  - cbv zeta in H1, H2, H3. rewrite H1, H2, H3.
    cbn [merge_init merged_proxies_map stats initial_stats added updated].
    split; [|split; [reflexivity | lia]].
    unfold seed_map. apply seed_fold_values. exact Hnd.
Qed.

End WithApi.

Lemma merge_no_incoming_witness :
  merge_proxies Scenarios.no_api Scenarios.scenario_5_store [0] []
  = ([0], no_stats, Scenarios.scenario_5_store).
Proof.
  apply (merge_no_incoming Scenarios.no_api Scenarios.scenario_5_store [0]).
  constructor; [intros [] | constructor].
Defined.

(** Object 0, for 1.1.1.1:443, is the existing list; the incoming record
    is for 2.2.2.2:80. *)
Lemma merge_leaves_other_records_witness :
  objs (snd (merge_proxies MoreScenarios.gb_api MoreScenarios.two_hosts_store
               [0] [1])) 0
  = objs MoreScenarios.two_hosts_store 0.
Proof.
  apply (merge_leaves_other_records MoreScenarios.gb_api
           MoreScenarios.two_hosts_store [0] [1] 0).
  intros [H|[]]. vm_compute in H. discriminate H.
Defined.

(** The first call asks for 1.1.1.1; after a call for 2.2.2.2 the answer
    for 1.1.1.1 comes from the cache. *)
Lemma country_answers_are_cached_witness :
  let pv := {| cache := []; requests := 0 |} in
  let pv' := lookup_all MoreScenarios.gb_api
               (snd (get_country_code MoreScenarios.gb_api pv (lit "1.1.1.1")))
               [lit "2.2.2.2"] in
  get_country_code MoreScenarios.gb_api pv' (lit "1.1.1.1")
  = (Some (lit "GB"), pv').
Proof.
  exact (proj2 (proj1 (country_answers_are_cached MoreScenarios.gb_api
                         {| cache := []; requests := 0 |} (lit "1.1.1.1")
                         eq_refl)
                  (Some (lit "GB")) eq_refl) [lit "2.2.2.2"]).
Defined.

(** *** Keys *)

Lemma lit_inj (x y : string) : lit x = lit y -> x = y.
Proof.
  unfold lit. intros H.
  rewrite <- (string_of_list_ascii_of_string x),
          <- (string_of_list_ascii_of_string y).
  f_equal. revert H.
  generalize (list_ascii_of_string x) (list_ascii_of_string y).
  induction l as [|a l IH]; intros [|b l']; simpl; intros H;
    try discriminate; [reflexivity|].
  injection H as Hab Hl. f_equal; [|apply IH; exact Hl].
  rewrite <- (ascii_N_embedding a), <- (ascii_N_embedding b), Hab.
  reflexivity.
Qed.

Lemma of_Z_inj (x y : Z) : of_Z x = of_Z y -> x = y.
Proof.
  unfold of_Z. intros H. apply lit_inj in H.
  apply DecimalZ.to_int_inj.
  assert (E : Some (Z.to_int x) = Some (Z.to_int y)).
  { rewrite <- (NilEmpty.isi (Z.to_int x)), <- (NilEmpty.isi (Z.to_int y)), H.
    reflexivity. }
  injection E as E. exact E.
Qed.

Lemma no_colon_uint (d : Decimal.uint) :
  ~ In 58%N (lit (NilEmpty.string_of_uint d)).
Proof.
  induction d; simpl; intros H;
    try (destruct H as [H|H]; [discriminate H | exact (IHd H)]).
  exact H.
Qed.

Lemma no_colon_of_Z (z : Z) : ~ In 58%N (of_Z z).
Proof.
  unfold of_Z. destruct (Z.to_int z) as [d|d]; simpl.
  - apply no_colon_uint.
  - intros [H|H]; [discriminate H | exact (no_colon_uint d H)].
Qed.

Lemma last_colon_split (a b d1 d2 : str) :
  ~ In 58%N d1 -> ~ In 58%N d2 ->
  a ++ 58%N :: d1 = b ++ 58%N :: d2 -> a = b /\ d1 = d2.
Proof.
  revert b. induction a as [|x a IH]; intros [|y b] H1 H2 H; simpl in H.
  - injection H as H. split; [reflexivity | exact H].
  - injection H as Hy H. exfalso. apply H1. rewrite H.
    apply in_or_app. right. left. reflexivity.
  - injection H as Hx H. exfalso. apply H2. rewrite <- H.
    apply in_or_app. right. left. reflexivity.
  - injection H as Hx H. destruct (IH b H1 H2 H) as [-> ->].
    subst. split; reflexivity.
Qed.

(** X8.  The key tells records apart exactly by address and port: two
    records have the same key only if they have the same [ip] and the
    same [port], whatever the address holds (colons of an IPv6 address
    included). *)
Theorem unique_key_injective (p q : ProxyInfo) :
  unique_key p = unique_key q -> ip p = ip q /\ port p = port q.
Proof.
  unfold unique_key. intros H.
  change (ip p ++ 58%N :: of_Z (port p) = ip q ++ 58%N :: of_Z (port q)) in H.
  destruct (last_colon_split _ _ _ _ (no_colon_of_Z _) (no_colon_of_Z _) H)
    as [Hip Hport].
  split; [exact Hip | apply of_Z_inj; exact Hport].
Qed.

Lemma unique_key_injective_witness :
  ip (Scenarios.record_named (lit "Old")) = ip (Scenarios.record_named [])
  /\ port (Scenarios.record_named (lit "Old")) = port (Scenarios.record_named []).
Proof.
  apply (unique_key_injective (Scenarios.record_named (lit "Old"))
           (Scenarios.record_named [])).
  reflexivity.
Defined.

End MergerExtras.

(* ------------------------------------------------------------------ *)
(** ** More on the source manager *)

Module RegistryExtras.

Import PyStr PyDict Parser Registry RegistryOps PyStrFacts PyDictFacts.

Section Removal.

Variable V : Type.

Lemma get_remove_same (k : str) (d : dict V) : get k (remove k d) = None.
Proof.
  induction d as [|[k0 v0] d IH]; simpl; [reflexivity|].
  destruct (eqb k k0) eqn:E; simpl; [exact IH|].
  rewrite E. exact IH.
Qed.

Lemma get_remove_other (k k' : str) (d : dict V) :
  k' <> k -> get k' (remove k d) = get k' d.
Proof.
  intros Hne. induction d as [|[k0 v0] d IH]; simpl; [reflexivity|].
  destruct (eqb k k0) eqn:E; simpl.
  - apply eqb_eq in E. subst k0.
    apply eqb_neq in Hne. rewrite Hne. exact IH.
  - rewrite IH. reflexivity.
Qed.

Lemma remove_absent (k : str) (d : dict V) : get k d = None -> remove k d = d.
Proof.
  induction d as [|[k0 v0] d IH]; simpl; [reflexivity|].
  destruct (eqb k k0) eqn:E; [discriminate|]. simpl.
  intros H. rewrite (IH H). reflexivity.
Qed.

Lemma remove_set_absent (k : str) (v : V) (d : dict V) :
  get k d = None -> remove k (set k v d) = d.
Proof.
  induction d as [|[k0 v0] d IH]; simpl.
  - intros _. rewrite eqb_refl. reflexivity.
  - destruct (eqb k k0) eqn:E; [discriminate|]. simpl. rewrite E. simpl.
    intros H. rewrite (IH H). reflexivity.
Qed.

Lemma has_get (k : str) (d : dict V) :
  has k d = false <-> get k d = None.
Proof.
  unfold has. destruct (get k d); split; intros H; congruence.
Qed.

End Removal.

Section WithClock.

Variable Float : Type.
Variable float_add_int : Float -> Z -> option Float.
Variable float_le : Float -> Float -> bool.
Variable clock : nat -> Float.

(** *** Adding and removing *)

(** X9.  [add_source] never overwrites: it answers [True] exactly when the
    name was free; afterwards the name stands for the source it stood for
    before, or, if it was free, for a fresh enabled source with zeroed
    counters that is scheduled for the time of the call.  Every other
    name stands for what it stood for. *)
Theorem add_source_never_overwrites (m : Manager Float) (n u : str)
  (h : option ProtocolType) (i : Z) :
  let (m', ok) := add_source clock m n u h i in
  ok = negb (has n (sources m)) /\
  get_source_by_name m' n
  = Some (match get_source_by_name m n with
          | Some s => s
          | None => new_source n u h i (clock (ticks m))
          end) /\
  forall n', n' <> n -> get_source_by_name m' n' = get_source_by_name m n'.
Proof.
  unfold add_source, get_source_by_name, has.
  destruct (get n (sources m)) as [s|] eqn:E.
  - rewrite E. repeat split.
  - cbn [sources negb]. split; [reflexivity|]. split.
    + apply get_set_same.
    + intros n' Hne. apply get_set_other. exact Hne.
Qed.

(** X10.  [remove_source] answers whether the name was known; afterwards
    the name is unknown and every other name stands for what it stood
    for. *)
Theorem remove_source_forgets (m : Manager Float) (n : str) :
  let (m', ok) := remove_source m n in
  ok = has n (sources m) /\
  get_source_by_name m' n = None /\
  forall n', n' <> n -> get_source_by_name m' n' = get_source_by_name m n'.
Proof.
  unfold remove_source, get_source_by_name.
  destruct (has n (sources m)) eqn:E; cbn [sources].
  - split; [reflexivity|]. split.
    + apply get_remove_same.
    + intros n' Hne. apply get_remove_other. exact Hne.
  - split; [reflexivity|]. split.
    + apply has_get. exact E.
    + reflexivity.
Qed.

(** X11.  Removing a source that was just added under a free name gives
    back the dictionary of sources as it was, order included; only the
    clock has been read once. *)
Theorem add_then_remove (m : Manager Float) (n u : str)
  (h : option ProtocolType) (i : Z)
  (Hfree : get_source_by_name m n = None) :
  remove_source (fst (add_source clock m n u h i)) n
  = ({| sources := sources m; ticks := S (ticks m) |}, true).
Proof.
  unfold get_source_by_name in Hfree.
  unfold add_source, remove_source, has. rewrite Hfree. cbn [fst sources ticks].
  rewrite get_set_same. rewrite (remove_set_absent _ _ _ _ Hfree). reflexivity.
Qed.

(** *** The sources that are due *)

Lemma due_sources_sound (l : list (ProxySource Float)) (t : nat) :
  t <= snd (due_sources float_le clock l t) /\
  forall s, In s (fst (due_sources float_le clock l t)) ->
    In s l /\ enabled s = true /\
    (next_sync_timestamp s = None \/
     exists stamp t', next_sync_timestamp s = Some stamp /\
                      t <= t' < snd (due_sources float_le clock l t) /\
                      float_le stamp (clock t') = true).
Proof.
  revert t. induction l as [|x l IH]; intros t; simpl.
  - split; [lia | intros s []].
  - destruct (enabled x) eqn:Ex.
    + destruct (next_sync_timestamp x) as [stamp|] eqn:Ens.
      * destruct (IH (S t)) as [Ht Hs].
        destruct (due_sources float_le clock l (S t)) as [r t'].
        cbn [fst snd] in *. split; [lia|].
        intros s Hin.
        assert (Hrest : In s r -> In s (x :: l) /\ enabled s = true /\
                  (next_sync_timestamp s = None \/
                   exists stamp t1, next_sync_timestamp s = Some stamp /\
                                    t <= t1 < t' /\
                                    float_le stamp (clock t1) = true)).
        { intros Hr. destruct (Hs s Hr) as [H1 [H2 H3]].
          split; [right; exact H1|]. split; [exact H2|].
          destruct H3 as [H3|[st [t1 [Ha [Hb Hc]]]]]; [left; exact H3|].
          right. exists st, t1. repeat split; [exact Ha | lia | lia | exact Hc]. }
        destruct (float_le stamp (clock t)) eqn:Ele; [|exact (Hrest Hin)].
        destruct Hin as [<-|Hin]; [|exact (Hrest Hin)].
        split; [left; reflexivity|]. split; [exact Ex|].
        right. exists stamp, t. repeat split; [exact Ens | lia | lia | exact Ele].
      * destruct (IH t) as [Ht Hs].
        destruct (due_sources float_le clock l t) as [r t'].
        cbn [fst snd] in *. split; [exact Ht|].
        intros s [<-|Hin].
        -- split; [left; reflexivity|]. split; [exact Ex|]. left. exact Ens.
        -- destruct (Hs s Hin) as [H1 H2]. split; [right; exact H1 | exact H2].
    + destruct (IH t) as [Ht Hs]. split; [exact Ht|].
      intros s Hin. destruct (Hs s Hin) as [H1 H2].
      split; [right; exact H1 | exact H2].
Qed.

(** X12.  [get_due_sources] changes no source.  Every source it returns
    is one of the enabled sources, and either has no time stamp or has one
    that was not after a reading of the clock taken during the call: a
    reading that the manager had not made before the call and has made
    after it. *)
Theorem due_sources_are_enabled (m : Manager Float) :
  let (due, m') := get_due_sources float_le clock m in
  sources m' = sources m /\
  ticks m <= ticks m' /\
  forall s, In s due ->
    In s (get_enabled_sources m) /\
    (next_sync_timestamp s = None \/
     exists stamp t, next_sync_timestamp s = Some stamp /\
                     ticks m <= t < ticks m' /\
                     float_le stamp (clock t) = true).
Proof.
  unfold get_due_sources, get_enabled_sources.
  destruct (due_sources_sound (values (sources m)) (ticks m)) as [Ht Hs].
  destruct (due_sources float_le clock (values (sources m)) (ticks m)) as [r t].
  cbn [fst snd sources ticks] in *.
  split; [reflexivity|]. split; [exact Ht|].
  intros s Hin. destruct (Hs s Hin) as [H1 [H2 H3]].
  split; [|exact H3]. apply filter_In. split; assumption.
Qed.

Lemma due_sources_complete (l : list (ProxySource Float)) (t : nat)
  (s : ProxySource Float) (stamp : Float) :
  In s l -> enabled s = true -> next_sync_timestamp s = Some stamp ->
  (forall t', t <= t' -> float_le stamp (clock t') = true) ->
  In s (fst (due_sources float_le clock l t)).
Proof.
  revert t. induction l as [|x l IH]; intros t Hin He Hn Hle; [destruct Hin|].
  simpl. destruct Hin as [->|Hin].
  - rewrite He, Hn.
    destruct (due_sources float_le clock l (S t)) as [r t'].
    rewrite (Hle t (Nat.le_refl t)). left. reflexivity.
  - destruct (enabled x).
    + destruct (next_sync_timestamp x) as [st|].
      * assert (H := IH (S t) Hin He Hn
                       (fun t' Ht => Hle t' (Nat.le_trans _ _ _ (Nat.le_succ_diag_r t) Ht))).
        destruct (due_sources float_le clock l (S t)) as [r t']. cbn [fst] in *.
        destruct (float_le st (clock t)); [right|]; exact H.
      * assert (H := IH t Hin He Hn Hle).
        destruct (due_sources float_le clock l t) as [r t']. cbn [fst] in *.
        right. exact H.
    + apply IH; assumption.
Qed.

(** X13.  A source that has just been added is due at once, and so is a
    source that has just been switched on, as long as the clock does not
    read less after the call than it read during it. *)
Theorem added_or_enabled_source_is_due (m : Manager Float) (n u : str)
  (h : option ProtocolType) (i : Z)
  (Hclock : forall t, ticks m <= t ->
              float_le (clock (ticks m)) (clock t) = true) :
  (get_source_by_name m n = None ->
   In (new_source n u h i (clock (ticks m)))
      (fst (get_due_sources float_le clock
              (fst (add_source clock m n u h i))))) /\
  (forall s, get_source_by_name m n = Some s ->
   In (set_next_sync_timestamp (clock (ticks m)) (set_enabled true s))
      (fst (get_due_sources float_le clock
              (fst (enable_source clock m n true))))).
Proof.
  unfold get_source_by_name. split.
  - intros Hfree. unfold add_source, has. rewrite Hfree. cbn [fst].
    unfold get_due_sources. cbn [sources ticks].
    pose proof (due_sources_complete
                  (values (set n (new_source n u h i (clock (ticks m))) (sources m)))
                  (S (ticks m)) (new_source n u h i (clock (ticks m)))
                  (clock (ticks m))) as H.
    destruct (due_sources _ _ _ _) as [r t]. cbn [fst] in *.
    apply H.
    + apply (get_in_values _ n). apply get_set_same.
    + reflexivity.
    + reflexivity.
    + intros t' Ht. apply Hclock. lia.
  - intros s Hs. unfold enable_source. rewrite Hs. cbn [fst].
    unfold get_due_sources. cbn [sources ticks].
    pose proof (due_sources_complete
                  (values (set n (set_next_sync_timestamp (clock (ticks m))
                                    (set_enabled true s)) (sources m)))
                  (S (ticks m))
                  (set_next_sync_timestamp (clock (ticks m)) (set_enabled true s))
                  (clock (ticks m))) as H.
    destruct (due_sources _ _ _ _) as [r t]. cbn [fst] in *.
    apply H.
    + apply (get_in_values _ n). apply get_set_same.
    + reflexivity.
    + reflexivity.
    + intros t' Ht. apply Hclock. lia.
Qed.

(** *** Statistics and settings *)

(** X14.  [update_source_stats] counts every attempt exactly once, also
    when the new time stamp overflows: for a known source the sum of the
    two counters grows by one, the number of proxies is recorded on
    success only, and switch, address and interval stay as they were.
    Other sources are not touched, and for an unknown name nothing
    happens at all. *)
Theorem update_source_stats_counts_once (m : Manager Float) (n : str)
  (success : bool) (proxy_count : Z) :
  let m' := fst (update_source_stats float_add_int clock m n success proxy_count) in
  (forall n', n' <> n -> get n' (sources m') = get n' (sources m)) /\
  match get n (sources m) with
  | None => m' = m
  | Some s =>
      exists s', get n (sources m') = Some s' /\
        (success_count s' + fail_count s' = success_count s + fail_count s + 1)%Z /\
        success_count s' = (if success then success_count s + 1 else success_count s)%Z /\
        last_proxy_count s' = (if success then proxy_count else last_proxy_count s) /\
        last_sync s' = Some (clock (ticks m)) /\
        enabled s' = enabled s /\ url s' = url s /\
        sync_interval_minutes s' = sync_interval_minutes s
  end.
Proof.
  cbv zeta. unfold update_source_stats.
  destruct (get n (sources m)) as [s|] eqn:E.
  - destruct (float_add_int _ _) as [t|]; cbn [fst sources].
    + split; [intros n' Hne; apply get_set_other; exact Hne|].
      eexists. split; [apply get_set_same|].
      destruct success; cbn; repeat split; lia.
    + split; [intros n' Hne; apply get_set_other; exact Hne|].
      eexists. split; [apply get_set_same|].
      destruct success; cbn; repeat split; lia.
  - cbn [fst]. split; reflexivity.
Qed.

(** X15.  Updating the statistics, switching a source and setting its
    interval never add, remove or reorder a source: the names of the
    dictionary are the same afterwards, whatever the answer. *)
Theorem settings_keep_the_names (m : Manager Float) (n : str) :
  (forall success proxy_count,
     keys (sources (fst (update_source_stats float_add_int clock m n
                           success proxy_count)))
     = keys (sources m)) /\
  (forall b, keys (sources (fst (enable_source clock m n b))) = keys (sources m)) /\
  (forall i, keys (sources (fst (set_source_interval float_add_int clock m n i)))
             = keys (sources m)).
Proof.
  split; [|split].
  - intros success proxy_count. unfold update_source_stats.
    destruct (get n (sources m)) as [s|] eqn:E; [|reflexivity].
    destruct (float_add_int _ _); cbn [fst sources];
      apply (keys_set_present _ _ _ s); exact E.
  - intros b. unfold enable_source.
    destruct (get n (sources m)) as [s|] eqn:E; [|reflexivity].
    destruct b; cbn [fst sources]; apply (keys_set_present _ _ _ s); exact E.
  - intros i. unfold set_source_interval.
    destruct (get n (sources m)) as [s|] eqn:E; [|reflexivity].
    destruct (float_add_int _ _); cbn [fst sources];
      apply (keys_set_present _ _ _ s); exact E.
Qed.

(** X16.  [set_source_interval] assigns the interval before it computes
    the time stamp.  When the addition overflows the call raises, yet the
    source already has the new interval, together with its old time
    stamp. *)
Theorem set_source_interval_overflow (m : Manager Float) (n : str) (i : Z)
  (s : ProxySource Float)
  (Hknown : get_source_by_name m n = Some s)
  (Hover : float_add_int (clock (ticks m)) (i * 60) = None) :
  let (m', answer) := set_source_interval float_add_int clock m n i in
  answer = None /\
  exists s', get_source_by_name m' n = Some s' /\
    sync_interval_minutes s' = i /\
    next_sync_timestamp s' = next_sync_timestamp s.
Proof.
  unfold get_source_by_name in *. unfold set_source_interval.
  rewrite Hknown, Hover. split; [reflexivity|].
  eexists. split; [apply get_set_same|]. split; reflexivity.
Qed.

(** X17.  Switching a source off keeps its schedule and reads no clock;
    switching it on schedules it for the time of the call.  Either way
    the counters and the interval stay, and no other source changes. *)
Theorem enable_source_schedule (m : Manager Float) (n : str) (b : bool)
  (s : ProxySource Float) (Hknown : get_source_by_name m n = Some s) :
  let (m', ok) := enable_source clock m n b in
  ok = true /\
  ticks m' = (if b then S (ticks m) else ticks m) /\
  (forall n', n' <> n -> get_source_by_name m' n' = get_source_by_name m n') /\
  exists s', get_source_by_name m' n = Some s' /\
    enabled s' = b /\
    next_sync_timestamp s'
    = (if b then Some (clock (ticks m)) else next_sync_timestamp s) /\
    success_count s' = success_count s /\ fail_count s' = fail_count s /\
    sync_interval_minutes s' = sync_interval_minutes s.
Proof.
  unfold get_source_by_name in *. unfold enable_source. rewrite Hknown.
  destruct b; cbn [sources ticks].
  - split; [reflexivity|]. split; [reflexivity|].
    split; [intros n' Hne; apply get_set_other; exact Hne|].
    eexists. split; [apply get_set_same|]. repeat split.
  - split; [reflexivity|]. split; [reflexivity|].
    split; [intros n' Hne; apply get_set_other; exact Hne|].
    eexists. split; [apply get_set_same|]. repeat split.
Qed.

End WithClock.

Lemma add_then_remove_witness :
  remove_source
    (fst (add_source Scenarios.fixed_clock Scenarios.scenario_6_manager
            (lit "second") (lit "http://example.org/second") None 30))
    (lit "second")
  = ({| sources := sources Scenarios.scenario_6_manager;
        ticks := S (ticks Scenarios.scenario_6_manager) |}, true).
Proof.
  apply (add_then_remove Z Scenarios.fixed_clock Scenarios.scenario_6_manager
           (lit "second") (lit "http://example.org/second") None 30).
  reflexivity.
Defined.

(** With a clock that reads 1000 at every call, the source "second" is
    due once it has been added. *)
Lemma added_or_enabled_source_is_due_witness :
  In (new_source (lit "second") (lit "http://example.org/second") None 30 1000%Z)
     (fst (get_due_sources Z.leb Scenarios.fixed_clock
             (fst (add_source Scenarios.fixed_clock Scenarios.scenario_6_manager
                     (lit "second") (lit "http://example.org/second") None 30)))).
Proof.
  apply (proj1 (added_or_enabled_source_is_due Z Z.leb Scenarios.fixed_clock
                  Scenarios.scenario_6_manager
                  (lit "second") (lit "http://example.org/second") None 30
                  (fun t _ => eq_refl))).
  reflexivity.
Defined.

(** Scenario 6 with an addition that overflows: the interval of "main"
    becomes 90, the time stamp stays unset. *)
Lemma set_source_interval_overflow_witness :
  let (m', answer) :=
    set_source_interval MoreScenarios.no_sum Scenarios.fixed_clock
      Scenarios.scenario_6_manager (lit "main") 90 in
  answer = None /\
  exists s', get_source_by_name m' (lit "main") = Some s' /\
    sync_interval_minutes s' = 90%Z /\
    next_sync_timestamp s' = None.
Proof.
  apply (set_source_interval_overflow Z MoreScenarios.no_sum
           Scenarios.fixed_clock Scenarios.scenario_6_manager (lit "main") 90
           Scenarios.scenario_6_source eq_refl eq_refl).
Defined.

Lemma enable_source_schedule_witness :
  let (m', ok) :=
    enable_source Scenarios.fixed_clock Scenarios.scenario_6_manager
      (lit "main") false in
  ok = true /\
  ticks m' = 0 /\
  (forall n', n' <> lit "main" ->
     get_source_by_name m' n'
     = get_source_by_name Scenarios.scenario_6_manager n') /\
  exists s', get_source_by_name m' (lit "main") = Some s' /\
    enabled s' = false /\
    next_sync_timestamp s' = None /\
    success_count s' = 0%Z /\ fail_count s' = 0%Z /\
    sync_interval_minutes s' = 60%Z.
Proof.
  apply (enable_source_schedule Z Scenarios.fixed_clock
           Scenarios.scenario_6_manager (lit "main") false
           Scenarios.scenario_6_source eq_refl).
Defined.

End RegistryExtras.

(* ------------------------------------------------------------------ *)
(** ** More on the normaliser and the detection *)

Module CodecFacts.

Import PyStr Codec PyStrFacts.
Local Open Scope N_scope.

Lemma b64_value_bound (c v : N) : b64_value c = Some v -> v < 64.
Proof.
  unfold b64_value, is_upper_ascii, is_lower_ascii, is_digit_ascii.
  destruct ((65 <=? c) && (c <=? 90)) eqn:E1.
  { apply andb_true_iff in E1. destruct E1 as [A B].
    apply N.leb_le in A, B. intros H. injection H as <-. lia. }
  destruct ((97 <=? c) && (c <=? 122)) eqn:E2.
  { apply andb_true_iff in E2. destruct E2 as [A B].
    apply N.leb_le in A, B. intros H. injection H as <-. lia. }
  destruct ((48 <=? c) && (c <=? 57)) eqn:E3.
  { apply andb_true_iff in E3. destruct E3 as [A B].
    apply N.leb_le in A, B. intros H. injection H as <-. lia. }
  destruct (c =? 43); [intros H; injection H as <-; lia|].
  destruct (c =? 47); [intros H; injection H as <-; lia|].
  discriminate.
Qed.

(** One turn of the loop on a character that is not the padding. *)
Lemma a2b_loop_step (quad leftchar pads : N) (acc : bytes) (c : N)
  (rest : bytes) :
  c <> 61 ->
  a2b_loop quad leftchar pads acc (c :: rest)
  = match b64_value c with
    | None => a2b_loop quad leftchar pads acc rest
    | Some v =>
        if quad =? 0 then a2b_loop 1 v 0 acc rest
        else if quad =? 1 then
          a2b_loop 2 (N.land v 15) 0
                   (N.lor (N.shiftl leftchar 2) (N.shiftr v 4) :: acc) rest
        else if quad =? 2 then
          a2b_loop 3 (N.land v 3) 0
                   (N.lor (N.shiftl leftchar 4) (N.shiftr v 2) :: acc) rest
        else
          a2b_loop 0 0 0 (N.lor (N.shiftl leftchar 6) v :: acc) rest
    end.
Proof.
  intros Hc. apply N.eqb_neq in Hc.
  cbn [a2b_loop]. rewrite Hc. reflexivity.
Qed.

Lemma a2b_loop_pad (quad leftchar pads : N) (acc : bytes) (rest : bytes) :
  a2b_loop quad leftchar pads acc (61 :: rest)
  = if (2 <=? quad) && (4 <=? quad + (pads + 1)) then Some (rev acc)
    else a2b_loop quad leftchar (if 2 <=? quad then pads + 1 else pads) acc rest.
Proof. reflexivity. Qed.

(** The bytes written so far are part of the output. *)
Lemma a2b_loop_acc (data : bytes) :
  forall quad leftchar pads acc out,
    a2b_loop quad leftchar pads acc data = Some out ->
    forall x, In x acc -> In x out.
Proof.
  induction data as [|c rest IH]; intros quad leftchar pads acc out H x Hx.
  - cbn [a2b_loop] in H. destruct (quad =? 0); [|discriminate].
    injection H as <-. apply in_rev in Hx. exact Hx.
  - destruct (N.eq_dec c 61) as [->|Hc].
    + rewrite a2b_loop_pad in H.
      destruct ((2 <=? quad) && (4 <=? quad + (pads + 1))).
      * injection H as <-. apply in_rev in Hx. exact Hx.
      * exact (IH _ _ _ _ _ H x Hx).
    + rewrite (a2b_loop_step _ _ _ _ _ _ Hc) in H.
      destruct (b64_value c) as [v|]; [|exact (IH _ _ _ _ _ H x Hx)].
      destruct (quad =? 0); [exact (IH _ _ _ _ _ H x Hx)|].
      destruct (quad =? 1); [exact (IH _ _ _ _ _ H x (or_intror Hx))|].
      destruct (quad =? 2); exact (IH _ _ _ _ _ H x (or_intror Hx)).
Qed.

Lemma lor_252 (v : N) : v < 64 -> 252 <= N.lor 252 (N.shiftr v 4).
Proof.
  intros Hv. rewrite N.shiftr_div_pow2. change (2 ^ 4) with 16.
  assert (Hk : v / 16 < 4).
  { apply N.Div0.div_lt_upper_bound. exact Hv. }
  remember (v / 16) as k eqn:Ek. clear Ek Hv.
  assert (Hc : k = 0 \/ k = 1 \/ k = 2 \/ k = 3) by lia.
  destruct Hc as [->|[->|[->| ->]]]; vm_compute; discriminate.
Qed.

(** After a [/] that opens a group, the next digit completes a byte of at
    least 252; without a next digit the input ends inside the group. *)
Lemma a2b_loop_after_slash (data : bytes) :
  forall pads acc out,
    a2b_loop 1 63 pads acc data = Some out ->
    exists x, In x out /\ 252 <= x.
Proof.
  induction data as [|c rest IH]; intros pads acc out H.
  - discriminate H.
  - destruct (N.eq_dec c 61) as [->|Hc].
    + rewrite a2b_loop_pad in H. cbn [N.leb N.compare Pos.compare Pos.compare_cont andb] in H.
      change ((2 <=? 1) && (4 <=? 1 + (pads + 1))) with false in H.
      change (if 2 <=? 1 then pads + 1 else pads) with pads in H.
      exact (IH _ _ _ H).
    + rewrite (a2b_loop_step _ _ _ _ _ _ Hc) in H.
      destruct (b64_value c) as [v|] eqn:Ev; [|exact (IH _ _ _ H)].
      change (1 =? 0) with false in H. change (1 =? 1) with true in H.
      cbv iota in H.
      exists (N.lor (N.shiftl 63 2) (N.shiftr v 4)). split.
      * apply (a2b_loop_acc _ _ _ _ _ _ H). left. reflexivity.
      * change (N.shiftl 63 2) with 252. apply lor_252.
        apply (b64_value_bound c). exact Ev.
Qed.

(** Two adjacent [/] ahead of any padding: the decoding fails or writes a
    byte of at least 252. *)
Lemma a2b_loop_slashes (pre post : bytes) :
  ~ In 61 pre ->
  forall quad leftchar pads acc out,
    a2b_loop quad leftchar pads acc (pre ++ 47 :: 47 :: post) = Some out ->
    exists x, In x out /\ 252 <= x.
Proof.
  induction pre as [|c pre IH]; intros Hpre quad leftchar pads acc out H.
  - cbn [app] in H.
    rewrite a2b_loop_step in H by discriminate.
    change (b64_value 47) with (Some 63) in H. cbv iota beta in H.
    destruct (quad =? 0).
    { rewrite a2b_loop_step in H by discriminate.
      change (b64_value 47) with (Some 63) in H. cbv iota beta in H.
      change (1 =? 0) with false in H. change (1 =? 1) with true in H.
      cbv iota in H.
      exists 255. split; [|discriminate].
      apply (a2b_loop_acc _ _ _ _ _ _ H). left. reflexivity. }
    destruct (quad =? 1).
    { rewrite a2b_loop_step in H by discriminate.
      change (b64_value 47) with (Some 63) in H. cbv iota beta in H.
      change (2 =? 0) with false in H. change (2 =? 1) with false in H.
      change (2 =? 2) with true in H. cbv iota in H.
      exists 255. split; [|discriminate].
      apply (a2b_loop_acc _ _ _ _ _ _ H). left. reflexivity. }
    destruct (quad =? 2).
    { rewrite a2b_loop_step in H by discriminate.
      change (b64_value 47) with (Some 63) in H. cbv iota beta in H.
      change (3 =? 0) with false in H. change (3 =? 1) with false in H.
      change (3 =? 2) with false in H. cbv iota in H.
      exists 255. split; [|discriminate].
      apply (a2b_loop_acc _ _ _ _ _ _ H). left. reflexivity. }
    rewrite a2b_loop_step in H by discriminate.
    change (b64_value 47) with (Some 63) in H. cbv iota beta in H.
    change (0 =? 0) with true in H. cbv iota in H.
    exact (a2b_loop_after_slash _ _ _ _ H).
  - assert (Hc : c <> 61) by (intros E; apply Hpre; left; exact E).
    assert (Hpre' : ~ In 61 pre) by (intros E; apply Hpre; right; exact E).
    cbn [app] in H. rewrite (a2b_loop_step _ _ _ _ _ _ Hc) in H.
    destruct (b64_value c) as [v|]; [|exact (IH Hpre' _ _ _ _ _ H)].
    destruct (quad =? 0); [exact (IH Hpre' _ _ _ _ _ H)|].
    destruct (quad =? 1); [exact (IH Hpre' _ _ _ _ _ H)|].
    destruct (quad =? 2); exact (IH Hpre' _ _ _ _ _ H).
Qed.

(** A text that decodes from UTF-8 has no byte above 244. *)
Lemma utf8_decode_bound (n : nat) :
  forall b s, (List.length b <= n)%nat -> utf8_decode b = Some s ->
              forall x, In x b -> x < 245.
Proof.
  induction n as [|n IH]; intros b s Hlen H x Hx.
  - destruct b; [destruct Hx | cbn in Hlen; lia].
  - destruct b as [|b0 r0]; [destruct Hx|]. cbn [List.length] in Hlen.
    cbn [utf8_decode] in H.
    destruct (b0 <? 128) eqn:E0.
    { apply N.ltb_lt in E0.
      destruct (utf8_decode r0) as [s0|] eqn:E; [|discriminate].
      destruct Hx as [<-|Hx]; [lia|].
      apply (IH r0 s0); [lia | exact E | exact Hx]. }
    destruct ((194 <=? b0) && (b0 <=? 223)) eqn:E1.
    { apply andb_true_iff in E1. destruct E1 as [_ B]. apply N.leb_le in B.
      destruct r0 as [|b1 r1]; [discriminate|].
      destruct (is_cont b1) eqn:C1; [|discriminate].
      unfold is_cont in C1. apply andb_true_iff in C1. destruct C1 as [_ C1].
      apply N.leb_le in C1.
      destruct (utf8_decode r1) as [s1|] eqn:E; [|discriminate].
      cbn [List.length] in Hlen.
      destruct Hx as [<-|[<-|Hx]]; [lia | lia |].
      apply (IH r1 s1); [lia | exact E | exact Hx]. }
    destruct ((224 <=? b0) && (b0 <=? 239)) eqn:E2.
    { apply andb_true_iff in E2. destruct E2 as [_ B]. apply N.leb_le in B.
      destruct r0 as [|b1 [|b2 r2]]; try discriminate.
      destruct (is_cont b1) eqn:C1; [|discriminate].
      destruct (is_cont b2) eqn:C2; [|discriminate].
      unfold is_cont in C1, C2.
      apply andb_true_iff in C1. destruct C1 as [_ C1]. apply N.leb_le in C1.
      apply andb_true_iff in C2. destruct C2 as [_ C2]. apply N.leb_le in C2.
      cbn [andb] in H.
      match type of H with
      | (if ?c then _ else _) = _ => destruct c; [|discriminate]
      end.
      destruct (utf8_decode r2) as [s2|] eqn:E; [|discriminate].
      cbn [List.length] in Hlen.
      destruct Hx as [<-|[<-|[<-|Hx]]]; [lia | lia | lia |].
      apply (IH r2 s2); [lia | exact E | exact Hx]. }
    destruct ((240 <=? b0) && (b0 <=? 244)) eqn:E3; [|discriminate].
    apply andb_true_iff in E3. destruct E3 as [_ B]. apply N.leb_le in B.
    destruct r0 as [|b1 [|b2 [|b3 r3]]]; try discriminate.
    destruct (is_cont b1) eqn:C1; [|discriminate].
    destruct (is_cont b2) eqn:C2; [|discriminate].
    destruct (is_cont b3) eqn:C3; [|discriminate].
    unfold is_cont in C1, C2, C3.
    apply andb_true_iff in C1. destruct C1 as [_ C1]. apply N.leb_le in C1.
    apply andb_true_iff in C2. destruct C2 as [_ C2]. apply N.leb_le in C2.
    apply andb_true_iff in C3. destruct C3 as [_ C3]. apply N.leb_le in C3.
    cbn [andb] in H.
    match type of H with
    | (if ?c then _ else _) = _ => destruct c; [|discriminate]
    end.
    destruct (utf8_decode r3) as [s3|] eqn:E; [|discriminate].
    cbn [List.length] in Hlen.
    destruct Hx as [<-|[<-|[<-|[<-|Hx]]]]; [lia | lia | lia | lia |].
    apply (IH r3 s3); [lia | exact E | exact Hx].
Qed.

(** The bytes of base64 data with [//] ahead of any padding are not a
    UTF-8 text. *)
Lemma slashes_not_text (pre post : bytes) :
  ~ In 61 pre -> decode_text (a2b_base64 (pre ++ 47 :: 47 :: post)) = None.
Proof.
  intros Hpre. unfold decode_text, a2b_base64.
  destruct (a2b_loop 0 0 0 [] (pre ++ 47 :: 47 :: post)) as [out|] eqn:E;
    [|reflexivity].
  destruct (a2b_loop_slashes pre post Hpre _ _ _ _ _ E) as [x [Hx Hle]].
  destruct (utf8_decode out) as [s|] eqn:D; [|reflexivity].
  pose proof (utf8_decode_bound (List.length out) out s (Nat.le_refl _) D x Hx).
  lia.
Qed.

(** Deleting a character is filtering it out. *)
Lemma replace_char (c : N) (t : str) :
  replace [c] [] t = filter (fun x => negb (x =? c)) t.
Proof.
  unfold replace. induction t as [|x t IH]; [reflexivity|].
  cbn [replace_go startswith filter].
  replace (startswith t []) with true by (destruct t; reflexivity).
  rewrite andb_true_r, N.eqb_sym.
  destruct (x =? c); cbn [negb List.length Nat.pred app]; rewrite IH; reflexivity.
Qed.

End CodecFacts.

Module ParserExtras.

Import PyStr PyDict Codec Parser Schemes PyStrFacts ParserFacts CodecFacts.

Lemma startswith_app (p t : str) :
  startswith t p = true -> t = p ++ skipn (List.length p) t.
Proof.
  revert t. induction p as [|x p IH]; intros t H; [reflexivity|].
  destruct t as [|y t]; [discriminate H|]. cbn [startswith] in H.
  apply andb_true_iff in H. destruct H as [Hxy H].
  apply N.eqb_eq in Hxy. subst y.
  cbn [List.length skipn app]. rewrite <- (IH t H). reflexivity.
Qed.

Lemma startswith_prefix (p r : str) : startswith (p ++ r) p = true.
Proof.
  induction p as [|x p IH]; [destruct r; reflexivity|].
  cbn [app startswith]. rewrite N.eqb_refl. exact IH.
Qed.

(** A text that starts with one of the schemes has [//] after a prefix
    without [=]. *)
Lemma prefix_match_slashes (rt : PyRuntime) (t : str) (p : ProtocolType) :
  prefix_match t = Some p ->
  exists pre post, t = pre ++ lit "//" ++ post /\ ~ In 61%N pre.
Proof.
  unfold prefix_match. intros H.
  assert (Hgo : forall scheme pre,
             scheme = pre ++ lit "//" -> ~ In 61%N pre ->
             startswith t scheme = true ->
             exists pre post, t = pre ++ lit "//" ++ post /\ ~ In 61%N pre).
  { intros scheme pre -> Hpre Hs. apply startswith_app in Hs.
    exists pre, (skipn (List.length (pre ++ lit "//")) t).
    split; [|exact Hpre]. rewrite app_assoc. exact Hs. }
  destruct (startswith t (lit "vless://")) eqn:E1.
  { apply (Hgo _ (lit "vless:") eq_refl); [|exact E1].
    vm_compute. intuition discriminate. }
  destruct (startswith t (lit "vmess://")) eqn:E2.
  { apply (Hgo _ (lit "vmess:") eq_refl); [|exact E2].
    vm_compute. intuition discriminate. }
  destruct (startswith t (lit "trojan://")) eqn:E3.
  { apply (Hgo _ (lit "trojan:") eq_refl); [|exact E3].
    vm_compute. intuition discriminate. }
  destruct (startswith t (lit "hy2://")) eqn:E4.
  { apply (Hgo _ (lit "hy2:") eq_refl); [|exact E4].
    vm_compute. intuition discriminate. }
  destruct (startswith t (lit "hysteria2://")) eqn:E5.
  { apply (Hgo _ (lit "hysteria2:") eq_refl); [|exact E5].
    vm_compute. intuition discriminate. }
  cbn [orb] in H.
  destruct (startswith t (lit "ssr://")) eqn:E6.
  { apply (Hgo _ (lit "ssr:") eq_refl); [|exact E6].
    vm_compute. intuition discriminate. }
  destruct (startswith t (lit "ss://")) eqn:E7; [|discriminate H].
  apply (Hgo _ (lit "ss:") eq_refl); [|exact E7].
  vm_compute. intuition discriminate.
Qed.

Section Detection.

Variable rt : PyRuntime.

Local Open Scope N_scope.

(** *** Links are not base64 *)

Lemma urlsafe_translate_pad (c : N) : urlsafe_translate c = 61 -> c = 61.
Proof.
  unfold urlsafe_translate.
  destruct (c =? 45); [discriminate|]. destruct (c =? 95); [discriminate|].
  intros H. exact H.
Qed.

Lemma decode_attempt_slashes (pre post : str) (m : str -> option bytes) :
  ~ In 61 pre -> In m decode_methods ->
  decode_attempt m (pre ++ lit "//" ++ post) = None.
Proof.
  intros Hpre Hm. unfold decode_attempt.
  change (lit "//" ++ post) with (47 :: 47 :: post).
  destruct Hm as [<-|[<-|[<-|[<-|[]]]]].
  - unfold b64decode. destruct (is_ascii _); [|reflexivity].
    apply slashes_not_text. exact Hpre.
  - unfold urlsafe_b64decode. destruct (is_ascii _); [|reflexivity].
    rewrite <- app_assoc, map_app. cbn [app map].
    change (urlsafe_translate 47) with 47.
    apply slashes_not_text.
    intros Hin. apply in_map_iff in Hin. destruct Hin as [y [Hy Hin]].
    apply urlsafe_translate_pad in Hy. subst y. exact (Hpre Hin).
  - unfold b64decode. destruct (is_ascii _); [|reflexivity].
    rewrite <- app_assoc. cbn [app].
    apply slashes_not_text. exact Hpre.
  - unfold b64decode. destruct (is_ascii _); [|reflexivity].
    rewrite !replace_char, !filter_app. cbn [filter N.eqb Pos.eqb negb].
    apply slashes_not_text.
    intros Hin. apply filter_In in Hin. destruct Hin as [Hin _].
    apply filter_In in Hin. destruct Hin as [Hin _]. exact (Hpre Hin).
Qed.

Lemma link_not_decoded (content pre post : str) :
  strip content = pre ++ lit "//" ++ post -> ~ In 61 pre ->
  (forall m, In m decode_methods -> decode_attempt m (strip content) = None) /\
  try_base64_decode rt content = strip content.
Proof.
  intros Hlink Hpad.
  assert (H : forall m, In m decode_methods ->
                        decode_attempt m (strip content) = None).
  { intros m Hm. rewrite Hlink. apply decode_attempt_slashes; assumption. }
  split; [exact H|].
  apply try_base64_decode_unaccepted.
  intros m d Hm Hd. rewrite (H m Hm) in Hd. discriminate Hd.
Qed.

(** X18.  A text in which [//] comes before any [=] is not taken for
    base64: none of the four decodings of its trimmed form gives a UTF-8
    text, and the normaliser returns the trimmed text. *)
Theorem plain_link_is_kept (content pre post : str)
  (Hlink : strip content = pre ++ lit "//" ++ post)
  (Hpad : ~ In 61 pre) :
  (forall m, In m decode_methods -> decode_attempt m (strip content) = None) /\
  try_base64_decode rt content = strip content.
Proof. exact (link_not_decoded content pre post Hlink Hpad). Qed.

Lemma detect_protocol_prefix (content : str) (p : ProtocolType) :
  prefix_match (strip content) = Some p ->
  try_base64_decode rt content = strip content /\
  detect_protocol rt content = p.
Proof.
  intros Hscheme.
  destruct (prefix_match_slashes rt _ _ Hscheme) as [pre [post [Hlink Hpad]]].
  destruct (link_not_decoded content pre post Hlink Hpad) as [_ E].
  split; [exact E|].
  unfold detect_protocol. rewrite E, strip_idempotent.
  unfold classify. rewrite Hscheme. reflexivity.
Qed.

(** X19.  A text whose trimmed form starts with a scheme is classified by
    that scheme: it is not decoded, and neither the YAML test nor the
    frequency scan is reached. *)
Theorem detect_protocol_of_link (content : str) (p : ProtocolType)
  (Hscheme : prefix_match (strip content) = Some p) :
  try_base64_decode rt content = strip content /\
  detect_protocol rt content = p.
Proof. exact (detect_protocol_prefix content p Hscheme). Qed.

(** *** The result of the normaliser *)

Lemma try_decode_methods_trimmed (methods : list (str -> option bytes))
  (original : str) :
  strip original = original ->
  strip (try_decode_methods rt methods original)
  = try_decode_methods rt methods original.
Proof.
  intros Ho. induction methods as [|m methods IH]; cbn [try_decode_methods];
    [exact Ho|].
  destruct (decode_attempt m original) as [d|]; [|exact IH].
  destruct (contains_protocol_identifier rt d); [|exact IH].
  apply strip_idempotent.
Qed.

Lemma try_base64_decode_trimmed (content : str) :
  strip (try_base64_decode rt content) = try_base64_decode rt content.
Proof.
  unfold try_base64_decode. apply try_decode_methods_trimmed.
  apply strip_idempotent.
Qed.

Lemma detect_protocol_classify (content : str) :
  detect_protocol rt content = classify rt (try_base64_decode rt content).
Proof. unfold detect_protocol. rewrite try_base64_decode_trimmed. reflexivity. Qed.

(** X20.  The normaliser returns a trimmed text and does not look at the
    white space around its input.  So the trimming [detect_protocol] does
    after it changes nothing, and the protocol of a text is the protocol
    of its trimmed form. *)
Theorem normaliser_trims (content : str) :
  strip (try_base64_decode rt content) = try_base64_decode rt content /\
  try_base64_decode rt (strip content) = try_base64_decode rt content /\
  detect_protocol rt content = classify rt (try_base64_decode rt content) /\
  detect_protocol rt (strip content) = detect_protocol rt content.
Proof.
  pose proof (try_base64_decode_trimmed content) as H1.
  assert (H2 : try_base64_decode rt (strip content)
               = try_base64_decode rt content).
  { unfold try_base64_decode. rewrite strip_idempotent. reflexivity. }
  split; [exact H1|]. split; [exact H2|]. split.
  - apply detect_protocol_classify.
  - unfold detect_protocol. rewrite H2. reflexivity.
Qed.

(** *** What a detected protocol tells *)

Lemma match_char_same (x : N) : match_char_ignorecase rt x x = true.
Proof.
  unfold match_char_ignorecase.
  destruct (is_lower_ascii x) eqn:E; [|apply N.eqb_refl].
  unfold is_lower_ascii in E. apply andb_true_iff in E. destruct E as [A B].
  apply N.leb_le in A, B.
  unfold re_tolower, ascii_tolower, is_upper_ascii.
  replace (x <? 128) with true by (symmetry; apply N.ltb_lt; lia).
  replace (x <=? 90) with false by (symmetry; apply N.leb_gt; lia).
  rewrite andb_false_r, N.eqb_refl. reflexivity.
Qed.

Lemma startswith_match (p t : str) :
  startswith t p = true -> match_literal_ignorecase rt p t = true.
Proof.
  revert t. induction p as [|x p IH]; intros t H; [reflexivity|].
  destruct t as [|y t]; [discriminate H|]. cbn [startswith] in H.
  apply andb_true_iff in H. destruct H as [Hxy H].
  apply N.eqb_eq in Hxy. subst y.
  cbn [match_literal_ignorecase]. rewrite match_char_same. apply IH. exact H.
Qed.

Lemma match_alternatives_in (alts : list str) (t : str) (n : nat) :
  match_alternatives rt alts t = Some n ->
  exists alt, In alt alts /\ match_literal_ignorecase rt alt t = true.
Proof.
  induction alts as [|a alts IH]; cbn [match_alternatives]; [discriminate|].
  destruct (match_literal_ignorecase rt a t) eqn:E.
  - intros _. exists a. split; [left; reflexivity | exact E].
  - intros H. destruct (IH H) as [alt [Hin Hm]].
    exists alt. split; [right; exact Hin | exact Hm].
Qed.

Lemma count_matches_nonneg (alts : list str) (t : str) :
  forall prev skip, (0 <= count_matches rt alts prev skip t)%Z.
Proof.
  induction t as [|c t IH]; intros prev skip; cbn [count_matches]; [lia|].
  destruct skip as [|k]; [|apply IH].
  destruct (negb _); [|apply IH].
  destruct (match_alternatives rt alts (c :: t)); [|apply IH].
  pose proof (IH (Some c) (Nat.pred n)). lia.
Qed.

(** A counted match is an occurrence of one of the alternatives. *)
Lemma count_matches_occurrence (alts : list str) (t : str) :
  forall prev skip,
    (0 < count_matches rt alts prev skip t)%Z ->
    exists alt pre post,
      In alt alts /\ t = pre ++ post /\
      match_literal_ignorecase rt alt post = true.
Proof.
  induction t as [|c t IH]; intros prev skip H; cbn [count_matches] in H;
    [lia|].
  assert (Hrec : forall prev' skip',
             (0 < count_matches rt alts prev' skip' t)%Z ->
             exists alt pre post,
               In alt alts /\ c :: t = pre ++ post /\
               match_literal_ignorecase rt alt post = true).
  { intros prev' skip' H'.
    destruct (IH prev' skip' H') as [alt [pre [post [Hin [Ht Hm]]]]].
    exists alt, (c :: pre), post. split; [exact Hin|].
    split; [rewrite Ht; reflexivity | exact Hm]. }
  destruct skip as [|k]; [|exact (Hrec _ _ H)].
  destruct (negb _); [|exact (Hrec _ _ H)].
  destruct (match_alternatives rt alts (c :: t)) as [n|] eqn:E;
    [|exact (Hrec _ _ H)].
  destruct (match_alternatives_in _ _ _ E) as [alt [Hin Hm]].
  exists alt, [], (c :: t). split; [exact Hin|]. split; [reflexivity | exact Hm].
Qed.

Lemma count_scheme_occurrence (alts : list str) (t : str) :
  (0 < count_scheme rt alts t)%Z ->
  exists alt pre post,
    In alt alts /\ t = pre ++ post /\
    match_literal_ignorecase rt alt post = true.
Proof. apply count_matches_occurrence. Qed.

Lemma frequency_scan_sound (t : str) (p : ProtocolType) :
  frequency_scan rt t = p -> p <> UNKNOWN ->
  exists alt pre post,
    In alt (scheme_patterns p) /\ t = pre ++ post /\
    match_literal_ignorecase rt alt post = true.
Proof.
  unfold frequency_scan. intros H Hp.
  destruct (0 <? max_count (protocol_counts rt t))%Z; [|congruence].
  unfold priority_order, protocol_counts in H.
  cbn [first_positive counts_get protocol_eqb] in H.
  destruct (0 <? count_scheme rt [lit "vless://"] t)%Z eqn:E1.
  { subst p. apply Z.ltb_lt in E1. exact (count_scheme_occurrence _ _ E1). }
  destruct (0 <? count_scheme rt [lit "vmess://"] t)%Z eqn:E2.
  { subst p. apply Z.ltb_lt in E2. exact (count_scheme_occurrence _ _ E2). }
  destruct (0 <? count_scheme rt [lit "trojan://"] t)%Z eqn:E3.
  { subst p. apply Z.ltb_lt in E3. exact (count_scheme_occurrence _ _ E3). }
  destruct (0 <? count_scheme rt [lit "ssr://"] t)%Z eqn:E4.
  { subst p. apply Z.ltb_lt in E4. exact (count_scheme_occurrence _ _ E4). }
  destruct (0 <? count_scheme rt [lit "ss://"] t
                 - count_scheme rt [lit "vless://"; lit "vmess://"; lit "ssr://"] t)%Z
    eqn:E5.
  { subst p. apply Z.ltb_lt in E5.
    pose proof (count_matches_nonneg
                  [lit "vless://"; lit "vmess://"; lit "ssr://"] t None O) as Hn.
    assert (Hss : (0 < count_scheme rt [lit "ss://"] t)%Z)
      by (unfold count_scheme in *; lia).
    exact (count_scheme_occurrence _ _ Hss). }
  destruct (0 <? count_scheme rt [lit "hy2://"; lit "hysteria2://"] t)%Z eqn:E6.
  { subst p. apply Z.ltb_lt in E6. exact (count_scheme_occurrence _ _ E6). }
  congruence.
Qed.

Lemma prefix_match_sound (t : str) (p : ProtocolType) :
  prefix_match t = Some p ->
  exists alt, In alt (scheme_patterns p) /\ startswith t alt = true.
Proof.
  unfold prefix_match. intros H.
  destruct (startswith t (lit "vless://")) eqn:E1.
  { injection H as <-. eexists. split; [left; reflexivity | exact E1]. }
  destruct (startswith t (lit "vmess://")) eqn:E2.
  { injection H as <-. eexists. split; [left; reflexivity | exact E2]. }
  destruct (startswith t (lit "trojan://")) eqn:E3.
  { injection H as <-. eexists. split; [left; reflexivity | exact E3]. }
  destruct (startswith t (lit "hy2://")) eqn:E4.
  { injection H as <-. eexists. split; [left; reflexivity | exact E4]. }
  destruct (startswith t (lit "hysteria2://")) eqn:E5.
  { injection H as <-. eexists. split; [right; left; reflexivity | exact E5]. }
  cbn [orb] in H.
  destruct (startswith t (lit "ssr://")) eqn:E6.
  { injection H as <-. eexists. split; [left; reflexivity | exact E6]. }
  destruct (startswith t (lit "ss://")) eqn:E7; [|discriminate H].
  injection H as <-. eexists. split; [left; reflexivity | exact E7].
Qed.

Lemma classify_sound (t : str) (p : ProtocolType) :
  classify rt t = p -> p <> UNKNOWN ->
  (p = YAML /\ looks_like_yaml t = true) \/
  exists alt pre post,
    In alt (scheme_patterns p) /\ t = pre ++ post /\
    match_literal_ignorecase rt alt post = true.
Proof.
  unfold classify. intros H Hp.
  destruct (prefix_match t) as [q|] eqn:E.
  - subst q. right. destruct (prefix_match_sound _ _ E) as [alt [Hin Hs]].
    exists alt, [], t. split; [exact Hin|]. split; [reflexivity|].
    apply startswith_match. exact Hs.
  - destruct (looks_like_yaml t) eqn:Ey.
    + left. split; [symmetry; exact H | reflexivity].
    + right. apply frequency_scan_sound; assumption.
Qed.

(** X21.  A protocol other than [UNKNOWN] is never answered without
    ground.  When [detect_protocol] answers [YAML], the normalised text
    passes the YAML test; when it answers one of the six link protocols,
    a scheme of that protocol occurs in the normalised text, in upper or
    lower case. *)
Theorem detect_protocol_sound (content : str) (p : ProtocolType)
  (Hp : detect_protocol rt content = p) (Hknown : p <> UNKNOWN) :
  (p = YAML /\ looks_like_yaml (try_base64_decode rt content) = true) \/
  exists alt pre post,
    In alt (scheme_patterns p) /\
    try_base64_decode rt content = pre ++ post /\
    match_literal_ignorecase rt alt post = true.
Proof.
  rewrite detect_protocol_classify in Hp. exact (classify_sound _ _ Hp Hknown).
Qed.

(** *** Texts without a colon *)

Lemma startswith_in (p t : str) (c : N) :
  startswith t p = true -> In c p -> In c t.
Proof.
  intros H Hc. rewrite (startswith_app _ _ H). apply in_or_app. left. exact Hc.
Qed.

Lemma contains_in (p t : str) (c : N) :
  contains p t = true -> In c p -> In c t.
Proof.
  induction t as [|y t IH]; cbn [contains]; intros H Hc.
  - rewrite orb_false_r in H. exact (startswith_in _ _ _ H Hc).
  - apply orb_true_iff in H. destruct H as [H|H].
    + exact (startswith_in _ _ _ H Hc).
    + right. exact (IH H Hc).
Qed.

Lemma match_literal_colon (p t : str) :
  match_literal_ignorecase rt p t = true -> In 58 p -> In 58 t.
Proof.
  revert t. induction p as [|x p IH]; intros t H Hc; [destruct Hc|].
  destruct t as [|y t]; [discriminate H|].
  cbn [match_literal_ignorecase] in H.
  apply andb_true_iff in H. destruct H as [Hxy H].
  destruct Hc as [->|Hc].
  - left. unfold match_char_ignorecase in Hxy.
    change (is_lower_ascii 58) with false in Hxy. cbv iota in Hxy.
    apply N.eqb_eq in Hxy. exact Hxy.
  - right. exact (IH t H Hc).
Qed.

Lemma scheme_patterns_colon (p : ProtocolType) (alt : str) :
  In alt (scheme_patterns p) -> In 58 alt.
Proof.
  destruct p; cbn [scheme_patterns]; intros H;
    repeat (destruct H as [<-|H]; [vm_compute; tauto|]); destruct H.
Qed.

Lemma looks_like_yaml_colon (t : str) : looks_like_yaml t = true -> In 58 t.
Proof.
  unfold looks_like_yaml. intros H.
  apply orb_true_iff in H. destruct H as [H|H].
  - apply orb_true_iff in H. destruct H as [H|H].
    + apply (contains_in _ _ _ H). vm_compute. tauto.
    + apply andb_true_iff in H. destruct H as [_ H].
      apply (contains_in _ _ _ H). vm_compute. tauto.
  - apply andb_true_iff in H. destruct H as [_ H].
    apply (contains_in _ _ _ H). vm_compute. tauto.
Qed.

(** X22.  Without a colon there is no protocol: a text whose normalised
    form holds no [:] is [UNKNOWN]; in particular an empty or blank
    text. *)
Theorem detect_protocol_needs_colon (content : str)
  (Hcolon : ~ In 58 (try_base64_decode rt content)) :
  detect_protocol rt content = UNKNOWN.
Proof.
  rewrite detect_protocol_classify.
  destruct (classify rt (try_base64_decode rt content)) eqn:E;
    try reflexivity; exfalso; apply Hcolon;
    (destruct (classify_sound _ _ E) as [[_ Hy]|H];
     [discriminate
     | exact (looks_like_yaml_colon _ Hy)
     | destruct H as [alt [pre [post [Hin [Ht Hm]]]]];
       rewrite Ht; apply in_or_app; right;
       exact (match_literal_colon _ _ Hm (scheme_patterns_colon _ _ Hin))]).
Qed.

End Detection.

Lemma plain_link_is_kept_witness :
  try_base64_decode ascii_runtime (lit " ss://YWJj@host:1 ")
  = lit "ss://YWJj@host:1".
Proof.
  assert (H : ~ In 61%N (lit "ss:")) by (vm_compute; intuition discriminate).
  exact (proj2 (plain_link_is_kept ascii_runtime (lit " ss://YWJj@host:1 ")
                  (lit "ss:") (lit "YWJj@host:1") eq_refl H)).
Defined.

Lemma detect_protocol_of_link_witness :
  detect_protocol ascii_runtime (lit "vless://uuid@host:443#name") = VLESS.
Proof.
  exact (proj2 (detect_protocol_of_link ascii_runtime
                  (lit "vless://uuid@host:443#name") VLESS eq_refl)).
Defined.

Lemma detect_protocol_sound_witness :
  (TROJAN = YAML /\
   looks_like_yaml
     (try_base64_decode ascii_runtime (lit "see trojan://pw@host:443")) = true)
  \/
  exists alt pre post,
    In alt (scheme_patterns TROJAN) /\
    try_base64_decode ascii_runtime (lit "see trojan://pw@host:443")
    = pre ++ post /\
    match_literal_ignorecase ascii_runtime alt post = true.
Proof.
  apply (detect_protocol_sound ascii_runtime (lit "see trojan://pw@host:443")
           TROJAN).
  - vm_compute. reflexivity.
  - discriminate.
Defined.

Lemma detect_protocol_needs_colon_witness :
  detect_protocol ascii_runtime (lit "  hello world ") = UNKNOWN.
Proof.
  apply (detect_protocol_needs_colon ascii_runtime (lit "  hello world ")).
  vm_compute. intuition discriminate.
Defined.

End ParserExtras.

(* ------------------------------------------------------------------ *)
(** ** The lines of a mixed content *)

Module MixedFacts.

Import PyStr PyDict Parser Mixed PyStrFacts ParserExtras.

Local Open Scope N_scope.

(** *** Prefixes, occurrences and trimming *)

Lemma startswith_app_l (t r p : str) :
  startswith t p = true -> startswith (t ++ r) p = true.
Proof.
  intros H. rewrite (startswith_app _ _ H), <- app_assoc.
  apply startswith_prefix.
Qed.

Lemma protocol_ahead_app (t r : str) :
  protocol_ahead t = true -> protocol_ahead (t ++ r) = true.
Proof.
  unfold protocol_ahead. rewrite !existsb_exists.
  intros [p [Hin Hp]]. exists p. split; [exact Hin|].
  apply startswith_app_l. exact Hp.
Qed.

Lemma protocol_ahead_prefix (p r : str) :
  In p split_protocols -> protocol_ahead (p ++ r) = true.
Proof.
  intros Hin. unfold protocol_ahead. apply existsb_exists.
  exists p. split; [exact Hin | apply startswith_prefix].
Qed.

Lemma ss_ahead (r : str) : protocol_ahead (lit "ss://" ++ r) = true.
Proof. apply protocol_ahead_prefix. right. right. left. reflexivity. Qed.

Lemma contains_split (p t : str) :
  contains p t = true -> exists a b, t = a ++ p ++ b.
Proof.
  induction t as [|c t IH]; cbn [contains]; intros H.
  - rewrite orb_false_r in H. exists [], (skipn (List.length p) []).
    exact (startswith_app _ _ H).
  - apply orb_true_iff in H. destruct H as [H|H].
    + exists [], (skipn (List.length p) (c :: t)). exact (startswith_app _ _ H).
    + destruct (IH H) as [a [b E]]. exists (c :: a), b. rewrite E. reflexivity.
Qed.

Lemma contains_app (p a b : str) : contains p (a ++ p ++ b) = true.
Proof.
  induction a as [|c a IH].
  - cbn [app]. destruct (p ++ b) as [|x r] eqn:E; cbn [contains];
      rewrite <- E, startswith_prefix; reflexivity.
  - cbn [app contains]. rewrite IH. apply orb_true_r.
Qed.

Lemma contains_suffix (p a b : str) :
  contains p b = true -> contains p (a ++ b) = true.
Proof.
  intros H. destruct (contains_split _ _ H) as [x [y E]].
  rewrite E, app_assoc. apply contains_app.
Qed.

Lemma startswith_contains (p t : str) :
  startswith t p = true -> contains p t = true.
Proof. intros H. destruct t; cbn [contains]; rewrite H; reflexivity. Qed.

(** Trimming removes a prefix and a suffix. *)
Lemma strip_with_split (f : N -> bool) (t : str) :
  exists a b, t = a ++ strip_with f t ++ b.
Proof.
  unfold strip_with.
  destruct (dropwhile_split f t) as [a Ha].
  destruct (dropwhile_split f (rev (dropwhile f t))) as [b Hb].
  exists a, (rev b).
  rewrite <- rev_app_distr, <- Hb, rev_involutive. exact Ha.
Qed.

Lemma strip_with_clean (f : N -> bool) (t : str) :
  (forall c, In c t -> f c = false) -> strip_with f t = t.
Proof.
  intros H. unfold strip_with.
  assert (E : dropwhile f t = t).
  { apply dropwhile_fixed. destruct t as [|c t]; [exact I|].
    apply H. left. reflexivity. }
  rewrite E.
  assert (E' : dropwhile f (rev t) = rev t).
  { apply dropwhile_fixed. destruct (rev t) as [|c r] eqn:Er; [exact I|].
    apply H. apply in_rev. rewrite Er. left. reflexivity. }
  rewrite E'. apply rev_involutive.
Qed.

(** *** The pieces of [re.split] *)

Lemma re_split_cons (t : str) : exists piece pieces, re_split t = piece :: pieces.
Proof.
  destruct t as [|c t]; cbn [re_split]; [eexists; eexists; reflexivity|].
  destruct (protocol_ahead (c :: t)); [eexists; eexists; reflexivity|].
  destruct (re_split t); eexists; eexists; reflexivity.
Qed.

Lemma concat_re_split (t : str) : List.concat (re_split t) = t.
Proof.
  induction t as [|c t IH]; [reflexivity|]. cbn [re_split].
  assert (E : List.concat match re_split t with
                     | piece :: pieces => (c :: piece) :: pieces
                     | [] => [[c]]
                     end = c :: t).
  { destruct (re_split_cons t) as [q [qs Eq]]. rewrite Eq in IH |- *.
    cbn [List.concat app] in IH |- *. rewrite IH. reflexivity. }
  destruct (protocol_ahead (c :: t)); [cbn [List.concat app]|]; exact E.
Qed.

(** No scheme starts at the first piece. *)
Lemma re_split_first (t : str) (piece : str) (pieces : list str) :
  re_split t = piece :: pieces -> protocol_ahead piece = false.
Proof.
  intros E.
  destruct (protocol_ahead t) eqn:Ea.
  - destruct t as [|c t]; [discriminate Ea|].
    cbn [re_split] in E. rewrite Ea in E. injection E as <- _. reflexivity.
  - destruct (protocol_ahead piece) eqn:Ep; [|reflexivity].
    pose proof (concat_re_split t) as Hc. rewrite E in Hc. cbn [List.concat] in Hc.
    rewrite <- Hc, (protocol_ahead_app _ _ Ep) in Ea. discriminate Ea.
Qed.

(** No scheme starts inside a piece. *)
Lemma re_split_inner (t : str) :
  forall piece, In piece (re_split t) ->
  forall pre post, piece = pre ++ post -> pre <> [] ->
                   protocol_ahead post = false.
Proof.
  induction t as [|c t IH]; intros piece Hin pre post E Hpre.
  - destruct Hin as [<-|[]]. destruct pre; [contradiction | discriminate E].
  - cbn [re_split] in Hin.
    destruct (re_split_cons t) as [q [qs Eq]]. rewrite Eq in Hin, IH.
    assert (Hin' : piece = [] \/ piece = c :: q \/ In piece qs).
    { destruct (protocol_ahead (c :: t)).
      - destruct Hin as [<-|[<-|Hin]]; auto.
      - destruct Hin as [<-|Hin]; auto. }
    destruct Hin' as [->|[->|Hq]].
    + destruct pre; [contradiction | discriminate E].
    + destruct pre as [|x pre]; [contradiction|].
      injection E as _ E.
      destruct pre as [|y pre].
      * cbn [app] in E. subst post. exact (re_split_first _ _ _ Eq).
      * apply (IH q (or_introl eq_refl) (y :: pre) post);
          [exact E | discriminate].
    + apply (IH piece (or_intror Hq) pre post); [exact E | exact Hpre].
Qed.

(** The same for the parts. *)
Lemma smart_split_inner (content part : str) :
  In part (_smart_split_protocols content) ->
  forall pre post, part = pre ++ post -> pre <> [] ->
                   protocol_ahead post = false.
Proof.
  unfold _smart_split_protocols. intros Hin pre post E Hpre.
  apply in_map_iff in Hin. destruct Hin as [piece [Hs Hin]].
  apply filter_In in Hin. destruct Hin as [Hin _].
  destruct (strip_with_split isspace piece) as [a [b Hab]].
  fold (strip piece) in Hab. rewrite Hs, E in Hab.
  destruct (protocol_ahead post) eqn:Ep; [|reflexivity].
  rewrite <- (protocol_ahead_app post b Ep).
  apply (re_split_inner content piece Hin (a ++ pre)).
  - rewrite Hab, <- !app_assoc. reflexivity.
  - intros Hnil. apply app_eq_nil in Hnil. destruct Hnil as [_ Hnil].
    exact (Hpre Hnil).
Qed.

Lemma smart_split_no_inner_scheme (content part scheme a b : str) :
  In part (_smart_split_protocols content) ->
  protocol_ahead (scheme ++ b) = true -> a <> [] ->
  part <> a ++ scheme ++ b.
Proof.
  intros Hin Hs Ha E.
  rewrite (smart_split_inner content part Hin a (scheme ++ b) E Ha) in Hs.
  discriminate Hs.
Qed.

Lemma smart_split_no_vless (content part : str) :
  In part (_smart_split_protocols content) ->
  contains (lit "vless://") part = false /\
  contains (lit "vmess://") part = false.
Proof.
  intros Hin. split.
  - destruct (contains (lit "vless://") part) eqn:E; [|reflexivity].
    destruct (contains_split _ _ E) as [a [b Hab]]. exfalso.
    apply (smart_split_no_inner_scheme content part (lit "ss://") (a ++ lit "vle") b Hin).
    + apply ss_ahead.
    + intros Hnil. apply app_eq_nil in Hnil. destruct Hnil as [_ Hnil].
      discriminate Hnil.
    + rewrite Hab, <- app_assoc. reflexivity.
  - destruct (contains (lit "vmess://") part) eqn:E; [|reflexivity].
    destruct (contains_split _ _ E) as [a [b Hab]]. exfalso.
    apply (smart_split_no_inner_scheme content part (lit "ss://") (a ++ lit "vme") b Hin).
    + apply ss_ahead.
    + intros Hnil. apply app_eq_nil in Hnil. destruct Hnil as [_ Hnil].
      discriminate Hnil.
    + rewrite Hab, <- app_assoc. reflexivity.
Qed.

(** X23.  Every part [_smart_split_protocols] returns is trimmed and not
    empty, and holds at most one link: no scheme of the list starts
    inside a part, after its first character. *)
Theorem smart_split_parts (content part : str)
  (Hin : In part (_smart_split_protocols content)) :
  part <> [] /\ strip part = part /\
  forall pre post, part = pre ++ post -> pre <> [] ->
                   protocol_ahead post = false.
Proof.
  split; [|split].
  - unfold _smart_split_protocols in Hin.
    apply in_map_iff in Hin. destruct Hin as [piece [Hs Hin]].
    apply filter_In in Hin. destruct Hin as [_ Hne].
    rewrite Hs in Hne. apply nonempty_true. exact Hne.
  - unfold _smart_split_protocols in Hin.
    apply in_map_iff in Hin. destruct Hin as [piece [<- _]].
    apply strip_idempotent.
  - exact (smart_split_inner content part Hin).
Qed.

(** X24.  The pattern cuts before the [ss://] inside [vless://] and
    [vmess://].  So no part holds either scheme, and a text that starts
    with one of them comes back with the part [vle] or [vme] in front of
    the parts of an [ss://] link. *)
Theorem smart_split_cuts_vless (content : str) :
  (forall part, In part (_smart_split_protocols content) ->
     contains (lit "vless://") part = false /\
     contains (lit "vmess://") part = false) /\
  _smart_split_protocols (lit "vless://" ++ content)
  = lit "vle" :: _smart_split_protocols (lit "ss://" ++ content) /\
  _smart_split_protocols (lit "vmess://" ++ content)
  = lit "vme" :: _smart_split_protocols (lit "ss://" ++ content).
Proof.
  split; [exact (smart_split_no_vless content)|].
  pose proof (ss_ahead content) as Hss.
  assert (Hcut : forall x y z,
             protocol_ahead (x :: y :: z :: lit "ss://" ++ content) = true ->
             protocol_ahead (y :: z :: lit "ss://" ++ content) = false ->
             protocol_ahead (z :: lit "ss://" ++ content) = false ->
             strip [x; y; z] = [x; y; z] ->
             _smart_split_protocols (x :: y :: z :: lit "ss://" ++ content)
             = [x; y; z] :: _smart_split_protocols (lit "ss://" ++ content)).
  { intros x y z H1 H2 H3 Hs. unfold _smart_split_protocols.
    destruct (re_split_cons (lit "ss://" ++ content)) as [q [qs Eq]].
    assert (Eq0 : q = []).
    { destruct (lit "ss://" ++ content) as [|c r] eqn:Ec; [discriminate Hss|].
      cbn [re_split] in Eq. rewrite Hss in Eq. injection Eq as <- _.
      reflexivity. }
    subst q.
    cbn [re_split]. rewrite H1, H2, H3, Eq.
    cbn [filter]. change (strip []) with (@nil N). cbn [nonempty].
    rewrite Hs. cbn [nonempty List.map]. rewrite Hs. reflexivity. }
  split.
  - apply (Hcut 118 108 101); try (vm_compute; reflexivity).
    apply (protocol_ahead_prefix (lit "vless://")). left. reflexivity.
  - apply (Hcut 118 109 101); try (vm_compute; reflexivity).
    apply (protocol_ahead_prefix (lit "vmess://")). right. left. reflexivity.
Qed.

(** X25.  Nothing but white space is lost: the parts of a text without
    white space, put together again, are the text. *)
Theorem smart_split_keeps_text (content : str)
  (Hclean : forall c, In c content -> isspace c = false) :
  List.concat (_smart_split_protocols content) = content.
Proof.
  unfold _smart_split_protocols.
  assert (Hp : forall piece, In piece (re_split content) -> strip piece = piece).
  { intros piece Hin. apply strip_with_clean. intros c Hc. apply Hclean.
    rewrite <- (concat_re_split content). apply in_concat.
    exists piece. split; assumption. }
  rewrite <- (concat_re_split content) at 2.
  revert Hp. generalize (re_split content) as l.
  induction l as [|p l IH]; intros Hp; [reflexivity|].
  cbn [filter]. rewrite (Hp p (or_introl eq_refl)).
  assert (IH' := IH (fun q Hq => Hp q (or_intror Hq))).
  destruct p as [|x p]; cbn [nonempty].
  - cbn [List.concat app]. exact IH'.
  - cbn [List.map List.concat]. rewrite (Hp (x :: p) (or_introl eq_refl)), IH'.
    reflexivity.
Qed.

(** *** The lines of the loop *)

Lemma split_go_no_newline (t cur : str) :
  ~ In 10 t -> split_go [10] O cur t = [rev cur ++ t].
Proof.
  revert cur. induction t as [|c t IH]; intros cur Hn; cbn [split_go].
  - rewrite app_nil_r. reflexivity.
  - cbn [startswith].
    replace (10 =? c) with false
      by (symmetry; apply N.eqb_neq; intros E; apply Hn; left; symmetry; exact E).
    cbn [andb]. rewrite IH by (intros E; apply Hn; right; exact E).
    cbn [rev]. rewrite <- app_assoc. reflexivity.
Qed.

(** A content of one line is cut by [_smart_split_protocols]. *)
Lemma content_lines_single (d : str) :
  ~ In 10 (strip d) ->
  forall line, In line (content_lines d) ->
    line = [] \/ In line (_smart_split_protocols (strip d)).
Proof.
  intros Hn line Hin. unfold content_lines, split in Hin.
  rewrite (split_go_no_newline _ [] Hn) in Hin. cbn [rev app] in Hin.
  destruct (nonempty (strip d)) eqn:E.
  - right. exact Hin.
  - destruct Hin as [<-|[]]. left. destruct (strip d); [reflexivity | discriminate E].
Qed.

Lemma remove_status_prefix_suffix (line : str) :
  exists pre, line = pre ++ remove_status_prefix line.
Proof.
  unfold remove_status_prefix.
  destruct (contains (lit "STATUS=") line && _); [|exists []; reflexivity].
  destruct (proto_start line) as [n|]; [|exists []; reflexivity].
  exists (firstn n line). symmetry. apply firstn_skipn.
Qed.

Lemma contains_false_suffix (p a b : str) :
  contains p (a ++ b) = false -> contains p b = false.
Proof.
  intros H. destruct (contains p b) eqn:E; [|reflexivity].
  rewrite (contains_suffix p a b E) in H. discriminate H.
Qed.

Lemma startswith_false (p t : str) :
  contains p t = false -> startswith t p = false.
Proof.
  intros H. destruct (startswith t p) eqn:E; [|reflexivity].
  rewrite (startswith_contains _ _ E) in H. discriminate H.
Qed.

(** *** The status prefix *)

Lemma find_startswith (p t : str) (n : nat) :
  find p t = Some n -> startswith (skipn n t) p = true.
Proof.
  revert n. induction t as [|c t IH]; intros n; cbn [find].
  - destruct (startswith [] p) eqn:E; [|discriminate].
    intros H. injection H as <-. exact E.
  - destruct (startswith (c :: t) p) eqn:E.
    + intros H. injection H as <-. exact E.
    + destruct (find p t) as [k|]; [|discriminate].
      intros H. injection H as <-. cbn [skipn]. apply IH. reflexivity.
Qed.

Lemma contains_find (p t : str) :
  contains p t = true -> exists n, find p t = Some n.
Proof.
  induction t as [|c t IH]; cbn [contains find]; intros H.
  - rewrite orb_false_r in H. rewrite H. exists O. reflexivity.
  - destruct (startswith (c :: t) p); [exists O; reflexivity|].
    cbn [orb] in H. destruct (IH H) as [n ->]. exists (S n). reflexivity.
Qed.

(** The loop over the protocols ends on the position of one of them, as
    soon as one of them occurs. *)
Lemma proto_start_fold (line : str) (l : list str) :
  forall start,
    (forall n, start = Some n -> exists p, In p status_protocols /\ find p line = Some n) ->
    (forall p, In p l -> In p status_protocols) ->
    let result :=
      fold_left
        (fun start proto =>
           match find proto line with
           | Some pos =>
               Some (match start with Some s => Nat.min s pos | None => pos end)
           | None => start
           end) l start in
    (forall n, result = Some n ->
               exists p, In p status_protocols /\ find p line = Some n) /\
    (start <> None \/ (exists p, In p l /\ find p line <> None) ->
     result <> None).
Proof.
  induction l as [|q l IH]; intros start Hstart Hl; cbv zeta.
  - cbn [fold_left]. split; [exact Hstart|].
    intros [H|[p [[] _]]]. exact H.
  - cbn [fold_left].
    destruct (find q line) as [pos|] eqn:Eq.
    + match goal with
      | |- context [fold_left ?f l ?s] =>
          destruct (IH s) as [H1 H2]
      end.
      * intros n Hn. injection Hn as Hn.
        destruct start as [s|].
        -- destruct (Nat.min_dec s pos) as [Em|Em]; rewrite Em in Hn; subst n.
           ++ apply Hstart. reflexivity.
           ++ exists q. split; [apply Hl; left; reflexivity | exact Eq].
        -- subst n. exists q. split; [apply Hl; left; reflexivity | exact Eq].
      * intros p Hp. apply Hl. right. exact Hp.
      * cbv zeta in H1, H2. split; [exact H1|].
        intros _. apply H2. left. discriminate.
    + destruct (IH start Hstart (fun p Hp => Hl p (or_intror Hp))) as [H1 H2].
      cbv zeta in H1, H2. split; [exact H1|].
      intros [H|[p [[<-|Hp] Hf]]].
      * apply H2. left. exact H.
      * rewrite Eq in Hf. contradiction.
      * apply H2. right. exists p. split; assumption.
Qed.

Lemma protocol_ahead_prefix_match (t : str) :
  protocol_ahead t = true -> exists p, prefix_match t = Some p.
Proof.
  unfold protocol_ahead, split_protocols, prefix_match. cbn [existsb].
  destruct (startswith t (lit "vless://")); [eexists; reflexivity|].
  destruct (startswith t (lit "vmess://")); [eexists; reflexivity|].
  destruct (startswith t (lit "trojan://")); [eexists; reflexivity|].
  destruct (startswith t (lit "hy2://")); [eexists; reflexivity|].
  destruct (startswith t (lit "hysteria2://")); [eexists; reflexivity|].
  destruct (startswith t (lit "ssr://")); [eexists; reflexivity|].
  destruct (startswith t (lit "ss://")); [eexists; reflexivity|].
  discriminate.
Qed.

(** Every scheme of the loop holds the marker [://] of the test. *)
Lemma status_protocol_marker (p line : str) :
  In p status_protocols -> contains p line = true ->
  existsb (fun proto => contains proto line) status_markers = true.
Proof.
  intros Hp Hc. cbn [status_markers existsb].
  replace (contains (lit "://") line) with true; [reflexivity|].
  symmetry. destruct (contains_split _ _ Hc) as [a [b E]]. rewrite E.
  assert (Hs : exists x, p = x ++ lit "://").
  { cbn [status_protocols] in Hp.
    repeat (destruct Hp as [<-|Hp];
            [match goal with
             | |- exists x, lit ?s = _ => idtac
             end|]); [..|destruct Hp].
    - exists (lit "vless"). reflexivity.
    - exists (lit "vmess"). reflexivity.
    - exists (lit "ss"). reflexivity.
    - exists (lit "ssr"). reflexivity.
    - exists (lit "trojan"). reflexivity.
    - exists (lit "hy2"). reflexivity.
    - exists (lit "hysteria2"). reflexivity. }
  destruct Hs as [x ->]. rewrite <- !app_assoc, app_assoc.
  apply contains_app.
Qed.

(** A scheme does not start with white space. *)
Lemma protocol_ahead_head (c : N) (r : str) :
  protocol_ahead (c :: r) = true -> isspace c = false.
Proof.
  unfold protocol_ahead. intros H. apply existsb_exists in H.
  destruct H as [p [Hin Hp]]. apply startswith_app in Hp.
  cbn [split_protocols] in Hin.
  repeat (destruct Hin as [<-|Hin];
          [vm_compute in Hp; injection Hp as -> _; reflexivity|]).
  destruct Hin.
Qed.

(** A suffix of a trimmed text that starts with a character that is not
    white space is trimmed. *)
Lemma strip_suffix (pre : str) (c : N) (r : str) :
  strip (pre ++ c :: r) = pre ++ c :: r -> isspace c = false ->
  strip (c :: r) = c :: r.
Proof.
  intros Hs Hc. unfold strip, strip_with in *.
  set (line := pre ++ c :: r) in *.
  assert (Ha : dropwhile isspace line = line).
  { destruct (dropwhile_split isspace line) as [a Ha].
    destruct (dropwhile_split isspace (rev (dropwhile isspace line))) as [b Hb].
    apply (f_equal (@List.length N)) in Hs, Hb.
    pose proof (f_equal (@List.length N) Ha) as Hla.
    rewrite length_rev in Hs, Hb. rewrite length_app in Hla, Hb.
    destruct a as [|x a]; [exact (eq_sym Ha)|]. cbn [List.length] in Hla. lia. }
  rewrite Ha in Hs.
  assert (Hr : dropwhile isspace (rev line) = rev line).
  { rewrite <- Hs at 2. rewrite rev_involutive. reflexivity. }
  assert (Hlast : dropwhile isspace (rev (c :: r)) = rev (c :: r)).
  { apply dropwhile_fixed.
    pose proof (dropwhile_head isspace (rev line)) as Hh. rewrite Hr in Hh.
    unfold line in Hh. rewrite rev_app_distr in Hh.
    destruct (rev (c :: r)) as [|y ys] eqn:Ey; [exact I|]. exact Hh. }
  cbn [dropwhile]. rewrite Hc, Hlast. apply rev_involutive.
Qed.

Section Lines.

Variable rt : PyRuntime.

(** X26.  A content of a single line never yields a VLESS record: no
    line the loop classifies and decodes starts with [vless://] or
    [vmess://], and [parse_vless_url] rejects each of them. *)
Theorem single_line_hides_vless (decoded_content : str)
  (Hone : ~ In 10 (strip decoded_content)) :
  forall line, In line (lines_to_parse decoded_content) ->
    startswith line (lit "vless://") = false /\
    startswith line (lit "vmess://") = false /\
    parse_vless_url rt line = None.
Proof.
  intros line Hin. unfold lines_to_parse in Hin.
  apply in_flat_map in Hin. destruct Hin as [l0 [Hl0 Hin]].
  destruct (negb (nonempty (strip l0)) || startswith (strip l0) (lit "#")) eqn:E;
    [destruct Hin|].
  destruct Hin as [<-|[]].
  apply orb_false_iff in E. destruct E as [Ene _].
  destruct (content_lines_single _ Hone l0 Hl0) as [->|Hpart];
    [discriminate Ene|].
  destruct (smart_split_no_vless _ _ Hpart) as [Hv Hm].
  assert (Hs : strip l0 = l0).
  { unfold _smart_split_protocols in Hpart. apply in_map_iff in Hpart.
    destruct Hpart as [piece [<- _]]. apply strip_idempotent. }
  rewrite Hs.
  destruct (remove_status_prefix_suffix l0) as [pre Hpre].
  rewrite Hpre in Hv, Hm.
  apply contains_false_suffix, startswith_false in Hv.
  apply contains_false_suffix, startswith_false in Hm.
  split; [exact Hv|]. split; [exact Hm|].
  unfold parse_vless_url. rewrite Hv. reflexivity.
Qed.

(** X27.  On a line with a status prefix and a link the prefix is cut
    off: what is left is the end of the line from a scheme on, so it
    starts with a scheme, and the protocol detected for a trimmed line is
    the protocol of that scheme. *)
Theorem status_prefix_removed (line proto : str)
  (Hstatus : contains (lit "STATUS=") line = true)
  (Hproto : In proto status_protocols)
  (Hlink : contains proto line = true) :
  exists pre p,
    line = pre ++ remove_status_prefix line /\
    prefix_match (remove_status_prefix line) = Some p /\
    (strip line = line -> detect_protocol rt (remove_status_prefix line) = p).
Proof.
  destruct (remove_status_prefix_suffix line) as [pre Hpre].
  assert (Hahead : protocol_ahead (remove_status_prefix line) = true).
  { unfold remove_status_prefix.
    rewrite Hstatus, (status_protocol_marker _ _ Hproto Hlink). cbn [andb].
    destruct (proto_start_fold line status_protocols None) as [H1 H2].
    - discriminate.
    - intros p Hp. exact Hp.
    - cbv zeta in H1, H2. fold (proto_start line) in H1, H2.
      destruct (proto_start line) as [n|] eqn:En.
      + destruct (H1 n eq_refl) as [p [Hp Hf]].
        unfold protocol_ahead. apply existsb_exists.
        exists p. split; [exact Hp | apply find_startswith; exact Hf].
      + exfalso. apply H2; [|reflexivity]. right. exists proto.
        split; [exact Hproto|].
        destruct (contains_find _ _ Hlink) as [n ->]. discriminate. }
  destruct (protocol_ahead_prefix_match _ Hahead) as [p Hp].
  exists pre, p. split; [exact Hpre|]. split; [exact Hp|].
  intros Hs.
  assert (Hstrip : strip (remove_status_prefix line) = remove_status_prefix line).
  { destruct (remove_status_prefix line) as [|c r] eqn:Er; [discriminate Hahead|].
    apply (strip_suffix pre). { rewrite <- Hpre. exact Hs. }
    exact (protocol_ahead_head _ _ Hahead). }
  apply (detect_protocol_prefix rt). rewrite Hstrip. exact Hp.
Qed.

End Lines.

Lemma smart_split_parts_witness :
  lit "ss://b" <> [] /\ strip (lit "ss://b") = lit "ss://b" /\
  forall pre post, lit "ss://b" = pre ++ post -> pre <> [] ->
                   protocol_ahead post = false.
Proof.
  apply (smart_split_parts (lit "ss://a ss://b") (lit "ss://b")).
  vm_compute. right. left. reflexivity.
Defined.

Lemma smart_split_keeps_text_witness :
  List.concat (_smart_split_protocols (lit "ss://a@h:1trojan://b@h:2"))
  = lit "ss://a@h:1trojan://b@h:2".
Proof.
  apply (smart_split_keeps_text (lit "ss://a@h:1trojan://b@h:2")).
  intros c Hc. vm_compute in Hc.
  repeat (destruct Hc as [<-|Hc]; [reflexivity|]). destruct Hc.
Defined.

(** The single line [vless://uuid@host:443] is cut into [vle] and
    [ss://uuid@host:443]. *)
Lemma single_line_hides_vless_witness :
  lines_to_parse (lit "vless://uuid@host:443")
  = [lit "vle"; lit "ss://uuid@host:443"] /\
  startswith (lit "ss://uuid@host:443") (lit "vless://") = false /\
  startswith (lit "ss://uuid@host:443") (lit "vmess://") = false /\
  parse_vless_url ascii_runtime (lit "ss://uuid@host:443") = None.
Proof.
  split; [vm_compute; reflexivity|].
  apply (single_line_hides_vless ascii_runtime (lit "vless://uuid@host:443")).
  - vm_compute. intros Hc.
    repeat (destruct Hc as [Hc|Hc]; [discriminate Hc|]). destruct Hc.
  - vm_compute. right. left. reflexivity.
Defined.

Lemma status_prefix_removed_witness :
  exists pre p,
    lit "STATUS=ok trojan://pw@host:443"
    = pre ++ remove_status_prefix (lit "STATUS=ok trojan://pw@host:443") /\
    prefix_match (remove_status_prefix (lit "STATUS=ok trojan://pw@host:443"))
    = Some p /\
    (strip (lit "STATUS=ok trojan://pw@host:443")
     = lit "STATUS=ok trojan://pw@host:443" ->
     detect_protocol ascii_runtime
       (remove_status_prefix (lit "STATUS=ok trojan://pw@host:443")) = p).
Proof.
  apply (status_prefix_removed ascii_runtime
           (lit "STATUS=ok trojan://pw@host:443") (lit "trojan://")).
  - vm_compute. reflexivity.
  - vm_compute. tauto.
  - vm_compute. reflexivity.
Defined.

End MixedFacts.

(* ------------------------------------------------------------------ *)
(** ** More on the decoders *)

Module DecoderFacts.

Import PyStr PyDict Codec Parser Records PyStrFacts ParserExtras.

Local Open Scope N_scope.

(** Trimming keeps a prefix that neither starts nor ends with white
    space. *)
Lemma dropwhile_app_keep (f : N -> bool) (a b : str) :
  match b with [] => True | c :: _ => f c = false end ->
  exists a', dropwhile f (a ++ b) = a' ++ b.
Proof.
  intros Hb. induction a as [|x a [a' IH]].
  - exists []. apply (dropwhile_fixed f b Hb).
  - cbn [app dropwhile]. destruct (f x).
    + exists a'. exact IH.
    + exists (x :: a). reflexivity.
Qed.

Lemma strip_keeps_prefix (p r : str) (c d : N) (p' q' : str) :
  p = c :: p' -> rev p = d :: q' -> isspace c = false -> isspace d = false ->
  startswith (strip (p ++ r)) p = true.
Proof.
  intros Hp Hrev Hc Hd. unfold strip, strip_with.
  assert (E : dropwhile isspace (p ++ r) = p ++ r).
  { apply dropwhile_fixed. rewrite Hp. exact Hc. }
  rewrite E, rev_app_distr.
  destruct (dropwhile_app_keep isspace (rev r) (rev p)) as [a' Ha].
  { rewrite Hrev. exact Hd. }
  rewrite Ha, rev_app_distr, rev_involutive. apply startswith_prefix.
Qed.

Lemma strip_keeps_scheme (scheme url : str) :
  In scheme [lit "ss://"; lit "ssr://"; lit "vless://"; lit "trojan://";
             lit "hy2://"; lit "hysteria2://"] ->
  startswith url scheme = true ->
  startswith (strip url) scheme = true.
Proof.
  intros Hin Hs. rewrite (startswith_app _ _ Hs).
  repeat (destruct Hin as [<-|Hin];
          [eapply strip_keeps_prefix; reflexivity|]).
  destruct Hin.
Qed.

Section Decoders.

Variable rt : PyRuntime.

(** [_process_vless_params] assigns neither type nor server nor port. *)
Lemma process_vless_params_endpoint (result : dict Value) (params : qs) :
  get (lit "type") (_process_vless_params result params)
  = get (lit "type") result /\
  get (lit "server") (_process_vless_params result params)
  = get (lit "server") result /\
  get (lit "port") (_process_vless_params result params)
  = get (lit "port") result.
Proof.
  unfold _process_vless_params. cbv zeta.
  repeat match goal with
         | |- context [match ?x with _ => _ end] => destruct x
         end;
    rewrite ?PyDictFacts.get_set_other by (vm_compute; discriminate);
    repeat split.
Qed.

Lemma parse_ss_url_endpoint (url : str) (result : dict Value) :
  parse_ss_url rt url = Some result ->
  startswith url (lit "ss://") = true /\
  exists server port, endpoint_of (lit "ss") result server port.
Proof.
  unfold parse_ss_url. intros H.
  destruct (startswith url (lit "ss://")) eqn:Hs; [|discriminate H].
  split; [reflexivity|]. cbn [negb] in H.
  destruct (split_once (lit "#") (skipn 5 url)) as [[body frag]|];
    repeat match type of H with
           | match ?x with _ => _ end = _ => destruct x; try discriminate H
           end;
    inversion H; eexists; eexists; repeat split.
Qed.

Lemma parse_ssr_url_endpoint (url : str) (result : dict Value) :
  parse_ssr_url rt url = Some result ->
  startswith url (lit "ssr://") = true /\
  exists server port, endpoint_of (lit "ssr") result server port.
Proof.
  unfold parse_ssr_url. intros H.
  destruct (startswith url (lit "ssr://")) eqn:Hs; [|discriminate H].
  split; [reflexivity|]. cbn [negb] in H.
  destruct (decode_first urlsafe_b64decode b64decode (skipn 6 url ++ lit "=="))
    as [decoded|]; [|discriminate H].
  destruct (split_once (lit "/?") decoded) as [[main_part params_part]|];
    repeat match type of H with
           | match ?x with _ => _ end = _ => destruct x; try discriminate H
           end;
    inversion H; eexists; eexists; repeat split.
Qed.

Lemma parse_vless_url_endpoint (url : str) (result : dict Value) :
  parse_vless_url rt url = Some result ->
  startswith url (lit "vless://") = true /\
  exists server port, endpoint_of (lit "vless") result server port.
Proof.
  unfold parse_vless_url. intros H.
  destruct (startswith url (lit "vless://")) eqn:Hs; [|discriminate H].
  split; [reflexivity|]. cbn [negb] in H. cbv zeta in H.
  assert (Hgo : forall name server port uuid params,
             match vless_remark rt params with
             | Some decoded_remark =>
                 Some (set (lit "name") (VStr (_clean_vip_chars decoded_remark))
                         (_process_vless_params
                            [ (lit "name", VStr name);
                              (lit "type", VStr (lit "vless"));
                              (lit "server", VStr server);
                              (lit "port", VInt port);
                              (lit "uuid", VStr uuid);
                              (lit "cipher", VStr (lit "none"));
                              (lit "tls", VBool false);
                              (lit "network", VStr (lit "tcp")) ] params))
             | None =>
                 Some (_process_vless_params
                         [ (lit "name", VStr name);
                           (lit "type", VStr (lit "vless"));
                           (lit "server", VStr server);
                           (lit "port", VInt port);
                           (lit "uuid", VStr uuid);
                           (lit "cipher", VStr (lit "none"));
                           (lit "tls", VBool false);
                           (lit "network", VStr (lit "tcp")) ] params)
             end = Some result ->
             exists server port, endpoint_of (lit "vless") result server port).
  { intros name server port uuid params Hr. exists server, port.
    match type of Hr with
    | context [_process_vless_params ?r params] =>
        destruct (process_vless_params_endpoint r params) as [Ht [Hsv Hpt]]
    end.
    destruct (vless_remark rt params); injection Hr as <-; unfold endpoint_of;
      rewrite ?PyDictFacts.get_set_other by (vm_compute; discriminate);
      rewrite Ht, Hsv, Hpt; repeat split. }
  destruct (split_once (lit "#") (skipn 8 url)) as [[body frag]|].
  - destruct (split_once (lit "?") body) as [[auth query_string]|].
    + destruct (match (if contains (lit "@") auth
                       then _parse_vless_standard rt auth else None) with
                | Some r => Some r
                | None => _parse_vless_base64 rt auth
                end) as [[[server port] uuid]|]; [|discriminate H].
      exact (Hgo _ server port uuid (rt_parse_qs rt query_string) H).
    + destruct (match (if contains (lit "@") body
                       then _parse_vless_standard rt body else None) with
                | Some r => Some r
                | None => _parse_vless_base64 rt body
                end) as [[[server port] uuid]|]; [|discriminate H].
      exact (Hgo _ server port uuid [] H).
  - destruct (split_once (lit "?") (skipn 8 url)) as [[auth query_string]|].
    + destruct (match (if contains (lit "@") auth
                       then _parse_vless_standard rt auth else None) with
                | Some r => Some r
                | None => _parse_vless_base64 rt auth
                end) as [[[server port] uuid]|]; [|discriminate H].
      exact (Hgo _ server port uuid (rt_parse_qs rt query_string) H).
    + destruct (match (if contains (lit "@") (skipn 8 url)
                       then _parse_vless_standard rt (skipn 8 url) else None) with
                | Some r => Some r
                | None => _parse_vless_base64 rt (skipn 8 url)
                end) as [[[server port] uuid]|]; [|discriminate H].
      exact (Hgo _ server port uuid [] H).
Qed.

Lemma required_parts_some (parsed_url : ParsedUrl) (port : option Z)
  (hostname : str) (p : Z) (username : str) :
  required_parts parsed_url port = Some (hostname, p, username) ->
  hostname <> [] /\ p <> 0%Z /\ username <> [].
Proof.
  unfold required_parts.
  destruct (pu_hostname parsed_url) as [h|]; [|discriminate].
  destruct port as [q|]; [|discriminate].
  destruct (pu_username parsed_url) as [u|]; [|discriminate].
  destruct (nonempty h && negb (Z.eqb q 0) && nonempty u) eqn:E; [|discriminate].
  intros H. injection H as <- <- <-.
  apply andb_true_iff in E. destruct E as [E Eu].
  apply andb_true_iff in E. destruct E as [Eh Eq].
  apply nonempty_true in Eh, Eu. apply negb_true_iff, Z.eqb_neq in Eq.
  repeat split; assumption.
Qed.

Lemma parse_trojan_url_endpoint (url : str) (result : dict Value) :
  parse_trojan_url rt url = Some result ->
  startswith url (lit "trojan://") = true /\
  exists server port,
    endpoint_of (lit "trojan") result server port /\
    server <> [] /\ port <> 0%Z.
Proof.
  unfold parse_trojan_url. intros H.
  destruct (startswith url (lit "trojan://")) eqn:Hs; [|discriminate H].
  split; [reflexivity|]. cbn [negb] in H.
  destruct (rt_urlparse rt url) as [parsed_url|]; [|discriminate H].
  destruct (pu_port parsed_url) as [port|]; [|discriminate H].
  destruct (required_parts parsed_url port) as [[[hostname p] username]|] eqn:Er;
    [|discriminate H].
  destruct (required_parts_some _ _ _ _ _ Er) as [Hh [Hp _]].
  exists hostname, p. split; [|split; assumption].
  cbv zeta in H.
  repeat match type of H with
         | (if ?x then _ else _) = _ => destruct x
         end;
    injection H as <-; unfold endpoint_of;
    rewrite ?PyDictFacts.get_set_other by (vm_compute; discriminate);
    repeat split.
Qed.

Lemma parse_hy2_url_endpoint (url : str) (result : dict Value) :
  parse_hy2_url rt url = Some result ->
  (startswith url (lit "hy2://") = true \/
   startswith url (lit "hysteria2://") = true) /\
  exists server port,
    endpoint_of (lit "hysteria2") result server port /\
    server <> [] /\ port <> 0%Z.
Proof.
  unfold parse_hy2_url. intros H. cbv zeta in H.
  assert (Hs : startswith url (lit "hy2://") = true \/
               startswith url (lit "hysteria2://") = true).
  { destruct (startswith url (lit "hysteria2://")) eqn:E1; [right; reflexivity|].
    destruct (startswith url (lit "hy2://")) eqn:E2; [left; reflexivity|].
    discriminate H. }
  split; [exact Hs|].
  destruct (negb _); [discriminate H|].
  destruct (rt_urlparse rt url) as [parsed_url|]; [|discriminate H].
  destruct (pu_port parsed_url) as [port|]; [|discriminate H].
  destruct (required_parts parsed_url port) as [[[hostname p] username]|] eqn:Er;
    [|discriminate H].
  destruct (required_parts_some _ _ _ _ _ Er) as [Hh [Hp _]].
  exists hostname, p. split; [|split; assumption].
  repeat match type of H with
         | match ?x with _ => _ end = _ => destruct x
         end;
    injection H as <-; unfold endpoint_of;
    rewrite ?PyDictFacts.get_set_other by (vm_compute; discriminate);
    repeat split.
Qed.

(** X28.  A decoder accepts only links of its own scheme, and what it
    returns always has the three fields the caller reads: its own [type],
    a [server] that is a string and a [port] that is an integer.  A
    Trojan or Hysteria2 record moreover has a server that is not empty and
    a port that is not zero. *)
Theorem decoders_give_endpoints :
  (forall url result, parse_ss_url rt url = Some result ->
     startswith url (lit "ss://") = true /\
     exists server port, endpoint_of (lit "ss") result server port) /\
  (forall url result, parse_ssr_url rt url = Some result ->
     startswith url (lit "ssr://") = true /\
     exists server port, endpoint_of (lit "ssr") result server port) /\
  (forall url result, parse_vless_url rt url = Some result ->
     startswith url (lit "vless://") = true /\
     exists server port, endpoint_of (lit "vless") result server port) /\
  (forall url result, parse_trojan_url rt url = Some result ->
     startswith url (lit "trojan://") = true /\
     exists server port,
       endpoint_of (lit "trojan") result server port /\
       server <> [] /\ port <> 0%Z) /\
  (forall url result, parse_hy2_url rt url = Some result ->
     (startswith url (lit "hy2://") = true \/
      startswith url (lit "hysteria2://") = true) /\
     exists server port,
       endpoint_of (lit "hysteria2") result server port /\
       server <> [] /\ port <> 0%Z).
Proof.
  split; [exact parse_ss_url_endpoint|].
  split; [exact parse_ssr_url_endpoint|].
  split; [exact parse_vless_url_endpoint|].
  split; [exact parse_trojan_url_endpoint | exact parse_hy2_url_endpoint].
Qed.

Lemma detect_scheme (url scheme : str) (p : ProtocolType) :
  In scheme [lit "ss://"; lit "ssr://"; lit "vless://"; lit "trojan://";
             lit "hy2://"; lit "hysteria2://"] ->
  startswith url scheme = true ->
  (forall t, startswith t scheme = true -> prefix_match t = Some p) ->
  detect_protocol rt url = p.
Proof.
  intros Hin Hs Hp.
  apply (detect_protocol_prefix rt). apply Hp.
  apply strip_keeps_scheme; assumption.
Qed.

(** The protocol of a text that starts with a scheme. *)
Lemma prefix_match_scheme (t : str) :
  (startswith t (lit "ss://") = true -> prefix_match t = Some SS) /\
  (startswith t (lit "ssr://") = true -> prefix_match t = Some SSR) /\
  (startswith t (lit "vless://") = true -> prefix_match t = Some VLESS) /\
  (startswith t (lit "trojan://") = true -> prefix_match t = Some TROJAN) /\
  (startswith t (lit "hy2://") = true -> prefix_match t = Some HY2) /\
  (startswith t (lit "hysteria2://") = true -> prefix_match t = Some HY2).
Proof.
  unfold prefix_match.
  repeat split; intros H; rewrite (startswith_app _ _ H);
    match goal with
    | |- context [skipn ?n t] => generalize (skipn n t)
    end; intros r;
    repeat match goal with
           | |- context [startswith (lit ?a ++ r) (lit ?b)] =>
               first
                 [ replace (startswith (lit a ++ r) (lit b)) with true
                     by (symmetry; apply (startswith_prefix (lit b) r))
                 | replace (startswith (lit a ++ r) (lit b)) with false
                     by (vm_compute; reflexivity) ]
           end; reflexivity.
Qed.

(** X29.  Detection and decoding agree: a link a decoder accepts is
    detected as the protocol of that decoder, so [parse_mixed_content]
    hands it to the decoder that accepts it. *)
Theorem accepted_links_are_detected :
  (forall url result, parse_ss_url rt url = Some result ->
     detect_protocol rt url = SS) /\
  (forall url result, parse_ssr_url rt url = Some result ->
     detect_protocol rt url = SSR) /\
  (forall url result, parse_vless_url rt url = Some result ->
     detect_protocol rt url = VLESS) /\
  (forall url result, parse_trojan_url rt url = Some result ->
     detect_protocol rt url = TROJAN) /\
  (forall url result, parse_hy2_url rt url = Some result ->
     detect_protocol rt url = HY2).
Proof.
  split; [|split; [|split; [|split]]]; intros url result H.
  - destruct (parse_ss_url_endpoint _ _ H) as [Hs _].
    apply (detect_scheme url (lit "ss://")); [simpl; tauto | exact Hs|].
    intros t. apply (prefix_match_scheme t).
  - destruct (parse_ssr_url_endpoint _ _ H) as [Hs _].
    apply (detect_scheme url (lit "ssr://")); [simpl; tauto | exact Hs|].
    intros t. apply (prefix_match_scheme t).
  - destruct (parse_vless_url_endpoint _ _ H) as [Hs _].
    apply (detect_scheme url (lit "vless://")); [simpl; tauto | exact Hs|].
    intros t. apply (prefix_match_scheme t).
  - destruct (parse_trojan_url_endpoint _ _ H) as [Hs _].
    apply (detect_scheme url (lit "trojan://")); [simpl; tauto | exact Hs|].
    intros t. apply (prefix_match_scheme t).
  - destruct (parse_hy2_url_endpoint _ _ H) as [[Hs|Hs] _].
    + apply (detect_scheme url (lit "hy2://")); [simpl; tauto | exact Hs|].
      intros t. apply (prefix_match_scheme t).
    + apply (detect_scheme url (lit "hysteria2://")); [simpl; tauto | exact Hs|].
      intros t. apply (prefix_match_scheme t).
Qed.

End Decoders.

(** The link of scenario 1 without padding: [aes:pw@host:8388]. *)
Lemma decoders_give_endpoints_witness :
  startswith (lit "ss://YWVzOnB3QGhvc3Q6ODM4OA#node") (lit "ss://") = true /\
  exists server port,
    endpoint_of (lit "ss")
      [ (lit "name", VStr (lit "node")); (lit "type", VStr (lit "ss"));
        (lit "server", VStr (lit "host")); (lit "port", VInt 8388);
        (lit "cipher", VStr (lit "aes")); (lit "password", VStr (lit "pw")) ]
      server port.
Proof.
  apply (proj1 (decoders_give_endpoints ascii_runtime)
           (lit "ss://YWVzOnB3QGhvc3Q6ODM4OA#node")).
  vm_compute. reflexivity.
Defined.

Lemma accepted_links_are_detected_witness :
  detect_protocol ascii_runtime (lit "ss://YWVzOnB3QGhvc3Q6ODM4OA#node") = SS.
Proof.
  apply (proj1 (accepted_links_are_detected ascii_runtime)
           (lit "ss://YWVzOnB3QGhvc3Q6ODM4OA#node")
           [ (lit "name", VStr (lit "node")); (lit "type", VStr (lit "ss"));
             (lit "server", VStr (lit "host")); (lit "port", VInt 8388);
             (lit "cipher", VStr (lit "aes")); (lit "password", VStr (lit "pw")) ]).
  vm_compute. reflexivity.
Defined.

(** *** The clean-up of names *)

Lemma replace_go_shrinks (old : str) (t : str) :
  forall skip, (List.length (replace_go old [] skip t) <= List.length t)%nat.
Proof.
  induction t as [|c t IH]; intros skip; cbn [replace_go]; [lia|].
  destruct skip as [|k].
  - destruct (startswith (c :: t) old); cbn [app List.length].
    + pose proof (IH (Nat.pred (List.length old))). lia.
    + pose proof (IH O). lia.
  - pose proof (IH k). cbn [List.length]. lia.
Qed.

Lemma replace_shrinks (old t : str) :
  replace old [] t = t \/
  (List.length (replace old [] t) < List.length t)%nat.
Proof.
  unfold replace. induction t as [|c t IH]; [left; reflexivity|].
  cbn [replace_go]. destruct (startswith (c :: t) old).
  - right. cbn [app List.length].
    pose proof (replace_go_shrinks old t (Nat.pred (List.length old))). lia.
  - destruct IH as [->|IH]; [left; reflexivity|].
    right. cbn [List.length]. lia.
Qed.

Lemma remove_vip_patterns_shrinks (name : str) :
  remove_vip_patterns name = name \/
  (List.length (remove_vip_patterns name) < List.length name)%nat.
Proof.
  unfold remove_vip_patterns. generalize vip_patterns as l.
  intros l. revert name. induction l as [|p l IH]; intros name;
    [left; reflexivity|].
  cbn [fold_left].
  destruct (replace_shrinks p name) as [->|H]; [apply IH|].
  right. destruct (IH (replace p [] name)) as [->|H']; lia.
Qed.

Lemma strip_with_shrinks (f : N -> bool) (t : str) :
  strip_with f t = t \/ (List.length (strip_with f t) < List.length t)%nat.
Proof.
  destruct (MixedFacts.strip_with_split f t) as [a [b E]].
  destruct a as [|x a]; [destruct b as [|y b]|].
  - left. rewrite app_nil_r in E. symmetry. exact E.
  - right. rewrite E at 2. rewrite !length_app. cbn [List.length]. lia.
  - right. rewrite E at 2. cbn [app List.length]. rewrite !length_app. lia.
Qed.

(** A trimmed text neither starts nor ends with a trimmed character. *)
Lemma strip_with_ends (f : N -> bool) (t : str) :
  match strip_with f t with [] => True | c :: _ => f c = false end /\
  match rev (strip_with f t) with [] => True | c :: _ => f c = false end.
Proof.
  unfold strip_with. split.
  - pose proof (dropwhile_head f t) as Hh.
    destruct (dropwhile_split f (rev (dropwhile f t))) as [b Hb].
    apply (f_equal (@rev N)) in Hb. rewrite rev_involutive, rev_app_distr in Hb.
    destruct (rev (dropwhile f (rev (dropwhile f t)))) as [|c r]; [exact I|].
    rewrite Hb in Hh. exact Hh.
  - rewrite rev_involutive. apply dropwhile_head.
Qed.

(** X30.  [_clean_vip_chars] returns the name as it is or a strictly
    shorter, non-empty one that neither starts nor ends with one of the
    separators (space, hyphen, underscore, bar). *)
Theorem clean_vip_chars_shape (name : str) :
  _clean_vip_chars name = name \/
  ((0 < List.length (_clean_vip_chars name) < List.length name)%nat /\
   match _clean_vip_chars name with
   | [] => True | c :: _ => mem c (lit " -_|") = false
   end /\
   match rev (_clean_vip_chars name) with
   | [] => True | c :: _ => mem c (lit " -_|") = false
   end).
Proof.
  unfold _clean_vip_chars.
  destruct (negb (nonempty name)); [left; reflexivity|]. cbv zeta.
  destruct (nonempty (strip_chars (lit " -_|") (remove_vip_patterns name))) eqn:E;
    [|left; reflexivity].
  unfold strip_chars in *.
  set (f := fun c => mem c (lit " -_|")) in *.
  assert (Hlen : strip_with f (remove_vip_patterns name) = name \/
                 (List.length (strip_with f (remove_vip_patterns name))
                  < List.length name)%nat).
  { assert (H1 : (List.length (remove_vip_patterns name) <= List.length name)%nat
                 /\ ((List.length (remove_vip_patterns name) = List.length name)%nat
                     -> remove_vip_patterns name = name)).
    { destruct (remove_vip_patterns_shrinks name) as [E1|E1].
      - split; [rewrite E1; lia | intros _; exact E1].
      - split; lia. }
    destruct H1 as [H1 H1'].
    destruct (strip_with_shrinks f (remove_vip_patterns name)) as [E2|E2].
    - destruct (Nat.eq_dec (List.length (remove_vip_patterns name))
                           (List.length name)) as [El|El].
      + left. rewrite E2. exact (H1' El).
      + right. rewrite E2. lia.
    - right. lia. }
  destruct Hlen as [->|Hlen]; [left; reflexivity|].
  right. split.
  - split; [|exact Hlen].
    destruct (strip_with f (remove_vip_patterns name)); [discriminate E|].
    cbn [List.length]. lia.
  - exact (strip_with_ends f (remove_vip_patterns name)).
Qed.

End DecoderFacts.
